(** * go-wappalyzer: pattern interpreter, signature compiler, channel
      matchers and implication closure

    A shallow embedding of the Go sources

      - [internal/parser/pattern.go], [internal/parser/regex.go],
        [internal/parser/compiler.go], the artifact extractors,
      - [internal/detection/*.go],
      - [pkg/wappalyzer] (configuration and engine),

    followed by the properties of the specification that were checked
    against them.

    Conventions.  A Go [string] is a Rocq [string] (a sequence of bytes);
    the case and white-space functions of package [strings] are modelled on
    ASCII text.  A Go [map] is a [gmap]; a [range] loop over a map is a
    [map_fold], whose visiting order is not specified, as in Go.  A Go
    [map[string]struct{}] used as a set is a [gset string].  Go's [int] is
    [Z].  Package [regexp] of the Go standard library is not part of the
    repository: it is an interface ([Regexp]) the definitions are
    parametrised by; a reference instance for a fragment of the RE2 syntax
    is given in [Module RE2] to run the definitions on concrete inputs. *)

From Stdlib Require Import ZArith Ascii String List Bool Lia.
From stdpp Require Import base option list gmap strings fin_maps fin_sets.

Local Open Scope string_scope.
Local Open Scope Z_scope.

(** ** Package [strings] of the Go standard library (ASCII fragment) *)

Module GoStrings.

(** [len(s)] *)
Definition len (s : string) : Z := Z.of_nat (String.length s).

(** [strings.HasPrefix(s, prefix)] *)
Definition HasPrefix (s prefix : string) : bool := String.prefix prefix s.

(** [s[n:]] for [0 <= n <= len(s)] *)
Fixpoint drop_str (n : nat) (s : string) : string :=
  match n, s with
  | O, _ => s
  | S n', String _ s' => drop_str n' s'
  | S _, EmptyString => EmptyString
  end.

(** [s[:n]] for [0 <= n <= len(s)] *)
Fixpoint take_str (n : nat) (s : string) : string :=
  match n, s with
  | O, _ => EmptyString
  | S n', String c s' => String c (take_str n' s')
  | S _, EmptyString => EmptyString
  end.

(** [strings.TrimPrefix(s, prefix)] *)
Definition TrimPrefix (s prefix : string) : string :=
  if HasPrefix s prefix then drop_str (String.length prefix) s else s.

(** [strings.Contains(s, substr)] *)
Fixpoint Contains (s substr : string) : bool :=
  String.prefix substr s ||
  match s with
  | EmptyString => false
  | String _ s' => Contains s' substr
  end.

(** [strings.Index(s, substr)]: the byte offset of the first occurrence,
    [-1] when there is none. *)
Fixpoint Index (s substr : string) : Z :=
  if String.prefix substr s then 0
  else match s with
       | EmptyString => -1
       | String _ s' => let i := Index s' substr in
                        if i <? 0 then -1 else i + 1
       end.

(** The loop of [strings.Split]: [skip] bytes of a separator that was just
    recognised are still to be passed over, [cur] is the current piece in
    reverse. *)
Fixpoint split_go (sep : string) (skip : nat) (cur : list ascii) (s : string)
  : list string :=
  match s with
  | EmptyString => [string_of_list_ascii (rev cur)]
  | String c s' =>
      match skip with
      | S k => split_go sep k cur s'
      | O =>
          if String.prefix sep s
          then string_of_list_ascii (rev cur)
                 :: split_go sep (Nat.pred (String.length sep)) [] s'
          else split_go sep O (c :: cur) s'
      end
  end.

(** [strings.Split(s, sep)] for a non-empty separator. *)
Definition Split (s sep : string) : list string := split_go sep O [] s.

(** [strings.SplitN(s, sep, 2)] for a non-empty separator: cut at the
    first occurrence only. *)
Definition SplitN2 (s sep : string) : list string :=
  let i := Index s sep in
  if i <? 0 then [s]
  else [take_str (Z.to_nat i) s;
        drop_str (Z.to_nat i + String.length sep) s].

Definition is_upper (c : ascii) : bool :=
  let n := nat_of_ascii c in (Nat.leb 65 n && Nat.leb n 90)%bool.

Definition lower_ascii (c : ascii) : ascii :=
  if is_upper c then ascii_of_nat (nat_of_ascii c + 32) else c.

(** [strings.ToLower(s)] *)
Fixpoint ToLower (s : string) : string :=
  match s with
  | EmptyString => EmptyString
  | String c s' => String (lower_ascii c) (ToLower s')
  end.

(** White space in the sense of [unicode.IsSpace], ASCII range:
    tab, line feed, vertical tab, form feed, carriage return, space. *)
Definition is_space (c : ascii) : bool :=
  let n := nat_of_ascii c in
  (Nat.leb 9 n && Nat.leb n 13 || Nat.eqb n 32)%bool.

Fixpoint trim_left (s : string) : string :=
  match s with
  | String c s' => if is_space c then trim_left s' else s
  | EmptyString => EmptyString
  end.

Fixpoint trim_right_rev (l : list ascii) : list ascii :=
  match l with
  | c :: l' => if is_space c then trim_right_rev l' else l
  | [] => []
  end.

(** [strings.TrimSpace(s)] *)
Definition TrimSpace (s : string) : string :=
  string_of_list_ascii
    (rev (trim_right_rev (rev (list_ascii_of_string (trim_left s))))).

(** [s[0]] and [s[len(s)-1]] *)
Definition first_byte (s : string) : option ascii := String.get 0 s.
Definition last_byte (s : string) : option ascii :=
  String.get (Nat.pred (String.length s)) s.

End GoStrings.

(** ** [fmt.Sscanf(s, "%d", &n)] *)

Module GoFmt.

Definition is_digit (c : ascii) : bool :=
  let n := nat_of_ascii c in (Nat.leb 48 n && Nat.leb n 57)%bool.

(** [ss.SkipSpace] of a [Sscanf]: spaces are passed over, a line feed is
    an error ("unexpected newline"). *)
Fixpoint SkipSpace (s : string) : option string :=
  match s with
  | EmptyString => Some s
  | String c s' =>
      if Nat.eqb (nat_of_ascii c) 10 then None
      else if GoStrings.is_space c then SkipSpace s' else Some s
  end.

(** The decimal digits at the head of [s], as a number, and how many
    there are. *)
Fixpoint digits (acc : Z) (n : nat) (s : string) : Z * nat :=
  match s with
  | String c s' =>
      if is_digit c
      then digits (10 * acc + Z.of_nat (nat_of_ascii c - 48)) (S n) s'
      else (acc, n)
  | EmptyString => (acc, n)
  end.

(** The verb [%d] into an [*int]: [Some n] when an integer was scanned and
    stored, [None] when the scan failed and the argument is left as it
    was (empty input, no digit, a value outside 64 bits). *)
Definition Sscanf_d (s : string) : option Z :=
  match SkipSpace s with
  | None => None
  | Some s1 =>
      let '(neg, s2) :=
        match s1 with
        | String "-" r => (true, r)
        | String "+" r => (false, r)
        | _ => (false, s1)
        end in
      let '(v, n) := digits 0 0 s2 in
      if Nat.eqb n 0 then None
      else let v' := if neg : bool then - v else v in
           if (- 2 ^ 63 <=? v') && (v' <=? 2 ^ 63 - 1) then Some v' else None
  end.

End GoFmt.

(** ** Package [regexp] of the Go standard library, as an interface *)

Class Regexp := {
  (** [*regexp.Regexp] *)
  regex : Type;
  (** [regexp.Compile]: [None] is the error result. *)
  Compile : string -> option regex;
  (** [regexp.MustCompile], used on the constant patterns of the packages. *)
  MustCompile : string -> regex;
  (** [re.MatchString(s)] *)
  MatchString : regex -> string -> bool;
  (** [re.FindStringSubmatch(s)]: the empty list stands for [nil]. *)
  FindStringSubmatch : regex -> string -> list string;
  (** [re.FindAllSubmatch(b, -1)]: one list of groups per match; a group
      that did not take part is the empty string. *)
  FindAllSubmatch : regex -> string -> list (list string);
}.

(** ** [internal/models]: [ParsedPattern] *)

Record ParsedPattern := {
  Pattern : string;
  IsLiteral : bool;
  IsCaseSensitive : bool;
  Version : string;
  Confidence : Z;
  SkipRegex : bool;
}.

(** ** [internal/parser]: pattern.go and regex.go *)

Section Parser.
Context `{RE : Regexp}.
Import GoStrings.

(** [versionPatterns] *)
Definition versionPatterns : list regex :=
  [ MustCompile "\\;version:(.+)";
    MustCompile "[^\d](\d+(?:\.\d+)+)";
    MustCompile "\bv?(\d+(?:\.\d+)+)";
    MustCompile "version[:/\s]*([\d.]+)" ].

Definition specialChars : list string :=
  ["\"; "^"; "$"; "."; "|"; "?"; "*"; "+"; "("; "["; "{"].

(** [len(pattern) > 2 && pattern[0] == '/' && pattern[len(pattern)-1] == '/'] *)
Definition slash_wrapped (pattern : string) : bool :=
  (2 <? len pattern)
  && bool_decide (first_byte pattern = Some "/"%char)
  && bool_decide (last_byte pattern = Some "/"%char).

Definition isRegexPattern (pattern : string) : bool :=
  existsb (fun char => Contains pattern char) specialChars
  || slash_wrapped pattern.

Definition isCaseSensitive (pattern : string) : bool :=
  Contains pattern "(?-i)" && negb (Contains pattern "(?i)").

(** The loop of [extractVersionInfo] over [parts[1:]]: the first segment
    that starts with [version:] or [confidence:] decides. *)
Fixpoint directive (parts : list string) : option (string * Z) :=
  match parts with
  | [] => None
  | part :: rest =>
      if HasPrefix part "version:"
      then Some (TrimPrefix part "version:", 80)
      else if HasPrefix part "confidence:"
      then Some ("", default 100 (GoFmt.Sscanf_d (TrimPrefix part "confidence:")))
      else directive rest
  end.

(** The loop over [versionPatterns]: the first pattern with a submatch
    gives [match[1]]. *)
Fixpoint firstVersion (vps : list regex) (text : string) : option string :=
  match vps with
  | [] => None
  | vp :: rest =>
      match FindStringSubmatch vp text with
      | _ :: m1 :: _ => Some m1
      | _ => firstVersion rest text
      end
  end.

Definition extractVersionInfo (pattern : string) : string * Z :=
  let parts := Split pattern "\;" in
  match (if 1 <? Z.of_nat (length parts) then directive (tail parts) else None) with
  | Some r => r
  | None =>
      match firstVersion versionPatterns pattern with
      | Some v => (v, 70)
      | None => ("", 100)
      end
  end.

Definition strip_slashes (pattern : string) : string :=
  if slash_wrapped pattern
  then take_str (String.length pattern - 2) (drop_str 1 pattern)
  else pattern.

Definition cleanPatternString (pattern : string) : string :=
  let index := Index pattern "\;" in
  let pattern := if 0 <? index then take_str (Z.to_nat index) pattern
                 else pattern in
  strip_slashes pattern.

(** regex.go *)
Definition normalizePattern (pattern : string) : string :=
  let pattern := strip_slashes pattern in
  if negb (HasPrefix pattern "(?i)") && negb (Contains pattern "(?-i)")
  then "(?i)" +:+ pattern
  else pattern.

(** [CompileRegex] with its cache [regexCache] as explicit state. *)
Definition CompileRegex_cached (cache : gmap string regex) (pattern : string)
  : option regex * gmap string regex :=
  match cache !! pattern with
  | Some compiled => (Some compiled, cache)
  | None =>
      match Compile (normalizePattern pattern) with
      | None => (None, cache)
      | Some compiled => (Some compiled, <[pattern := compiled]> cache)
      end
  end.

(** What [CompileRegex] answers with a cache that only holds earlier
    answers of itself (see [CompileRegex_cached_coherent]). *)
Definition CompileRegex (pattern : string) : option regex :=
  Compile (normalizePattern pattern).

Definition cache_coherent (cache : gmap string regex) : Prop :=
  forall p r, cache !! p = Some r -> CompileRegex p = Some r.

(** [ParsePattern]: [None] is the error "invalid regex pattern". *)
Definition ParsePattern (pattern : string) : option ParsedPattern :=
  let parsedPattern :=
    {| Pattern := pattern;
       IsLiteral := negb (isRegexPattern pattern);
       IsCaseSensitive := isCaseSensitive pattern;
       Version := "";
       Confidence := 100;
       SkipRegex := false |} in
  let '(version, confidence) := extractVersionInfo pattern in
  let parsedPattern :=
    if bool_decide (version <> "")
    then {| Pattern := Pattern parsedPattern;
            IsLiteral := IsLiteral parsedPattern;
            IsCaseSensitive := IsCaseSensitive parsedPattern;
            Version := version;
            Confidence := confidence;
            SkipRegex := SkipRegex parsedPattern |}
    else parsedPattern in
  let cleanedPattern := cleanPatternString pattern in
  if negb (IsLiteral parsedPattern)
  then match CompileRegex cleanedPattern with
       | None => None
       | Some _ =>
           Some {| Pattern := cleanedPattern;
                   IsLiteral := IsLiteral parsedPattern;
                   IsCaseSensitive := IsCaseSensitive parsedPattern;
                   Version := Version parsedPattern;
                   Confidence := Confidence parsedPattern;
                   SkipRegex := SkipRegex parsedPattern |}
       end
  else Some parsedPattern.

Definition EvaluatePattern (pattern : ParsedPattern) (target : string)
  : bool * string :=
  if IsLiteral pattern then
    if IsCaseSensitive pattern
    then (Contains target (Pattern pattern), Version pattern)
    else (Contains (ToLower target) (ToLower (Pattern pattern)), Version pattern)
  else
    match CompileRegex (Pattern pattern) with
    | None => (false, "")
    | Some regex =>
        if MatchString regex target then
          let version := Version pattern in
          let version :=
            if bool_decide (version = "")
            then default version (firstVersion versionPatterns target)
            else version in
          (true, version)
        else (false, "")
    end.

End Parser.

(** ** [internal/models]: authored and compiled fingerprints *)

(** A value decoded from JSON into an [interface{}]. *)
#[local] Unset Elimination Schemes.
Inductive JValue :=
| JNull
| JBool (b : bool)
| JNumber (n : Z)
| JString (s : string)
| JArray (items : list JValue)
| JObject (fields : list (string * JValue)).
#[local] Set Elimination Schemes.

Record Fingerprint := {
  Cats : list Z;
  Description : string;
  Icon : string;
  Website : string;
  CPE : string;
  Cookies : gmap string string;
  JS : gmap string string;
  Headers : gmap string string;
  HTML : JValue;
  Script : JValue;
  ScriptSrc : JValue;
  Meta : gmap string JValue;
  Implies : JValue;
  Name : string;
}.

(** [CompiledFingerprint]; [App] holds the fields copied as they are from
    the authored fingerprint. *)
Record CompiledFingerprint := {
  App : Fingerprint;
  HeaderPatterns : gmap string ParsedPattern;
  CookiePatterns : gmap string ParsedPattern;
  HTMLPatterns : list ParsedPattern;
  ScriptPatterns : list ParsedPattern;
  ScriptSrcPatterns : list ParsedPattern;
  MetaPatterns : gmap string (list ParsedPattern);
  JSPatterns : gmap string ParsedPattern;
  ImpliedTechs : list string;
}.

Record ScriptPattern := { Source : string; Content : string }.

(** ** [internal/parser]: compiler.go and the artifact extractors *)

Section Compiler.
Context `{RE : Regexp}.
Import GoStrings.

(** The strings among the items of a slice. *)
Definition string_items (items : list JValue) : list string :=
  omap (fun item => match item with JString s => Some s | _ => None end) items.

(** [extractPatternList].  The map case of the source keeps the values
    whose reflected kind is [String]; the values of a decoded JSON object
    are of kind [Interface], so that case adds nothing. *)
Definition extractPatternList (data : JValue) : list string :=
  match data with
  | JString s => [s]
  | JArray items => string_items items
  | _ => []
  end.

Definition processImpliesList (implies : JValue) : list string :=
  match implies with
  | JString s => [s]
  | JArray items => string_items items
  | _ => []
  end.

(** The loops over [app.Headers], [app.Cookies] and [app.JS]: a pattern
    that does not parse is skipped, the others are stored under
    [key name]. *)
Definition compileKeyed (key : string -> string) (raw : gmap string string)
  : gmap string ParsedPattern :=
  map_fold (fun name pattern acc =>
              match ParsePattern pattern with
              | None => acc
              | Some parsedPattern => <[key name := parsedPattern]> acc
              end) ∅ raw.

(** The loops over the pattern lists of HTML, scripts and script sources. *)
Definition compileList (data : JValue) : list ParsedPattern :=
  omap ParsePattern (extractPatternList data).

Definition compileMeta (raw : gmap string JValue)
  : gmap string (list ParsedPattern) :=
  map_fold (fun metaName patterns acc =>
              let compiledPatterns := compileList patterns in
              if 0 <? Z.of_nat (length compiledPatterns)
              then <[ToLower metaName := compiledPatterns]> acc
              else acc) ∅ raw.

Definition compileApp (app : Fingerprint) : CompiledFingerprint :=
  {| App := app;
     HeaderPatterns := compileKeyed ToLower (Headers app);
     CookiePatterns := compileKeyed ToLower (Cookies app);
     HTMLPatterns := compileList (HTML app);
     ScriptPatterns := compileList (Script app);
     ScriptSrcPatterns := compileList (ScriptSrc app);
     MetaPatterns := compileMeta (Meta app);
     JSPatterns := compileKeyed (fun jsName => jsName) (JS app);
     ImpliedTechs := processImpliesList (Implies app) |}.

(** [CompileFingerprints]: every app is compiled on its own and stored
    under its own name; the function has no error exit. *)
Definition CompileFingerprints (apps : gmap string Fingerprint)
  : gmap string CompiledFingerprint :=
  compileApp <$> apps.

(** *** The extractors *)

Definition dq : string := String (ascii_of_nat 34) EmptyString.
(** The class of the two quote characters. *)
Definition q : string := "[" +:+ dq +:+ "']".
(** The class of everything but the two quote characters, once or more,
    captured. *)
Definition nq : string := "([^" +:+ dq +:+ "']+)".

Definition metaTagRegex : regex :=
  MustCompile ("(?i)<meta[^>]+name=" +:+ q +:+ nq +:+ q +:+ "[^>]+content="
               +:+ q +:+ nq +:+ q +:+ "|<meta[^>]+content=" +:+ q +:+ nq +:+ q
               +:+ "[^>]+name=" +:+ q +:+ nq +:+ q).

Definition scriptRegex : regex :=
  MustCompile ("(?i)<script[^>]*src=" +:+ q +:+ nq +:+ q
               +:+ "[^>]*>|<script[^>]*>([\s\S]*?)</script>").

Definition jsVarRegex : regex :=
  MustCompile ("(?i)var\s+([a-zA-Z0-9_$]+)\s*=\s*" +:+ q +:+ nq +:+ q).

(** [match[i]] *)
Definition group (m : list string) (i : nat) : string := nth i m "".

Definition ExtractMetaTags (body : string) : gmap string string :=
  foldl (fun results m =>
           if bool_decide (group m 1 <> "") && bool_decide (group m 2 <> "")
           then <[ToLower (group m 1) := group m 2]> results
           else if bool_decide (group m 3 <> "") && bool_decide (group m 4 <> "")
           then <[ToLower (group m 4) := group m 3]> results
           else results)
        ∅ (FindAllSubmatch metaTagRegex body).

Definition ExtractScripts (body : string) : list ScriptPattern :=
  omap (fun m =>
          let script := {| Source := group m 1; Content := group m 2 |} in
          if bool_decide (Source script <> "") || bool_decide (Content script <> "")
          then Some script else None)
       (FindAllSubmatch scriptRegex body).

Definition ExtractJS (body : string) : gmap string string :=
  foldl (fun results script =>
           if bool_decide (Content script = "") then results
           else foldl (fun results m =>
                         if 3 <=? Z.of_nat (length m)
                         then <[group m 1 := group m 2]> results
                         else results)
                      results (FindAllSubmatch jsVarRegex (Content script)))
        ∅ (ExtractScripts body).

End Compiler.

(** ** [internal/detection] *)

Section Detection.
Context `{RE : Regexp}.
Import GoStrings.

(** [matched, _ := parser.EvaluatePattern(pattern, target)] *)
Definition matched (pattern : ParsedPattern) (target : string) : bool :=
  fst (EvaluatePattern pattern target).

(** A [range] over a map that sets a flag (and may [break]) as soon as
    [test] holds of an entry. *)
Definition range_any {A} (test : string -> A -> bool) (m : gmap string A) : bool :=
  map_fold (fun k v found => if found : bool then true else test k v) false m.

(** The outer loop of every matcher: [technologies[tech] = struct{}{}]
    for the entries of which [hit] holds. *)
Definition range_add {A} (hit : A -> bool) (patterns : gmap string A)
    (technologies : gset string) : gset string :=
  map_fold (fun tech v acc => if hit v then {[tech]} ∪ acc else acc)
           technologies patterns.

(** The first loop of the header, cookie and meta matchers: a copy of the
    evidence under lower-cased keys. *)
Definition normalize_keys {A} (m : gmap string A) : gmap string A :=
  map_fold (fun name v acc => <[ToLower name := v]> acc) ∅ m.

Definition MatchHeaders (headerPatterns : gmap string (gmap string ParsedPattern))
    (headers : gmap string (list string)) (technologies : gset string)
  : gset string :=
  let normalizedHeaders := normalize_keys headers in
  range_add
    (range_any (fun headerName pattern =>
       match normalizedHeaders !! ToLower headerName with
       | Some headerValues => existsb (matched pattern) headerValues
       | None => false
       end))
    headerPatterns technologies.

(** The body of the loop over the pairs of one [Cookie] header. *)
Definition add_cookie_pair (cookies : gmap string string) (cookiePair : string)
  : gmap string string :=
  let cookiePair := TrimSpace cookiePair in
  if bool_decide (cookiePair = "") then cookies
  else match SplitN2 cookiePair "=" with
       | name :: value :: _ => <[ToLower (TrimSpace name) := TrimSpace value]> cookies
       | _ => cookies
       end.

(** The body of the loop over the [Set-Cookie] headers. *)
Definition add_set_cookie (cookies : gmap string string) (setCookieHeader : string)
  : gmap string string :=
  match SplitN2 setCookieHeader ";" with
  | [] => cookies
  | first :: _ =>
      match SplitN2 first "=" with
      | name :: value :: _ => <[ToLower (TrimSpace name) := TrimSpace value]> cookies
      | _ => cookies
      end
  end.

Definition ExtractCookiesFromHeaders (headers : gmap string (list string))
  : gmap string string :=
  let cookies := ∅ in
  let cookies :=
    match headers !! "Cookie" with
    | Some cookieHeaders =>
        foldl (fun cookies cookieHeader =>
                 foldl add_cookie_pair cookies (Split cookieHeader ";"))
              cookies cookieHeaders
    | None => cookies
    end in
  match headers !! "Set-Cookie" with
  | Some setCookieHeaders => foldl add_set_cookie cookies setCookieHeaders
  | None => cookies
  end.

Definition MatchCookies (cookiePatterns : gmap string (gmap string ParsedPattern))
    (cookies : gmap string string) (technologies : gset string) : gset string :=
  let normalizedCookies := normalize_keys cookies in
  range_add
    (range_any (fun cookieName pattern =>
       match normalizedCookies !! ToLower cookieName with
       | Some cookieValue => matched pattern cookieValue
       | None => false
       end))
    cookiePatterns technologies.

Definition MatchHTML (htmlPatterns : gmap string (list ParsedPattern))
    (body : string) (technologies : gset string) : gset string :=
  range_add (existsb (fun pattern => matched pattern body)) htmlPatterns technologies.

Definition MatchScripts (scriptPatterns : gmap string (list ParsedPattern))
    (body : string) (technologies : gset string) : gset string :=
  range_add (existsb (fun pattern => matched pattern body)) scriptPatterns technologies.

Definition MatchScriptSrc (scriptSrcPatterns : gmap string (list ParsedPattern))
    (scripts : list ScriptPattern) (technologies : gset string) : gset string :=
  range_add
    (existsb (fun pattern =>
       existsb (fun script => bool_decide (Source script <> "")
                              && matched pattern (Source script)) scripts))
    scriptSrcPatterns technologies.

Definition MatchMetaTags (metaPatterns : gmap string (gmap string (list ParsedPattern)))
    (metaTags : gmap string string) (technologies : gset string) : gset string :=
  let normalizedMeta := normalize_keys metaTags in
  range_add
    (range_any (fun metaName patterns =>
       match normalizedMeta !! ToLower metaName with
       | Some metaContent => existsb (fun pattern => matched pattern metaContent) patterns
       | None => false
       end))
    metaPatterns technologies.

Definition MatchJS (jsPatterns : gmap string (gmap string ParsedPattern))
    (jsVars : gmap string string) (technologies : gset string) : gset string :=
  range_add
    (range_any (fun jsName pattern =>
       match jsVars !! jsName with
       | Some jsValue => matched pattern jsValue
       | None => false
       end))
    jsPatterns technologies.

End Detection.

(** ** [pkg/wappalyzer]: configuration and engine *)

Record Config := {
  JSON : option string;
  DisableJSDetection : bool;
  DisableHTMLDetection : bool;
  DisableCookieDetection : bool;
  DisableHeaderDetection : bool;
  DisableMetaDetection : bool;
  DisableScriptDetection : bool;
  MaxBodySize : Z;
}.

(** [config := &Config{}] *)
Definition defaultConfig : Config :=
  {| JSON := None; DisableJSDetection := false; DisableHTMLDetection := false;
     DisableCookieDetection := false; DisableHeaderDetection := false;
     DisableMetaDetection := false; DisableScriptDetection := false;
     MaxBodySize := 0 |}.

(** The options [WithoutHeaderDetection], ..., [WithoutJSDetection]. *)
Definition WithoutJSDetection (c : Config) : Config :=
  {| JSON := JSON c; DisableJSDetection := true;
     DisableHTMLDetection := DisableHTMLDetection c;
     DisableCookieDetection := DisableCookieDetection c;
     DisableHeaderDetection := DisableHeaderDetection c;
     DisableMetaDetection := DisableMetaDetection c;
     DisableScriptDetection := DisableScriptDetection c;
     MaxBodySize := MaxBodySize c |}.

Definition WithoutHTMLDetection (c : Config) : Config :=
  {| JSON := JSON c; DisableJSDetection := DisableJSDetection c;
     DisableHTMLDetection := true;
     DisableCookieDetection := DisableCookieDetection c;
     DisableHeaderDetection := DisableHeaderDetection c;
     DisableMetaDetection := DisableMetaDetection c;
     DisableScriptDetection := DisableScriptDetection c;
     MaxBodySize := MaxBodySize c |}.

Definition WithoutCookieDetection (c : Config) : Config :=
  {| JSON := JSON c; DisableJSDetection := DisableJSDetection c;
     DisableHTMLDetection := DisableHTMLDetection c;
     DisableCookieDetection := true;
     DisableHeaderDetection := DisableHeaderDetection c;
     DisableMetaDetection := DisableMetaDetection c;
     DisableScriptDetection := DisableScriptDetection c;
     MaxBodySize := MaxBodySize c |}.

Definition WithoutHeaderDetection (c : Config) : Config :=
  {| JSON := JSON c; DisableJSDetection := DisableJSDetection c;
     DisableHTMLDetection := DisableHTMLDetection c;
     DisableCookieDetection := DisableCookieDetection c;
     DisableHeaderDetection := true;
     DisableMetaDetection := DisableMetaDetection c;
     DisableScriptDetection := DisableScriptDetection c;
     MaxBodySize := MaxBodySize c |}.

Definition WithoutMetaDetection (c : Config) : Config :=
  {| JSON := JSON c; DisableJSDetection := DisableJSDetection c;
     DisableHTMLDetection := DisableHTMLDetection c;
     DisableCookieDetection := DisableCookieDetection c;
     DisableHeaderDetection := DisableHeaderDetection c;
     DisableMetaDetection := true;
     DisableScriptDetection := DisableScriptDetection c;
     MaxBodySize := MaxBodySize c |}.

Definition WithoutScriptDetection (c : Config) : Config :=
  {| JSON := JSON c; DisableJSDetection := DisableJSDetection c;
     DisableHTMLDetection := DisableHTMLDetection c;
     DisableCookieDetection := DisableCookieDetection c;
     DisableHeaderDetection := DisableHeaderDetection c;
     DisableMetaDetection := DisableMetaDetection c;
     DisableScriptDetection := true;
     MaxBodySize := MaxBodySize c |}.

Record CategoryItem := {
  CategoryName : string;
  Priority : Z;
  Groups : list Z;
}.

(** The package-level tables filled once by [loadDataOnce]. *)
Record Tables := {
  categoriesMapping : gmap Z CategoryItem;
  groupsMapping : gmap Z string;
  categoryToGroups : gmap Z (list Z);
  groupCategories : gmap Z (list Z);
}.

Record Wappalyze := {
  config : Config;
  fingerprints : gmap string CompiledFingerprint;
  headerPatterns : gmap string (gmap string ParsedPattern);
  cookiePatterns : gmap string (gmap string ParsedPattern);
  htmlPatterns : gmap string (list ParsedPattern);
  scriptPatterns : gmap string (list ParsedPattern);
  scriptSrcPatterns : gmap string (list ParsedPattern);
  metaPatterns : gmap string (gmap string (list ParsedPattern));
  jsPatterns : gmap string (gmap string ParsedPattern);
  impliesMapping : gmap string (list string);
  categoryMapping : gmap string (list Z);
}.

Section Engine.
Context `{RE : Regexp}.

(** The loops of [organizePatterns], [buildImpliesMapping] and
    [buildCategoryMapping]: the collection of an app is stored under the
    app's name when it is not empty. *)
Definition nonempty_maps {A B} (field : A -> gmap string B) (apps : gmap string A)
  : gmap string (gmap string B) :=
  omap (fun app => if 0 <? Z.of_nat (size (field app)) then Some (field app) else None)
       apps.

Definition nonempty_lists {A B} (field : A -> list B) (apps : gmap string A)
  : gmap string (list B) :=
  omap (fun app => if 0 <? Z.of_nat (length (field app)) then Some (field app) else None)
       apps.

(** [New], from the configuration left by the options and the decoded
    fingerprints. *)
Definition New (config : Config) (apps : gmap string Fingerprint) : Wappalyze :=
  let compiled := CompileFingerprints apps in
  {| config := config;
     fingerprints := compiled;
     headerPatterns := nonempty_maps HeaderPatterns compiled;
     cookiePatterns := nonempty_maps CookiePatterns compiled;
     htmlPatterns := nonempty_lists HTMLPatterns compiled;
     scriptPatterns := nonempty_lists ScriptPatterns compiled;
     scriptSrcPatterns := nonempty_lists ScriptSrcPatterns compiled;
     metaPatterns := nonempty_maps MetaPatterns compiled;
     jsPatterns := nonempty_maps JSPatterns compiled;
     impliesMapping := nonempty_lists ImpliedTechs compiled;
     categoryMapping := nonempty_lists (fun app => Cats (App app)) compiled |}.

Definition detectTechnologies (w : Wappalyze) (headers : gmap string (list string))
    (body : string) (technologies : gset string) : gset string :=
  let technologies := MatchHeaders (headerPatterns w) headers technologies in
  let cookies := ExtractCookiesFromHeaders headers in
  let technologies := MatchCookies (cookiePatterns w) cookies technologies in
  let technologies :=
    if negb (DisableHTMLDetection (config w))
    then MatchHTML (htmlPatterns w) body technologies
    else technologies in
  let technologies :=
    if negb (DisableScriptDetection (config w))
    then let technologies := MatchScripts (scriptPatterns w) body technologies in
         let scripts := ExtractScripts body in
         MatchScriptSrc (scriptSrcPatterns w) scripts technologies
    else technologies in
  let technologies :=
    if negb (DisableMetaDetection (config w))
    then let metaTags := ExtractMetaTags body in
         MatchMetaTags (metaPatterns w) metaTags technologies
    else technologies in
  if negb (DisableJSDetection (config w))
  then let jsVars := ExtractJS body in
       MatchJS (jsPatterns w) jsVars technologies
  else technologies.

(** The inner loop of [addImpliedTechnologies] over [implies]. *)
Definition enqueue_implied (st : gset string * list string) (implied : string)
  : gset string * list string :=
  let '(technologies, queue) := st in
  if decide (implied ∈ technologies) then (technologies, queue)
  else ({[implied]} ∪ technologies, (queue ++ [implied])%list).

(** The loop [for len(queue) > 0] of [addImpliedTechnologies]; [None]
    when [fuel] iterations were not enough to empty the queue. *)
Fixpoint expand (fuel : nat) (implies : gmap string (list string))
    (queue : list string) (technologies : gset string) : option (gset string) :=
  match queue with
  | [] => Some technologies
  | current :: queue =>
      match fuel with
      | O => None
      | S fuel =>
          let '(technologies, queue) :=
            match implies !! current with
            | Some implied => foldl enqueue_implied (technologies, queue) implied
            | None => (technologies, queue)
            end in
          expand fuel implies queue technologies
      end
  end.

(** Every name that can ever be added: the names in the lists of the
    implication mapping. *)
Definition implied_names (implies : gmap string (list string)) : gset string :=
  map_fold (fun _ l acc => list_to_set l ∪ acc) ∅ implies.

(** [addImpliedTechnologies].  [order] is the order in which the first
    loop, a [range] over the set, visits the technologies. *)
Definition addImpliedTechnologies (w : Wappalyze) (order : list string)
    (technologies : gset string) : option (gset string) :=
  expand (size (implied_names (impliesMapping w) ∖ technologies) + length order)
         (impliesMapping w) order technologies.

(** [Fingerprint] *)
Definition Fingerprint_ (w : Wappalyze) (headers : gmap string (list string))
    (body : string) : option (gset string) :=
  let technologies := detectTechnologies w headers body ∅ in
  addImpliedTechnologies w (elements technologies) technologies.

Definition GetGroupCategories (t : Tables) (groupID : Z) : list Z :=
  default [] (groupCategories t !! groupID).

Definition GetTechByGroup (t : Tables) (w : Wappalyze) (groupID : Z) : list string :=
  let categories := GetGroupCategories t groupID in
  if Z.of_nat (length categories) =? 0 then []
  else
    let categoryMap : gset Z := list_to_set categories in
    map_fold (fun tech catIDs result =>
                if existsb (fun catID => bool_decide (catID ∈ categoryMap)) catIDs
                then (result ++ [tech])%list else result)
             [] (categoryMapping w).

End Engine.

(** ** [strconv.Atoi] *)

Module GoStrconv.

(** An optional sign and decimal digits, nothing else, within 64 bits;
    [None] is the error result. *)
Definition Atoi (s : string) : option Z :=
  let '(neg, s2) :=
    match s with
    | String "-" r => (true, r)
    | String "+" r => (false, r)
    | _ => (false, s)
    end in
  let '(v, n) := GoFmt.digits 0 0 s2 in
  if Nat.eqb n 0 || negb (Nat.eqb n (String.length s2)) then None
  else let v' := if neg : bool then - v else v in
       if (- 2 ^ 63 <=? v') && (v' <=? 2 ^ 63 - 1) then Some v' else None.

End GoStrconv.

(** ** [pkg/wappalyzer]: the tables of categories and groups *)

Definition emptyTables : Tables :=
  {| categoriesMapping := ∅; groupsMapping := ∅;
     categoryToGroups := ∅; groupCategories := ∅ |}.

(** [groupCategories[groupID] = append(groupCategories[groupID], categoryID)] *)
Definition append_category (categoryID : Z) (index : gmap Z (list Z)) (groupID : Z)
  : gmap Z (list Z) :=
  <[groupID := (default [] (index !! groupID) ++ [categoryID])%list]> index.

(** The body of the loop of [loadDataOnce] over [categoriesData], for an
    entry whose JSON decoded to [category]; a key that is not a number is
    skipped. *)
Definition add_category (categoryIDStr : string) (category : CategoryItem)
    (t : Tables) : Tables :=
  match GoStrconv.Atoi categoryIDStr with
  | None => t
  | Some categoryID =>
      let has_groups := 0 <? Z.of_nat (length (Groups category)) in
      {| categoriesMapping := <[categoryID := category]> (categoriesMapping t);
         groupsMapping := groupsMapping t;
         categoryToGroups :=
           if has_groups
           then <[categoryID := Groups category]> (categoryToGroups t)
           else categoryToGroups t;
         groupCategories :=
           if has_groups
           then foldl (append_category categoryID) (groupCategories t) (Groups category)
           else groupCategories t |}
  end.

(** The body of the loop over [groupsData]. *)
Definition add_group (groupIDStr : string) (group : string) (t : Tables) : Tables :=
  match GoStrconv.Atoi groupIDStr with
  | None => t
  | Some groupID =>
      {| categoriesMapping := categoriesMapping t;
         groupsMapping := <[groupID := group]> (groupsMapping t);
         categoryToGroups := categoryToGroups t;
         groupCategories := groupCategories t |}
  end.

(** The tables [loadDataOnce] builds from the decoded category and group
    files (the entries whose JSON does not decode are skipped by the source
    and are not part of the arguments). *)
Definition loadData (categoriesData : gmap string CategoryItem)
    (groupsData : gmap string string) : Tables :=
  map_fold add_group (map_fold add_category emptyTables categoriesData) groupsData.

Definition GetCategoryGroups (t : Tables) (categoryID : Z) : list Z :=
  default [] (categoryToGroups t !! categoryID).

(** ** [pkg/wappalyzer]: the result views *)

Module AppInfo.
Record t := { Description : string; Website : string }.
End AppInfo.

Module CatsInfo.
Record t := { Cats : list Z }.
End CatsInfo.

Module TechInfo.
Record t := {
  Name : string;
  Description : string;
  Website : string;
  CPE : string;
  Categories : list string;
  Groups : list string;
  Confidence : Z;
  Version : string;
}.
End TechInfo.

(** [for technology := range technologies { result[technology] = ... }] *)
Definition range_set {B} (entry : string -> B) (technologies : gset string)
  : gmap string B :=
  set_fold (fun technology result => <[technology := entry technology]> result)
           ∅ technologies.

(** The names of the categories of [catIDs] that are in the table. *)
Definition category_names (t : Tables) (catIDs : list Z) : list string :=
  omap (fun catID => CategoryName <$> categoriesMapping t !! catID) catIDs.

(** [groupIDsMap] of [FingerprintWithGroups]: the groups of every category
    of [catIDs]. *)
Definition group_ids (t : Tables) (catIDs : list Z) : gset Z :=
  foldl (fun groupIDsMap catID =>
           match categoryToGroups t !! catID with
           | Some groupIDs => foldl (fun acc groupID => {[groupID]} ∪ acc) groupIDsMap groupIDs
           | None => groupIDsMap
           end) ∅ catIDs.

(** [groupIDsMap] of [FingerprintWithTechInfo]: the groups of the
    categories of [catIDs] that are in the table of categories. *)
Definition known_group_ids (t : Tables) (catIDs : list Z) : gset Z :=
  foldl (fun groupIDsMap catID =>
           match categoriesMapping t !! catID with
           | Some _ =>
               match categoryToGroups t !! catID with
               | Some groupIDs =>
                   foldl (fun acc groupID => {[groupID]} ∪ acc) groupIDsMap groupIDs
               | None => groupIDsMap
               end
           | None => groupIDsMap
           end) ∅ catIDs.

(** The loop that turns group IDs into names; the IDs are visited in the
    order of a [range] over the map. *)
Definition group_names (t : Tables) (groupIDsMap : gset Z) : list string :=
  omap (fun groupID => groupsMapping t !! groupID) (elements groupIDsMap).

Section Views.
Context `{RE : Regexp}.

Definition FingerprintWithInfo (w : Wappalyze) (headers : gmap string (list string))
    (body : string) : option (gmap string AppInfo.t) :=
  range_set (fun technology =>
               match fingerprints w !! technology with
               | Some app => {| AppInfo.Description := Description (App app);
                                AppInfo.Website := Website (App app) |}
               | None => {| AppInfo.Description := ""; AppInfo.Website := "" |}
               end)
  <$> Fingerprint_ w headers body.

Definition FingerprintWithCats (w : Wappalyze) (headers : gmap string (list string))
    (body : string) : option (gmap string CatsInfo.t) :=
  range_set (fun technology =>
               match categoryMapping w !! technology with
               | Some cats => {| CatsInfo.Cats := cats |}
               | None => {| CatsInfo.Cats := [] |}
               end)
  <$> Fingerprint_ w headers body.

Definition FingerprintWithCategories (t : Tables) (w : Wappalyze)
    (headers : gmap string (list string)) (body : string)
  : option (gmap string (list string)) :=
  range_set (fun technology =>
               match categoryMapping w !! technology with
               | Some catIDs => category_names t catIDs
               | None => []
               end)
  <$> Fingerprint_ w headers body.

Definition FingerprintWithGroups (t : Tables) (w : Wappalyze)
    (headers : gmap string (list string)) (body : string)
  : option (gmap string (list string)) :=
  range_set (fun technology =>
               match categoryMapping w !! technology with
               | Some catIDs => group_names t (group_ids t catIDs)
               | None => []
               end)
  <$> Fingerprint_ w headers body.

Definition FingerprintWithTechInfo (t : Tables) (w : Wappalyze)
    (headers : gmap string (list string)) (body : string)
  : option (gmap string TechInfo.t) :=
  range_set (fun technology =>
               let '(description, website, cpe) :=
                 match fingerprints w !! technology with
                 | Some app => (Description (App app), Website (App app), CPE (App app))
                 | None => ("", "", "")
                 end in
               let '(categories, groups) :=
                 match categoryMapping w !! technology with
                 | Some catIDs =>
                     (category_names t catIDs,
                      group_names t (known_group_ids t catIDs))
                 | None => ([], [])
                 end in
               {| TechInfo.Name := technology;
                  TechInfo.Description := description;
                  TechInfo.Website := website;
                  TechInfo.CPE := cpe;
                  TechInfo.Categories := categories;
                  TechInfo.Groups := groups;
                  TechInfo.Confidence := 100;
                  TechInfo.Version := "" |})
  <$> Fingerprint_ w headers body.

End Views.

(** ** [internal/models]: the array form of the corpus *)

Module Technology.
Record t := {
  Name : string;
  Cats : list Z;
  Description : string;
  Website : string;
  CPE : string;
  Icon : string;
  Cookies : gmap string string;
  JS : option (gmap string JValue);
  Headers : gmap string string;
  HTML : JValue;
  Scripts : JValue;
  ScriptSrc : JValue;
  Meta : gmap string JValue;
  Implies : JValue;
}.
End Technology.

Section Convert.
(** [fmt.Sprintf("%v", v)] on a decoded number. *)
Variable Sprint_number : Z -> string.

(** [convertJSMap]; a [nil] map gives a [nil] map. *)
Definition convertJSMap (jsMap : option (gmap string JValue)) : gmap string string :=
  match jsMap with
  | None => ∅
  | Some jsMap =>
      map_fold (fun key value result =>
                  <[key := match value with
                           | JString v => v
                           | JBool v => if v then "true" else "false"
                           | JNumber v => Sprint_number v
                           | _ => ""
                           end]> result) ∅ jsMap
  end.

Definition ConvertToFingerprints (techs : list Technology.t) : gmap string Fingerprint :=
  foldl (fun apps tech =>
           <[Technology.Name tech :=
               {| Name := Technology.Name tech;
                  Cats := Technology.Cats tech;
                  Description := Technology.Description tech;
                  Icon := Technology.Icon tech;
                  Website := Technology.Website tech;
                  CPE := Technology.CPE tech;
                  Cookies := Technology.Cookies tech;
                  JS := convertJSMap (Technology.JS tech);
                  Headers := Technology.Headers tech;
                  HTML := Technology.HTML tech;
                  Script := Technology.Scripts tech;
                  ScriptSrc := Technology.ScriptSrc tech;
                  Meta := Technology.Meta tech;
                  Implies := Technology.Implies tech |}]> apps)
        ∅ techs.

End Convert.

(** ** The command-line tool *)

(** [parseHeaders] *)
Definition parseHeaders (headerFlags : list string) : gmap string string :=
  foldl (fun headers h =>
           match GoStrings.SplitN2 h ":" with
           | [name; value] =>
               <[GoStrings.TrimSpace name := GoStrings.TrimSpace value]> headers
           | _ => headers
           end) ∅ headerFlags.

(** [findGroupIDByName], on the table of groups; [None] is [(0, false)].
    The loop returns at the first group it meets whose name agrees. *)
Definition findGroupIDByName (t : Tables) (name : string) : option Z :=
  let nameLower := GoStrings.ToLower name in
  map_fold (fun id group found =>
              match found with
              | Some _ => found
              | None => if bool_decide (GoStrings.ToLower group = nameLower)
                        then Some id else None
              end) None (groupsMapping t).

(** ** A reference instance of [Regexp]

    A small backtracking matcher for the fragment of the RE2 syntax made of
    literals, [.], classes [[...]] with ranges and negation, the escapes
    [\d \D \s \S \w \W \b \B] and escaped punctuation, groups [(...)] and
    [(?:...)], the flags [(?i)] and [(?-i)], alternation, the anchors [^]
    and [$], and the repetitions [*], [+], [?] with their lazy forms.
    Outside the fragment (counted repetition, named groups, Unicode
    classes) [Compile] answers [None]; the instance is only run on patterns
    of the fragment and on ASCII text.  Matching is leftmost-first, the
    result Go documents for its non-POSIX matcher. *)

Module RE2.
Local Open Scope nat_scope.
Local Open Scope char_scope.

Inductive re : Type :=
| Empty
| Set_ (cs : ascii -> bool)
| Cat (a b : re)
| Alt (a b : re)
| Star (greedy : bool) (a : re)
| Group (n : nat) (a : re)
| Bol
| Eol
| WordB (neg : bool).

Fixpoint height (r : re) : nat :=
  match r with
  | Cat a b | Alt a b => S (Nat.max (height a) (height b))
  | Star _ a | Group _ a => S (height a)
  | _ => 1
  end.

(** *** Character classes *)

Definition code (c : ascii) : nat := nat_of_ascii c.
Definition between (lo hi c : ascii) : bool :=
  Nat.leb (code lo) (code c) && Nat.leb (code c) (code hi).
Definition is_d (c : ascii) : bool := between "0" "9" c.
Definition is_w (c : ascii) : bool :=
  is_d c || between "a" "z" c || between "A" "Z" c || Ascii.eqb c "_".
(** [\s] is [[\t\n\f\r ]] in RE2. *)
Definition is_s (c : ascii) : bool :=
  let n := code c in
  Nat.eqb n 9 || Nat.eqb n 10 || Nat.eqb n 12 || Nat.eqb n 13 || Nat.eqb n 32.
Definition upper_ascii (c : ascii) : ascii :=
  if between "a" "z" c then ascii_of_nat (code c - 32) else c.

(** Closure of a class under ASCII case folding, for [(?i)]. *)
Definition fold_case (ci : bool) (cs : ascii -> bool) : ascii -> bool :=
  fun c => cs c || (ci && (cs (GoStrings.lower_ascii c) || cs (upper_ascii c))).

Definition is_punct (c : ascii) : bool := negb (is_w c) && Nat.ltb (code c) 128.

(** A Perl class escape, after the backslash. *)
Definition perl_class (c : ascii) : option (ascii -> bool) :=
  if Ascii.eqb c "d" then Some is_d
  else if Ascii.eqb c "D" then Some (fun x => negb (is_d x))
  else if Ascii.eqb c "s" then Some is_s
  else if Ascii.eqb c "S" then Some (fun x => negb (is_s x))
  else if Ascii.eqb c "w" then Some is_w
  else if Ascii.eqb c "W" then Some (fun x => negb (is_w x))
  else None.

(** The items of a bracket class up to the closing bracket; [first] is
    true on the first item, where a closing bracket is a literal. *)
Fixpoint parse_class (first : bool) (acc : ascii -> bool) (s : list ascii)
  : option ((ascii -> bool) * list ascii) :=
  match s with
  | [] => None
  | c :: s1 =>
      if Ascii.eqb c "]" && negb first then Some (acc, s1)
      else if Ascii.eqb c "[" && (match s1 with ":" :: _ => true | _ => false end)
      then None
      else if Ascii.eqb c "\" then
        match s1 with
        | e :: s2 =>
            match perl_class e with
            | Some cs => parse_class false (fun x => acc x || cs x) s2
            | None =>
                if is_punct e
                then parse_class false (fun x => acc x || Ascii.eqb x e) s2
                else None
            end
        | [] => None
        end
      else
        match s1 with
        | "-" :: hi :: s3 =>
            if Ascii.eqb hi "]"
            then parse_class false (fun x => acc x || Ascii.eqb x c) s1
            else if Ascii.eqb hi "\" then None
            else if Nat.ltb (code hi) (code c) then None
            else parse_class false (fun x => acc x || between c hi x) s3
        | _ => parse_class false (fun x => acc x || Ascii.eqb x c) s1
        end
  end.

(** *** Parsing

    One pass over the pattern with a stack of open groups. *)

Record frame := {
  alts : list re;       (* finished alternatives, latest first *)
  atoms : list re;      (* atoms of the current alternative, latest first *)
  grp : option nat;     (* capture index of the group being read *)
  outer_ci : bool;      (* case flag to restore at the closing parenthesis *)
}.

Inductive last_item := NoAtom | Atom | Quantified.

Record pstate := {
  cur : frame;
  stack : list frame;
  ci : bool;
  ng : nat;
  lastq : last_item;
}.

Definition build_seq (l : list re) : re := fold_right Cat Empty (rev l).

Fixpoint alt_of (l : list re) : re :=
  match l with
  | [] => Empty
  | [a] => a
  | a :: l' => Alt a (alt_of l')
  end.

Definition close (f : frame) : re :=
  alt_of (rev (build_seq (atoms f) :: alts f)).

Definition push_atom (a : re) (p : pstate) : pstate :=
  {| cur := {| alts := alts (cur p); atoms := a :: atoms (cur p);
               grp := grp (cur p); outer_ci := outer_ci (cur p) |};
     stack := stack p; ci := ci p; ng := ng p; lastq := Atom |}.

Definition open_group (g : option nat) (p : pstate) : pstate :=
  {| cur := {| alts := []; atoms := []; grp := g; outer_ci := ci p |};
     stack := cur p :: stack p; ci := ci p;
     ng := match g with Some n => n | None => ng p end;
     lastq := NoAtom |}.

Definition set_ci (b : bool) (p : pstate) : pstate :=
  {| cur := cur p; stack := stack p; ci := b; ng := ng p; lastq := NoAtom |}.

Definition next_alt (p : pstate) : pstate :=
  {| cur := {| alts := build_seq (atoms (cur p)) :: alts (cur p); atoms := [];
               grp := grp (cur p); outer_ci := outer_ci (cur p) |};
     stack := stack p; ci := ci p; ng := ng p; lastq := NoAtom |}.

Definition close_group (p : pstate) : option pstate :=
  match stack p with
  | [] => None
  | parent :: st =>
      let r := close (cur p) in
      let r := match grp (cur p) with Some n => Group n r | None => r end in
      Some {| cur := {| alts := alts parent; atoms := r :: atoms parent;
                        grp := grp parent; outer_ci := outer_ci parent |};
              stack := st; ci := outer_ci (cur p); ng := ng p; lastq := Atom |}
  end.

Definition quantify (q : ascii) (greedy : bool) (p : pstate) : option pstate :=
  match lastq p, atoms (cur p) with
  | Atom, a :: rest =>
      let r := if Ascii.eqb q "*" then Star greedy a
               else if Ascii.eqb q "+" then Cat a (Star greedy a)
               else if greedy then Alt a Empty else Alt Empty a in
      Some {| cur := {| alts := alts (cur p); atoms := r :: rest;
                        grp := grp (cur p); outer_ci := outer_ci (cur p) |};
              stack := stack p; ci := ci p; ng := ng p; lastq := Quantified |}
  | _, _ => None
  end.

Definition literal (p : pstate) (c : ascii) : re :=
  Set_ (fold_case (ci p) (Ascii.eqb c)).

Fixpoint parse (fuel : nat) (p : pstate) (s : list ascii) : option (re * nat) :=
  match fuel with
  | O => None
  | S f =>
      match s with
      | [] => match stack p with
              | [] => Some (close (cur p), ng p)
              | _ => None
              end
      | c :: s1 =>
          if Ascii.eqb c "(" then
            match s1 with
            | "?" :: ":" :: s2 => parse f (open_group None p) s2
            | "?" :: "i" :: ")" :: s2 => parse f (set_ci true p) s2
            | "?" :: "-" :: "i" :: ")" :: s2 => parse f (set_ci false p) s2
            | "?" :: _ => None
            | _ => parse f (open_group (Some (S (ng p))) p) s1
            end
          else if Ascii.eqb c ")" then
            match close_group p with
            | Some p' => parse f p' s1
            | None => None
            end
          else if Ascii.eqb c "|" then parse f (next_alt p) s1
          else if Ascii.eqb c "*" || Ascii.eqb c "+" || Ascii.eqb c "?" then
            let '(greedy, s2) :=
              match s1 with
              | "?" :: s2 => (false, s2)
              | _ => (true, s1)
              end in
            match quantify c greedy p with
            | Some p' => parse f p' s2
            | None => None
            end
          else if Ascii.eqb c "{"
                  && (match s1 with d :: _ => is_d d | [] => false end)
          then None
          else if Ascii.eqb c "[" then
            let '(neg, s2) :=
              match s1 with
              | "^" :: s2 => (true, s2)
              | _ => (false, s1)
              end in
            match parse_class true (fun _ => false) s2 with
            | Some (cs, s3) =>
                let cs' := fold_case (ci p) cs in
                parse f (push_atom (Set_ (fun x => xorb neg (cs' x))) p) s3
            | None => None
            end
          else if Ascii.eqb c "." then
            parse f (push_atom (Set_ (fun x => negb (Nat.eqb (code x) 10))) p) s1
          else if Ascii.eqb c "^" then parse f (push_atom Bol p) s1
          else if Ascii.eqb c "$" then parse f (push_atom Eol p) s1
          else if Ascii.eqb c "\" then
            match s1 with
            | e :: s2 =>
                match perl_class e with
                | Some cs => parse f (push_atom (Set_ cs) p) s2
                | None =>
                    if Ascii.eqb e "b" then parse f (push_atom (WordB false) p) s2
                    else if Ascii.eqb e "B" then parse f (push_atom (WordB true) p) s2
                    else if is_punct e then parse f (push_atom (literal p e) p) s2
                    else None
                end
            | [] => None
            end
          else parse f (push_atom (literal p c) p) s1
      end
  end.

Record program := { prog : re; ncap : nat }.

Definition compile (src : string) : option program :=
  let s := list_ascii_of_string src in
  let init := {| cur := {| alts := []; atoms := []; grp := None; outer_ci := false |};
                 stack := []; ci := false; ng := 0; lastq := NoAtom |} in
  match parse (S (length s)) init s with
  | Some (r, n) => Some {| prog := r; ncap := n |}
  | None => None
  end.

(** *** Matching *)

Record mstate := {
  pos : nat;                          (* offset in the text *)
  prev : option ascii;                (* the byte before [pos] *)
  rest : list ascii;                  (* the text from [pos] on *)
  caps : list (nat * (nat * nat));    (* spans of the groups, latest first *)
}.

Inductive result := OutOfFuel | NoMatch | Matched (s : mstate).

Definition orelse (r : result) (other : unit -> result) : result :=
  match r with
  | NoMatch => other tt
  | _ => r
  end.

Definition at_word_boundary (s : mstate) : bool :=
  xorb (match prev s with Some c => is_w c | None => false end)
       (match rest s with c :: _ => is_w c | [] => false end).

Fixpoint run (fuel : nat) (r : re) (s : mstate) (k : mstate -> result) : result :=
  match fuel with
  | O => OutOfFuel
  | S f =>
      match r with
      | Empty => k s
      | Set_ cs =>
          match rest s with
          | c :: tl =>
              if cs c
              then k {| pos := S (pos s); prev := Some c; rest := tl; caps := caps s |}
              else NoMatch
          | [] => NoMatch
          end
      | Cat a b => run f a s (fun s' => run f b s' k)
      | Alt a b => orelse (run f a s k) (fun _ => run f b s k)
      | Star greedy a =>
          let more := fun _ : unit =>
            run f a s (fun s' => if Nat.eqb (pos s') (pos s) then NoMatch
                                 else run f (Star greedy a) s' k) in
          if greedy then orelse (more tt) (fun _ => k s)
          else orelse (k s) more
      | Group n a =>
          run f a s (fun s' => k {| pos := pos s'; prev := prev s'; rest := rest s';
                                    caps := (n, (pos s, pos s')) :: caps s' |})
      | Bol => if Nat.eqb (pos s) 0 then k s else NoMatch
      | Eol => match rest s with [] => k s | _ => NoMatch end
      | WordB neg => if xorb neg (at_word_boundary s) then k s else NoMatch
      end
  end.

Inductive found := SearchOutOfFuel | NotFound | FoundAt (start : nat) (s : mstate).

(** The leftmost match at or after the current offset. *)
Fixpoint search (fuel : nat) (r : re) (p : nat) (pr : option ascii)
    (text : list ascii) : found :=
  match run fuel r {| pos := p; prev := pr; rest := text; caps := [] |} Matched with
  | Matched s' => FoundAt p s'
  | OutOfFuel => SearchOutOfFuel
  | NoMatch =>
      match text with
      | [] => NotFound
      | c :: tl => search fuel r (S p) (Some c) tl
      end
  end.

Definition fuel_for (r : re) (text : list ascii) : nat :=
  2 * (height r + length text) + 2.

Definition exec (p : program) (text : list ascii) (from : nat) : found :=
  search (fuel_for (prog p) text) (prog p) from
    (match from with O => None | S i => nth_error text i end)
    (skipn from text).

Definition slice (text : list ascii) (a b : nat) : string :=
  string_of_list_ascii (firstn (b - a) (skipn a text)).

Definition group_text (text : list ascii) (s : mstate) (n : nat) : string :=
  match List.find (fun e => Nat.eqb (fst e) n) (caps s) with
  | Some (_, (a, b)) => slice text a b
  | None => EmptyString
  end.

Definition submatches (p : program) (text : list ascii) (start : nat) (s : mstate)
  : list string :=
  slice text start (pos s) :: List.map (group_text text s) (List.seq 1 (ncap p)).

(** The loop of [FindAll...]: matches that do not overlap; an empty match
    right after the previous match is dropped. *)
Fixpoint all_matches (n : nat) (p : program) (text : list ascii)
    (from : nat) (prevEnd : option nat) : list (list string) :=
  match n with
  | O => []
  | S n' =>
      if Nat.ltb (length text) from then []
      else match exec p text from with
           | FoundAt start s =>
               let empty_here := Nat.eqb (pos s) from in
               let accept := negb (empty_here && bool_decide (Some start = prevEnd)) in
               let from' := if empty_here then S from else pos s in
               let tl := all_matches n' p text from' (Some (pos s)) in
               if accept then submatches p text start s :: tl else tl
           | _ => []
           end
  end.

(** The offset and the text still to read add up to the length [n] of the
    whole text. *)
Definition state_within (n : nat) (s : mstate) : Prop :=
  pos s + length (rest s) = n.

Definition never : program := {| prog := Set_ (fun _ => false); ncap := 0 |}.

Definition engine : Regexp := {|
  regex := program;
  Compile := compile;
  MustCompile := fun src => default never (compile src);
  MatchString := fun p s =>
    match exec p (list_ascii_of_string s) 0 with
    | FoundAt _ _ => true
    | _ => false
    end;
  FindStringSubmatch := fun p s =>
    let text := list_ascii_of_string s in
    match exec p text 0 with
    | FoundAt start st => submatches p text start st
    | _ => []
    end;
  FindAllSubmatch := fun p s =>
    let text := list_ascii_of_string s in
    all_matches (length text + 2) p text 0 None;
|}.

End RE2.

(** ** Notions of the specification *)

(** The regex metacharacters of the specification. *)
Definition metachars : list ascii :=
  ["\"; "^"; "$"; "."; "|"; "?"; "*"; "+"; "("; "["; "{"]%char.

(** "The text contains one of the regex metacharacters." *)
Definition has_metachar (text : string) : Prop :=
  exists c, c ∈ metachars /\ c ∈ list_ascii_of_string text.

(** The directive suffix of a raw pattern: what [cleanPatternString] cuts
    off, [pattern[index:]] for the first separator at an [index > 0]. *)
Definition directive_suffix (pattern : string) : string :=
  let index := GoStrings.Index pattern "\;" in
  if 0 <? index then GoStrings.drop_str (Z.to_nat index) pattern else "".

(** "The set is closed under the implies relation." *)
Definition closed_under (implies : gmap string (list string))
    (technologies : gset string) : Prop :=
  forall tech implied name,
    tech ∈ technologies -> implies !! tech = Some implied -> name ∈ implied ->
    name ∈ technologies.

(** ** Sample inputs *)

Definition emptyFingerprint : Fingerprint :=
  {| Cats := []; Description := ""; Icon := ""; Website := ""; CPE := "";
     Cookies := ∅; JS := ∅; Headers := ∅; HTML := JNull; Script := JNull;
     ScriptSrc := JNull; Meta := ∅; Implies := JNull; Name := "" |}.

(** A corpus of one technology with one pattern in each keyed channel. *)
Definition keyedCorpus : gmap string Fingerprint :=
  {[ "jQuery" :=
       {| Cats := [59]; Description := ""; Icon := ""; Website := ""; CPE := "";
          Cookies := {[ "PHPSESSID" := "" ]};
          JS := {[ "jQuery" := "x" ]};
          Headers := {[ "X-Powered-By" := "jq" ]};
          HTML := JNull; Script := JNull; ScriptSrc := JNull;
          Meta := {[ "Generator" := JString "jq" ]};
          Implies := JNull; Name := "jQuery" |} ]}.

(** A corpus with one technology recognised by a header and one recognised
    by a cookie. *)
Definition sessionCorpus : gmap string Fingerprint :=
  {[ "Foo" :=
       {| Cats := [10]; Description := ""; Icon := ""; Website := ""; CPE := "";
          Cookies := ∅; JS := ∅; Headers := {[ "X-Powered-By" := "Foo" ]};
          HTML := JNull; Script := JNull; ScriptSrc := JNull; Meta := ∅;
          Implies := JArray [JString "Bar"]; Name := "Foo" |};
     "Bar" :=
       {| Cats := [20]; Description := ""; Icon := ""; Website := ""; CPE := "";
          Cookies := ∅; JS := ∅; Headers := ∅;
          HTML := JNull; Script := JNull; ScriptSrc := JNull; Meta := ∅;
          Implies := JNull; Name := "Bar" |};
     "Sess" :=
       {| Cats := [10]; Description := ""; Icon := ""; Website := ""; CPE := "";
          Cookies := {[ "session" := ".+" ]}; JS := ∅; Headers := ∅;
          HTML := JNull; Script := JNull; ScriptSrc := JNull; Meta := ∅;
          Implies := JNull; Name := "Sess" |} ]}.

Definition sampleTables : Tables :=
  {| categoriesMapping :=
       {[ 10 := {| CategoryName := "Group10Cat"; Priority := 1; Groups := [1] |};
          20 := {| CategoryName := "Group20Cat"; Priority := 1; Groups := [1; 2] |} ]};
     groupsMapping := {[ 1 := "Servers"; 2 := "Add-ons" ]};
     categoryToGroups := {[ 10 := [1]; 20 := [1; 2] ]};
     groupCategories := {[ 1 := [10; 20]; 2 := [20] ]} |}.

(** A corpus in which [A] implies [B] and [B] implies [A]. *)
Definition cycleCorpus : gmap string Fingerprint :=
  {[ "A" :=
       {| Cats := []; Description := ""; Icon := ""; Website := ""; CPE := "";
          Cookies := ∅; JS := ∅; Headers := ∅;
          HTML := JNull; Script := JNull; ScriptSrc := JNull; Meta := ∅;
          Implies := JString "B"; Name := "A" |};
     "B" :=
       {| Cats := []; Description := ""; Icon := ""; Website := ""; CPE := "";
          Cookies := ∅; JS := ∅; Headers := ∅;
          HTML := JNull; Script := JNull; ScriptSrc := JNull; Meta := ∅;
          Implies := JArray [JString "A"]; Name := "B" |} ]}.

(** * Properties *)

(** ** The loops over maps *)

Section RangeLemmas.
Context {A : Type}.

Lemma range_any_true (test : string -> A -> bool) (m : gmap string A) :
  range_any test m = true <-> exists k v, m !! k = Some v /\ test k v = true.
Proof.
  unfold range_any.
  apply (map_fold_weak_ind
           (fun r m => r = true <-> exists k v, m !! k = Some v /\ test k v = true)).
  - split; [discriminate|]. intros (k & v & Hk & _).
    rewrite lookup_empty in Hk. discriminate.
  - intros i x m' r Hi IH. split.
    + destruct r.
      * intros _. destruct (proj1 IH eq_refl) as (k & v & Hk & Ht).
        exists k, v. split; [|exact Ht].
        rewrite lookup_insert_ne; [exact Hk|]. intros ->. congruence.
      * intros Ht. exists i, x. split; [apply lookup_insert_eq|exact Ht].
    + intros (k & v & Hk & Ht). destruct r; [reflexivity|].
      destruct (decide (i = k)) as [->|Hne].
      * rewrite lookup_insert_eq in Hk. congruence.
      * rewrite lookup_insert_ne in Hk by exact Hne.
        assert (false = true) by (apply IH; eauto). discriminate.
Qed.

Lemma range_any_false (test : string -> A -> bool) (m : gmap string A) :
  (forall k v, m !! k = Some v -> test k v = false) -> range_any test m = false.
Proof.
  intros H. destruct (range_any test m) eqn:E; [|reflexivity].
  apply range_any_true in E as (k & v & Hk & Ht).
  rewrite (H k v Hk) in Ht. discriminate.
Qed.

Lemma elem_of_range_add (hit : A -> bool) (patterns : gmap string A)
    (technologies : gset string) (tech : string) :
  tech ∈ range_add hit patterns technologies <->
  tech ∈ technologies \/ exists v, patterns !! tech = Some v /\ hit v = true.
Proof.
  unfold range_add.
  apply (map_fold_weak_ind
           (fun r m => tech ∈ r <->
              tech ∈ technologies \/ exists v, m !! tech = Some v /\ hit v = true)).
  - split; [auto|]. intros [H|(v & Hv & _)]; [exact H|].
    rewrite lookup_empty in Hv. discriminate.
  - intros i x m r Hi IH.
    destruct (decide (i = tech)) as [->|Hne].
    + rewrite lookup_insert_eq. destruct (hit x) eqn:Hx.
      * split; intros _; [right; eauto|].
        apply elem_of_union. left. apply elem_of_singleton. reflexivity.
      * rewrite IH. split; (intros [H|(v & Hv & Hh)]; [auto|]); [|congruence].
        congruence.
    + rewrite lookup_insert_ne by exact Hne. destruct (hit x); [|exact IH].
      rewrite elem_of_union, elem_of_singleton, IH. intuition congruence.
Qed.

(** A matcher only adds to the accumulator: its result is the accumulator
    together with what it finds from the empty one. *)
Lemma range_add_union (hit : A -> bool) (patterns : gmap string A)
    (technologies : gset string) :
  range_add hit patterns technologies = technologies ∪ range_add hit patterns ∅.
Proof.
  apply set_eq. intros tech.
  rewrite elem_of_union, !elem_of_range_add. pose proof (not_elem_of_empty (C:=gset string) tech). tauto.
Qed.

Lemma range_add_none (hit : A -> bool) (patterns : gmap string A)
    (technologies : gset string) :
  (forall tech v, patterns !! tech = Some v -> hit v = false) ->
  range_add hit patterns technologies = technologies.
Proof.
  intros H. apply set_eq. intros tech. rewrite elem_of_range_add.
  split; [|auto]. intros [Ht|(v & Hv & Hh)]; [exact Ht|].
  rewrite (H _ _ Hv) in Hh. discriminate.
Qed.

Lemma normalize_keys_empty : normalize_keys (∅ : gmap string A) = ∅.
Proof. unfold normalize_keys. apply map_fold_empty. Qed.

End RangeLemmas.

(** ** The pattern interpreter *)

Section ParserLemmas.
Context `{RE : Regexp}.
Import GoStrings.

(** What an accepted pattern looks like, field by field. *)
Lemma ParsePattern_Some (p : string) (pp : ParsedPattern) :
  ParsePattern p = Some pp ->
  IsLiteral pp = negb (isRegexPattern p)
  /\ IsCaseSensitive pp = isCaseSensitive p
  /\ Pattern pp = (if isRegexPattern p then cleanPatternString p else p)
  /\ (isRegexPattern p = true -> is_Some (CompileRegex (cleanPatternString p)))
  /\ Version pp = fst (extractVersionInfo p)
  /\ Confidence pp = (if bool_decide (fst (extractVersionInfo p) <> "")
                      then snd (extractVersionInfo p) else 100).
Proof.
  unfold ParsePattern. destruct (extractVersionInfo p) as [v c]. simpl.
  destruct (bool_decide (v <> "")) eqn:Hv; simpl;
    destruct (isRegexPattern p); simpl;
    try destruct (CompileRegex (cleanPatternString p)) eqn:Hc;
    intros H; inversion H; subst; clear H; simpl;
    repeat split; eauto; try discriminate;
    try (apply bool_decide_eq_false in Hv;
         destruct (decide (v = "")) as [->|]; [reflexivity|contradiction]).
Qed.

(** A literal pattern is always accepted. *)
Lemma ParsePattern_literal (p : string) :
  isRegexPattern p = false -> is_Some (ParsePattern p).
Proof.
  intros H. unfold ParsePattern. destruct (extractVersionInfo p) as [v c].
  destruct (bool_decide (v <> "")); simpl; rewrite H; simpl; eauto.
Qed.

(** The cache of [CompileRegex] does not change its answers. *)
Lemma CompileRegex_cached_coherent (cache : gmap string regex) (p : string) :
  cache_coherent cache ->
  fst (CompileRegex_cached cache p) = CompileRegex p
  /\ cache_coherent (snd (CompileRegex_cached cache p)).
Proof.
  intros Hc. unfold CompileRegex_cached.
  destruct (cache !! p) as [r|] eqn:Hp; simpl.
  - split; [symmetry; apply Hc; exact Hp|exact Hc].
  - unfold CompileRegex at 1.
    destruct (Compile (normalizePattern p)) as [r|] eqn:Hr; simpl;
      (split; [reflexivity|]); [|exact Hc].
    intros p' r'. destruct (decide (p = p')) as [<-|Hne].
    + rewrite lookup_insert_eq. intros [= <-]. exact Hr.
    + rewrite lookup_insert_ne by exact Hne. apply Hc.
Qed.

(** The regex branch of [EvaluatePattern] gives the empty version with
    every negative verdict; the literal branch gives the version of the
    pattern with every verdict. *)
Lemma EvaluatePattern_regex_no_match (pp : ParsedPattern) (target v : string) :
  IsLiteral pp = false -> EvaluatePattern pp target = (false, v) -> v = "".
Proof.
  unfold EvaluatePattern. intros ->.
  destruct (CompileRegex (Pattern pp)); [|congruence].
  destruct (MatchString _ _); congruence.
Qed.

Lemma EvaluatePattern_literal_version (pp : ParsedPattern) (target : string) :
  IsLiteral pp = true -> snd (EvaluatePattern pp target) = Version pp.
Proof.
  unfold EvaluatePattern. intros ->. destruct (IsCaseSensitive pp); reflexivity.
Qed.

(** The confidence of an accepted pattern is one of the three constants
    of the source: the number of a [confidence:] directive never reaches
    the result. *)
Lemma ParsePattern_Confidence (p : string) (pp : ParsedPattern) :
  ParsePattern p = Some pp ->
  (Version pp = "" /\ Confidence pp = 100)
  \/ (Version pp <> "" /\ (Confidence pp = 80 \/ Confidence pp = 70)).
Proof.
  intros H. apply ParsePattern_Some in H as (_ & _ & _ & _ & Hv & Hc).
  destruct (bool_decide (fst (extractVersionInfo p) <> "")) eqn:Hb.
  - apply bool_decide_eq_true in Hb. right. split; [congruence|].
    rewrite Hc. revert Hb. unfold extractVersionInfo.
    destruct (1 <? _).
    + destruct (directive _) as [[v c]|] eqn:Hd.
      * simpl. intros Hv'. clear Hc Hv.
        revert Hd. generalize (tail (Split p "\;")). intros l.
        induction l as [|part rest IH]; simpl; [discriminate|].
        destruct (HasPrefix part "version:"); [intros [= <- <-]; auto|].
        destruct (HasPrefix part "confidence:"); [|exact IH].
        intros [= <- <-]. contradiction.
      * destruct (firstVersion _ _); simpl; auto. contradiction.
    + destruct (firstVersion _ _); simpl; auto. contradiction.
  - apply bool_decide_eq_false in Hb. left. split; [|exact Hc].
    rewrite Hv. destruct (decide (fst (extractVersionInfo p) = "")); tauto.
Qed.

End ParserLemmas.

(** ** Classification of patterns *)

Section Classification.
Import GoStrings.

Lemma prefix_empty (s : string) : String.prefix "" s = true.
Proof. destruct s; reflexivity. Qed.

Lemma Contains_char (s : string) (c : ascii) :
  Contains s (String c "") = true <-> c ∈ list_ascii_of_string s.
Proof.
  induction s as [|a s IH]; simpl.
  - split; [discriminate|]. intros H. inversion H.
  - rewrite elem_of_cons, <- IH, orb_true_iff.
    destruct (ascii_dec c a) as [->|Hne].
    + rewrite prefix_empty. tauto.
    + split; [intros [H|H]; [discriminate|auto]|].
      intros [H|H]; [contradiction|auto].
Qed.

Lemma contains_special_spec (p : string) :
  existsb (fun char => Contains p char) specialChars = true <-> has_metachar p.
Proof.
  unfold has_metachar, specialChars, metachars. simpl.
  rewrite !orb_true_iff, !Contains_char. split.
  - intros H.
    repeat (destruct H as [H|H];
            [eexists; split; [|exact H]; repeat constructor|]).
    discriminate.
  - intros (c & Hc & Hin).
    repeat (apply elem_of_cons in Hc as [->|Hc]; [tauto|]).
    inversion Hc.
Qed.

Lemma isRegexPattern_spec (p : string) :
  isRegexPattern p = true <-> has_metachar p \/ slash_wrapped p = true.
Proof.
  unfold isRegexPattern. rewrite orb_true_iff, contains_special_spec. tauto.
Qed.

Lemma isRegexPattern_false (p : string) :
  isRegexPattern p = false <-> ~ has_metachar p /\ slash_wrapped p = false.
Proof.
  rewrite <- not_true_iff_false, isRegexPattern_spec.
  destruct (slash_wrapped p); intuition congruence.
Qed.

(** A text in which [substr] occurs contains the first byte of [substr]. *)
Lemma Index_first_byte (s : string) (c : ascii) (r : string) :
  0 <= Index s (String c r) -> c ∈ list_ascii_of_string s.
Proof.
  induction s as [|a s IH]; simpl; [lia|].
  destruct (ascii_dec c a) as [->|Hne].
  - intros _. apply elem_of_cons. auto.
  - destruct (Index s (String c r) <? 0) eqn:E; [lia|].
    intros _. apply elem_of_cons. right. apply IH. lia.
Qed.

Lemma separator_is_metachar (p : string) :
  0 <= Index p "\;" -> has_metachar p.
Proof.
  intros H. exists "\"%char. split; [repeat constructor|].
  exact (Index_first_byte _ _ _ H).
Qed.

(** Cleaning does nothing to the patterns classified as literal. *)
Lemma cleanPatternString_literal (p : string) :
  isRegexPattern p = false -> cleanPatternString p = p.
Proof.
  intros H. apply isRegexPattern_false in H as [Hm Hw].
  unfold cleanPatternString.
  destruct (0 <? Index p "\;") eqn:E.
  - exfalso. apply Hm, separator_is_metachar. lia.
  - unfold strip_slashes. rewrite Hw. reflexivity.
Qed.

(** *** Occurrences of a text in a pattern and in its cleaned text *)

Lemma append_cons (a : ascii) (s t : string) :
  String a s +:+ t = String a (s +:+ t).
Proof. reflexivity. Qed.

Lemma append_nil (t : string) : "" +:+ t = t.
Proof. reflexivity. Qed.

(** A text that does not contain the byte [c] is a prefix of [w ++ c..]
    only if it is a prefix of [w]. *)
Lemma prefix_app_fresh (c : ascii) (m w rest : string) :
  c ∉ list_ascii_of_string m ->
  String.prefix m (w +:+ String c rest) = String.prefix m w.
Proof.
  revert w. induction m as [|a m IH]; intros w Hc;
    [rewrite !prefix_empty; reflexivity|].
  simpl in Hc. apply not_elem_of_cons in Hc as [Hne Hc].
  destruct w as [|b w].
  - rewrite append_nil. simpl. destruct (ascii_dec a c); congruence.
  - rewrite append_cons. simpl. destruct (ascii_dec a b); [|reflexivity].
    apply IH, Hc.
Qed.

Lemma Contains_app_fresh (c : ascii) (m w rest : string) :
  c ∉ list_ascii_of_string m ->
  Contains (w +:+ String c rest) m
  = Contains w m || Contains (String c rest) m.
Proof.
  intros Hc. induction w as [|b w IH].
  - rewrite append_nil. destruct m; reflexivity.
  - rewrite append_cons.
    change (Contains (String b (w +:+ String c rest)) m)
      with (String.prefix m (String b (w +:+ String c rest))
            || Contains (w +:+ String c rest) m).
    rewrite <- append_cons, prefix_app_fresh by exact Hc.
    rewrite IH. simpl. rewrite orb_assoc. reflexivity.
Qed.

Lemma take_drop_str (n : nat) (s : string) :
  take_str n s +:+ drop_str n s = s.
Proof.
  revert s. induction n as [|n IH]; intros [|a s]; try reflexivity.
  simpl. rewrite append_cons, IH. reflexivity.
Qed.

Lemma Index_nil (m : string) :
  Index "" m = if String.prefix m "" then 0 else -1.
Proof. reflexivity. Qed.

Lemma Index_cons (a : ascii) (s m : string) :
  Index (String a s) m
  = if String.prefix m (String a s) then 0
    else if Index s m <? 0 then -1 else Index s m + 1.
Proof. reflexivity. Qed.

Lemma Contains_nil (m : string) : Contains "" m = String.prefix m "".
Proof. simpl. apply orb_false_r. Qed.

Lemma Contains_cons (a : ascii) (s m : string) :
  Contains (String a s) m = String.prefix m (String a s) || Contains s m.
Proof. reflexivity. Qed.

Lemma Index_lower_bound (s m : string) : -1 <= Index s m.
Proof.
  induction s as [|a s IH].
  - rewrite Index_nil. destruct (String.prefix m ""); lia.
  - rewrite Index_cons. destruct (String.prefix m (String a s)); [lia|].
    destruct (Z.ltb_spec (Index s m) 0); lia.
Qed.

Lemma Index_negative (s m : string) :
  Index s m < 0 <-> Contains s m = false.
Proof.
  induction s as [|a s IH].
  - rewrite Index_nil, Contains_nil.
    destruct (String.prefix m ""); split; (lia || congruence).
  - rewrite Index_cons, Contains_cons.
    destruct (String.prefix m (String a s)); simpl; [split; (lia || congruence)|].
    rewrite <- IH. pose proof (Index_lower_bound s m).
    destruct (Z.ltb_spec (Index s m) 0); lia.
Qed.

Lemma Index_cons_succ (a : ascii) (s m : string) :
  0 < Index (String a s) m ->
  0 <= Index s m /\ Index (String a s) m = Index s m + 1
  /\ String.prefix m (String a s) = false.
Proof.
  rewrite Index_cons.
  destruct (String.prefix m (String a s)); [lia|].
  destruct (Z.ltb_spec (Index s m) 0); lia.
Qed.

Lemma Index_zero (s m : string) :
  Index s m = 0 -> String.prefix m s = true.
Proof.
  destruct s as [|a s]; [rewrite Index_nil|rewrite Index_cons];
    destruct (String.prefix m _); try lia; auto.
  pose proof (Index_lower_bound s m).
  destruct (Z.ltb_spec (Index s m) 0); lia.
Qed.

(** The text at the offset [Index] starts with the text looked for. *)
Lemma Index_drop_prefix (s m : string) :
  0 <= Index s m ->
  String.prefix m (drop_str (Z.to_nat (Index s m)) s) = true.
Proof.
  induction s as [|a s IH]; intros H.
  - rewrite Index_nil in *. destruct (String.prefix m "") eqn:E; [exact E|lia].
  - destruct (Z.eq_dec (Index (String a s) m) 0) as [E|E].
    + rewrite E. apply Index_zero, E.
    + destruct (Index_cons_succ a s m ltac:(lia)) as (H0 & -> & _).
      replace (Z.to_nat (Index s m + 1)) with (S (Z.to_nat (Index s m))) by lia.
      simpl. apply IH, H0.
Qed.

Lemma prefix_take (m : string) (n : nat) (s : string) :
  String.prefix m (take_str n s) = true -> String.prefix m s = true.
Proof.
  revert n s. induction m as [|a m IH]; intros n s; [destruct s; reflexivity|].
  destruct n as [|n], s as [|b s]; simpl; try discriminate.
  destruct (ascii_dec a b); [apply IH|discriminate].
Qed.

(** Nothing occurs before its first occurrence. *)
Lemma Contains_before_Index (s m : string) :
  m <> "" -> 0 <= Index s m ->
  Contains (take_str (Z.to_nat (Index s m)) s) m = false.
Proof.
  intros Hm. induction s as [|a s IH]; intros H.
  - replace (take_str _ "") with "" by (destruct (Z.to_nat _); reflexivity).
    rewrite Contains_nil. destruct m; [congruence|reflexivity].
  - destruct (Z.eq_dec (Index (String a s) m) 0) as [E|E].
    + rewrite E. change (take_str (Z.to_nat 0) (String a s)) with "".
      rewrite Contains_nil. destruct m; [congruence|reflexivity].
    + destruct (Index_cons_succ a s m ltac:(lia)) as (H0 & -> & Hp).
      replace (Z.to_nat (Index s m + 1)) with (S (Z.to_nat (Index s m))) by lia.
      change (take_str (S (Z.to_nat (Index s m))) (String a s))
        with (String a (take_str (Z.to_nat (Index s m)) s)).
      change (Contains (String a ?t) m)
        with (String.prefix m (String a t) || Contains t m).
      rewrite (IH H0), orb_false_r.
      destruct (String.prefix m (String a (take_str _ s))) eqn:E'; [|reflexivity].
      apply (prefix_take m (S (Z.to_nat (Index s m))) (String a s)) in E'.
      congruence.
Qed.

Lemma Contains_empty (s : string) : Contains s "" = true.
Proof. destruct s; reflexivity. Qed.

Lemma Contains_take (n : nat) (s m : string) :
  Contains (take_str n s) m = true -> Contains s m = true.
Proof.
  revert n. induction s as [|a s IH]; intros n.
  - replace (take_str n "") with "" by (destruct n; reflexivity). tauto.
  - destruct n as [|n].
    + change (take_str 0 (String a s)) with "". rewrite Contains_nil.
      destruct m; [|discriminate]. intros _. apply Contains_empty.
    + change (take_str (S n) (String a s)) with (String a (take_str n s)).
      rewrite !Contains_cons, !orb_true_iff. intros [H|H].
      * left. exact (prefix_take m (S n) (String a s) H).
      * right. exact (IH _ H).
Qed.

Lemma Contains_drop (n : nat) (s m : string) :
  Contains (drop_str n s) m = true -> Contains s m = true.
Proof.
  revert s. induction n as [|n IH]; intros [|a s]; try tauto.
  change (drop_str (S n) (String a s)) with (drop_str n s).
  intros H. apply IH in H. rewrite Contains_cons, H. apply orb_true_r.
Qed.

(** A text wrapped in delimiters is [/], an inner text, [/]; the inner
    text is what [strip_slashes] keeps. *)
Lemma get_last (s : string) (c : ascii) :
  String.get (Nat.pred (String.length s)) s = Some c ->
  s = take_str (Nat.pred (String.length s)) s +:+ String c "".
Proof.
  induction s as [|a s IH]; [discriminate|].
  destruct s as [|b s].
  - simpl. intros [= ->]. reflexivity.
  - intros H. specialize (IH H).
    change (take_str (Nat.pred (String.length (String a (String b s))))
              (String a (String b s)))
      with (String a (take_str (Nat.pred (String.length (String b s)))
                               (String b s))).
    rewrite append_cons, <- IH. reflexivity.
Qed.

Lemma slash_wrapped_shape (p : string) :
  slash_wrapped p = true ->
  p = String "/" (strip_slashes p +:+ "/").
Proof.
  intros H. unfold strip_slashes. rewrite H. revert H. unfold slash_wrapped.
  rewrite !andb_true_iff, !bool_decide_eq_true.
  unfold len, first_byte, last_byte. intros [[Hl Hf] Hlast].
  apply Z.ltb_lt in Hl.
  destruct p as [|a [|b p]]; simpl in Hl; try lia.
  simpl in Hf. injection Hf as ->.
  apply (get_last (String b p)) in Hlast.
  change (drop_str 1 (String "/" (String b p))) with (String b p).
  replace (String.length (String "/" (String b p)) - 2)%nat
    with (Nat.pred (String.length (String b p))) by (simpl; lia).
  f_equal. exact Hlast.
Qed.

(** Removing the delimiters removes no occurrence of a text without [/]. *)
Lemma Contains_strip_slashes (p m : string) :
  m <> "" -> "/"%char ∉ list_ascii_of_string m ->
  Contains (strip_slashes p) m = Contains p m.
Proof.
  intros Hm Hs. destruct (slash_wrapped p) eqn:Hw.
  - rewrite (slash_wrapped_shape p Hw) at 2.
    destruct m as [|a m]; [congruence|].
    simpl in Hs. apply not_elem_of_cons in Hs as [Hne Hs'].
    change (Contains (String "/" ?t) (String a m))
      with (String.prefix (String a m) (String "/" t) || Contains t (String a m)).
    replace (String.prefix (String a m) (String "/" (strip_slashes p +:+ "/")))
      with false by (simpl; destruct (ascii_dec a "/"); congruence).
    rewrite Contains_app_fresh
      by (simpl; apply not_elem_of_cons; split; assumption).
    simpl. destruct (ascii_dec a "/"); [congruence|].
    rewrite !orb_false_r. reflexivity.
  - unfold strip_slashes. rewrite Hw. reflexivity.
Qed.

Lemma Contains_strip_slashes_mono (p m : string) :
  Contains (strip_slashes p) m = true -> Contains p m = true.
Proof.
  unfold strip_slashes. destruct (slash_wrapped p); [|tauto].
  intros H. apply Contains_take, Contains_drop in H. exact H.
Qed.

(** An occurrence of a text without backslash in a raw pattern lies in
    the cleaned text or in the directive suffix. *)
Lemma Contains_cleanPatternString (p m : string) :
  m <> "" -> "/"%char ∉ list_ascii_of_string m ->
  "\"%char ∉ list_ascii_of_string m ->
  Contains p m
  = Contains (cleanPatternString p) m || Contains (directive_suffix p) m.
Proof.
  intros Hm Hs Hb. unfold cleanPatternString, directive_suffix.
  rewrite Contains_strip_slashes by assumption.
  destruct (Z.ltb_spec 0 (Index p "\;")) as [Hi|Hi].
  - pose proof (Index_drop_prefix p "\;" ltac:(lia)) as Hp.
    rewrite <- (take_drop_str (Z.to_nat (Index p "\;")) p) at 1.
    destruct (drop_str (Z.to_nat (Index p "\;")) p) as [|c rest] eqn:Hd.
    { vm_compute in Hp. discriminate. }
    change (String.prefix "\;" (String c rest))
      with (if ascii_dec "\" c then String.prefix ";" rest else false) in Hp.
    destruct (ascii_dec "\" c) as [<-|]; [|discriminate].
    apply Contains_app_fresh, Hb.
  - destruct m; [congruence|]. simpl. rewrite orb_false_r. reflexivity.
Qed.

(** The cleaned text has no directive separator after its first byte. *)
Lemma Index_cleanPatternString (p : string) :
  Index (cleanPatternString p) "\;" <= 0.
Proof.
  unfold cleanPatternString.
  assert (forall x, Contains x "\;" = false ->
                    Index (strip_slashes x) "\;" <= 0) as Hno.
  { intros x Hx. enough (Index (strip_slashes x) "\;" < 0) by lia.
    apply Index_negative.
    destruct (Contains (strip_slashes x) "\;") eqn:E; [|reflexivity].
    apply Contains_strip_slashes_mono in E. congruence. }
  destruct (Z.ltb_spec 0 (Index p "\;")) as [Hi|Hi].
  - apply Hno, Contains_before_Index; [discriminate|lia].
  - destruct (Z.eq_dec (Index p "\;") 0) as [E|E].
    + pose proof (Index_zero _ _ E) as Hp.
      assert (slash_wrapped p = false) as Hw.
      { destruct p as [|c p]; [reflexivity|].
        change (String.prefix "\;" (String c p))
          with (if ascii_dec "\" c then String.prefix ";" p else false) in Hp.
        destruct (ascii_dec "\" c) as [<-|]; [|discriminate].
        unfold slash_wrapped. simpl.
        rewrite andb_false_r. reflexivity. }
      unfold strip_slashes. rewrite Hw. lia.
    + apply Hno, Index_negative. lia.
Qed.

Lemma cleanPatternString_again (p : string) :
  slash_wrapped (cleanPatternString p) = false ->
  cleanPatternString (cleanPatternString p) = cleanPatternString p.
Proof.
  intros Hw. pose proof (Index_cleanPatternString p) as Hi.
  unfold cleanPatternString at 1.
  destruct (Z.ltb_spec 0 (Index (cleanPatternString p) "\;")); [lia|].
  unfold strip_slashes. rewrite Hw. reflexivity.
Qed.

End Classification.

Section ClassificationClaims.
Context `{RE : Regexp}.
Import GoStrings.

(** C5 (amended).  Parse classifies a pattern as literal if and only if
    the raw pattern text, directive suffix included, contains none of the
    regex metacharacters and is not wrapped in [/.../] delimiters; a
    pattern that contains the directive separator is therefore always
    classified as a regex. *)
Theorem literal_iff_raw_text_plain (P : string) (pp : ParsedPattern) :
  ParsePattern P = Some pp ->
  (IsLiteral pp = true <-> ~ has_metachar P /\ slash_wrapped P = false)
  /\ (0 <= Index P "\;" -> IsLiteral pp = false).
Proof.
  intros H. apply ParsePattern_Some in H as (Hl & _).
  rewrite Hl, negb_true_iff, negb_false_iff. split.
  - apply isRegexPattern_false.
  - intros Hi. apply isRegexPattern_spec. left.
    apply separator_is_metachar, Hi.
Qed.

Lemma ParsePattern_accepted (p : string) :
  (isRegexPattern p = true -> is_Some (CompileRegex (cleanPatternString p))) ->
  is_Some (ParsePattern p).
Proof.
  intros H. unfold ParsePattern. destruct (extractVersionInfo p) as [v c].
  destruct (isRegexPattern p) eqn:Hr.
  - destruct (H eq_refl) as [r Hc].
    destruct (bool_decide (v <> "")); simpl; rewrite Hc; eauto.
  - destruct (bool_decide (v <> "")); simpl; eauto.
Qed.

(** The case markers of the directive suffix are the only ones cleaning
    removes. *)
Lemma isCaseSensitive_cleanPatternString (p : string) :
  Contains (directive_suffix p) "(?-i)" = false ->
  Contains (directive_suffix p) "(?i)" = false ->
  isCaseSensitive (cleanPatternString p) = isCaseSensitive p.
Proof.
  intros H1 H2. unfold isCaseSensitive.
  rewrite (Contains_cleanPatternString p "(?-i)"),
          (Contains_cleanPatternString p "(?i)"), H1, H2, !orb_false_r;
    try discriminate; try reflexivity;
    intros H; repeat (apply elem_of_cons in H as [H|H]; [discriminate|]);
    inversion H.
Qed.

(** C6 (amended).  Let [P] be a raw pattern that Parse accepts and [Q] the
    pattern text stored in its parsed pattern.  Parsing [Q] is accepted
    whenever [P] is classified as literal or [Q] is not itself wrapped in
    [/.../] delimiters.  Whenever parsing [Q] is accepted, it yields the
    same literal/regex flag as [P] if and only if [P] is classified as
    literal, or [Q] still contains a regex metacharacter, or [Q] is still
    wrapped in delimiters; and it yields the same case-sensitivity flag
    whenever neither case marker [(?-i)], [(?i)] occurs in the directive
    suffix of [P]. *)
Theorem reparse_stored_pattern_flags (P : string) (pp : ParsedPattern) :
  ParsePattern P = Some pp ->
  ((IsLiteral pp = true \/ slash_wrapped (Pattern pp) = false) ->
   exists pp' : ParsedPattern, ParsePattern (Pattern pp) = Some pp')
  /\ (forall pp' : ParsedPattern,
        ParsePattern (Pattern pp) = Some pp' ->
        (IsLiteral pp' = IsLiteral pp <->
           IsLiteral pp = true \/ has_metachar (Pattern pp)
           \/ slash_wrapped (Pattern pp) = true)
        /\ (Contains (directive_suffix P) "(?-i)" = false ->
            Contains (directive_suffix P) "(?i)" = false ->
            IsCaseSensitive pp' = IsCaseSensitive pp)).
Proof.
  intros H.
  pose proof (ParsePattern_Some _ _ H) as (Hl & Hcs & Hp & Hc & _).
  destruct (isRegexPattern P) eqn:Hr; simpl in Hl.
  - (* a regex: the stored text is the cleaned text *)
    split.
    + intros [Hlit|Hw]; [congruence|]. rewrite Hp in *.
      apply ParsePattern_accepted. intros _.
      rewrite (cleanPatternString_again P Hw). apply Hc. reflexivity.
    + intros pp' H'.
      pose proof (ParsePattern_Some _ _ H') as (Hl' & Hcs' & _).
      rewrite Hl, Hl', Hcs, Hcs', Hp. split.
      * rewrite negb_false_iff, isRegexPattern_spec.
        split; [tauto|]. intros [?|?]; [discriminate|assumption].
      * apply isCaseSensitive_cleanPatternString.
  - (* a literal: the stored text is the raw pattern *)
    rewrite Hp. split.
    + intros _. exists pp. exact H.
    + intros pp' H'. rewrite H in H'. injection H' as <-.
      split; [|reflexivity]. rewrite Hl. tauto.
Qed.

End ClassificationClaims.

(** C5 (as stated, refuted).  The pattern [foo\;confidence:50] is accepted;
    its cleaned text [foo] has no metacharacter and the raw pattern is not
    wrapped in delimiters, yet it is classified as a regex. *)
Lemma directive_pattern_classified_regex :
  exists pp : ParsedPattern,
    ParsePattern (RE := RE2.engine) "foo\;confidence:50" = Some pp
    /\ ~ (IsLiteral pp = true <->
          ~ has_metachar (cleanPatternString "foo\;confidence:50")
          /\ slash_wrapped "foo\;confidence:50" = false).
Proof.
  eexists. split; [vm_compute; reflexivity|].
  intros [_ H]. simpl in H.
  assert (false = true); [|discriminate]. apply H. split; [|reflexivity].
  intros Hm. apply contains_special_spec in Hm. vm_compute in Hm. discriminate.
Qed.

Lemma literal_iff_raw_text_plain_witness :
  exists pp : ParsedPattern,
    ParsePattern (RE := RE2.engine) "jquery" = Some pp
    /\ (IsLiteral pp = true <-> ~ has_metachar "jquery" /\ slash_wrapped "jquery" = false)
    /\ (0 <= GoStrings.Index "jquery" "\;" -> IsLiteral pp = false).
Proof.
  eexists. split; [vm_compute; reflexivity|].
  apply (literal_iff_raw_text_plain (RE := RE2.engine) "jquery").
  vm_compute. reflexivity.
Defined.

(** C6 (as stated, refuted).  [foo\;confidence:50] is accepted as a regex
    with stored text [foo]; parsing [foo] gives a literal. *)
Lemma reparse_changes_flags :
  exists pp pp' : ParsedPattern,
    ParsePattern (RE := RE2.engine) "foo\;confidence:50" = Some pp
    /\ ParsePattern (RE := RE2.engine) (Pattern pp) = Some pp'
    /\ IsLiteral pp = false /\ IsLiteral pp' = true.
Proof.
  do 2 eexists. split; [vm_compute; reflexivity|].
  split; [vm_compute; reflexivity|]. split; reflexivity.
Qed.

Lemma reparse_stored_pattern_flags_witness :
  exists pp pp' : ParsedPattern,
    ParsePattern (RE := RE2.engine) "jquery-([\d.]+)\.js\;version:\1" = Some pp
    /\ ParsePattern (RE := RE2.engine) (Pattern pp) = Some pp'
    /\ IsLiteral pp' = IsLiteral pp
    /\ IsCaseSensitive pp' = IsCaseSensitive pp.
Proof.
  eexists.
  destruct (reparse_stored_pattern_flags (RE := RE2.engine)
              "jquery-([\d.]+)\.js\;version:\1" _
              ltac:(vm_compute; reflexivity)) as [Hacc Hflags].
  destruct (Hacc (or_intror eq_refl)) as [pp' H'].
  exists pp'. split; [vm_compute; reflexivity|]. split; [exact H'|].
  destruct (Hflags pp' H') as [Hl Hc]. split.
  - apply Hl. right. left. apply contains_special_spec. vm_compute. reflexivity.
  - apply Hc; vm_compute; reflexivity.
Defined.

(** Neither the condition on the delimiters nor the one on the directive
    suffix can be dropped.  The stored text of [///*///] is [//*//], which
    is wrapped in delimiters again: parsing it compiles [*] alone and is
    rejected. *)
Example reparse_can_be_rejected :
  exists pp : ParsedPattern,
    ParsePattern (RE := RE2.engine) "///*///" = Some pp
    /\ Pattern pp = "//*//"
    /\ ParsePattern (RE := RE2.engine) (Pattern pp) = None.
Proof. eexists. repeat split; vm_compute; reflexivity. Qed.

(** [foo.\;version:(?-i)] carries a case marker in its directive suffix
    only: it is case-sensitive, its stored text [foo.] is not. *)
Example reparse_changes_case_flag :
  exists pp pp' : ParsedPattern,
    ParsePattern (RE := RE2.engine) "foo.\;version:(?-i)" = Some pp
    /\ ParsePattern (RE := RE2.engine) (Pattern pp) = Some pp'
    /\ IsLiteral pp' = IsLiteral pp
    /\ IsCaseSensitive pp = true /\ IsCaseSensitive pp' = false.
Proof.
  do 2 eexists. split; [vm_compute; reflexivity|].
  split; [vm_compute; reflexivity|]. repeat split.
Qed.

(** C3 (the code at the failing input).  On [foo\;confidence:50] the
    directive is read, [extractVersionInfo] returns the number 50, and the
    parsed pattern is left with the default confidence 100. *)
Theorem confidence_directive_dropped :
  extractVersionInfo (RE := RE2.engine) "foo\;confidence:50" = ("", 50)
  /\ ParsePattern (RE := RE2.engine) "foo\;confidence:50"
     = Some {| Pattern := "foo"; IsLiteral := false; IsCaseSensitive := false;
               Version := ""; Confidence := 100; SkipRegex := false |}.
Proof. split; vm_compute; reflexivity. Qed.

(** C2 (the code at the failing input).  The pattern [version 5] parses to
    a literal with the static version [5]; evaluated on a target in which
    it does not occur, the verdict is negative and the version is still
    [5]. *)
Theorem literal_no_match_keeps_version :
  ParsePattern (RE := RE2.engine) "version 5"
  = Some {| Pattern := "version 5"; IsLiteral := true; IsCaseSensitive := false;
            Version := "5"; Confidence := 70; SkipRegex := false |}
  /\ EvaluatePattern (RE := RE2.engine)
       {| Pattern := "version 5"; IsLiteral := true; IsCaseSensitive := false;
          Version := "5"; Confidence := 70; SkipRegex := false |} "hello"
     = (false, "5").
Proof. split; vm_compute; reflexivity. Qed.

(** ** The signature compiler *)

Section CompilerLemmas.
Context `{RE : Regexp}.
Import GoStrings.

Lemma lower_ascii_idempotent (c : ascii) :
  lower_ascii (lower_ascii c) = lower_ascii c.
Proof. destruct c as [[] [] [] [] [] [] [] []]; reflexivity. Qed.

Lemma ToLower_idempotent (s : string) : ToLower (ToLower s) = ToLower s.
Proof.
  induction s as [|c s IH]; simpl; [reflexivity|].
  rewrite lower_ascii_idempotent, IH. reflexivity.
Qed.

(** Every entry of a compiled keyed channel comes from an authored entry
    whose pattern was accepted, and sits under [key] of its name. *)
Lemma compileKeyed_lookup (key : string -> string) (raw : gmap string string)
    (k : string) (pp : ParsedPattern) :
  compileKeyed key raw !! k = Some pp ->
  exists name pattern,
    raw !! name = Some pattern /\ k = key name /\ ParsePattern pattern = Some pp.
Proof.
  unfold compileKeyed. revert pp.
  apply (map_fold_weak_ind
           (fun acc m => forall pp, acc !! k = Some pp ->
              exists name pattern,
                m !! name = Some pattern /\ k = key name
                /\ ParsePattern pattern = Some pp)).
  - intros pp H. rewrite lookup_empty in H. discriminate.
  - intros name pattern m acc Hname IH pp.
    assert (forall pp, acc !! k = Some pp ->
              exists name' pattern',
                <[name := pattern]> m !! name' = Some pattern' /\ k = key name'
                /\ ParsePattern pattern' = Some pp) as Hold.
    { intros pp' H'. destruct (IH _ H') as (n' & p' & Hn & Hk & Hp).
      exists n', p'. split; [|auto].
      rewrite lookup_insert_ne; [exact Hn|]. intros ->. congruence. }
    destruct (ParsePattern pattern) as [parsed|] eqn:Hp; [|apply Hold].
    destruct (decide (key name = k)) as [<-|Hne].
    + rewrite lookup_insert_eq. intros [= <-].
      exists name, pattern. rewrite lookup_insert_eq. auto.
    + rewrite lookup_insert_ne by exact Hne. apply Hold.
Qed.

Lemma compileMeta_lookup (raw : gmap string JValue) (k : string)
    (pps : list ParsedPattern) :
  compileMeta raw !! k = Some pps ->
  exists metaName patterns,
    raw !! metaName = Some patterns /\ k = ToLower metaName
    /\ pps = compileList patterns /\ pps <> [].
Proof.
  unfold compileMeta. revert pps.
  apply (map_fold_weak_ind
           (fun acc m => forall pps, acc !! k = Some pps ->
              exists metaName patterns,
                m !! metaName = Some patterns /\ k = ToLower metaName
                /\ pps = compileList patterns /\ pps <> [])).
  - intros pps H. rewrite lookup_empty in H. discriminate.
  - intros name patterns m acc Hname IH pps.
    assert (forall pps, acc !! k = Some pps ->
              exists metaName patterns',
                <[name := patterns]> m !! metaName = Some patterns'
                /\ k = ToLower metaName
                /\ pps = compileList patterns' /\ pps <> []) as Hold.
    { intros pps' H'. destruct (IH _ H') as (n' & p' & Hn & Hrest).
      exists n', p'. split; [|exact Hrest].
      rewrite lookup_insert_ne; [exact Hn|]. intros ->. congruence. }
    simpl. destruct (0 <? Z.of_nat (length (compileList patterns))) eqn:Hlen;
      [|apply Hold].
    destruct (decide (ToLower name = k)) as [<-|Hne].
    + rewrite lookup_insert_eq. intros [= <-].
      exists name, patterns. rewrite lookup_insert_eq.
      repeat split; auto. intros Hnil. rewrite Hnil in Hlen. discriminate.
    + rewrite lookup_insert_ne by exact Hne. apply Hold.
Qed.

(** C7 (amended).  In every compiled signature, every key of the compiled
    header, cookie and meta pattern maps is the lower-casing of an
    authored key of that channel, and is its own lower-casing; every key
    of the compiled JS pattern map is an authored JS key as it was
    written, without lower-casing. *)
Theorem compiled_channel_keys (apps : gmap string Fingerprint)
    (name : string) (c : CompiledFingerprint) (k : string) :
  CompileFingerprints apps !! name = Some c ->
  apps !! name = Some (App c)
  /\ (is_Some (HeaderPatterns c !! k) ->
      ToLower k = k /\ exists h, is_Some (Headers (App c) !! h) /\ k = ToLower h)
  /\ (is_Some (CookiePatterns c !! k) ->
      ToLower k = k /\ exists h, is_Some (Cookies (App c) !! h) /\ k = ToLower h)
  /\ (is_Some (MetaPatterns c !! k) ->
      ToLower k = k /\ exists h, is_Some (Meta (App c) !! h) /\ k = ToLower h)
  /\ (is_Some (JSPatterns c !! k) -> is_Some (JS (App c) !! k)).
Proof.
  unfold CompileFingerprints. rewrite lookup_fmap.
  destruct (apps !! name) as [app|]; [|discriminate].
  intros [= <-]. simpl. split; [reflexivity|].
  repeat split.
  - destruct H as [pp H]. apply compileKeyed_lookup in H as (h & p & _ & -> & _).
    apply ToLower_idempotent.
  - destruct H as [pp H]. apply compileKeyed_lookup in H as (h & p & Hh & -> & _).
    eauto.
  - destruct H as [pp H]. apply compileKeyed_lookup in H as (h & p & _ & -> & _).
    apply ToLower_idempotent.
  - destruct H as [pp H]. apply compileKeyed_lookup in H as (h & p & Hh & -> & _).
    eauto.
  - destruct H as [pp H]. apply compileMeta_lookup in H as (h & p & _ & -> & _).
    apply ToLower_idempotent.
  - destruct H as [pp H]. apply compileMeta_lookup in H as (h & p & Hh & -> & _).
    eauto.
  - intros [pp H]. apply compileKeyed_lookup in H as (h & p & Hh & -> & _).
    eauto.
Qed.

End CompilerLemmas.

(** C7 (as stated, refuted).  The authored JS key [jQuery] is kept as the
    key of the compiled JS pattern map, and it is not a lower-cased
    string. *)
Lemma js_keys_not_lowered :
  exists c : CompiledFingerprint,
    CompileFingerprints (RE := RE2.engine) keyedCorpus !! "jQuery" = Some c
    /\ is_Some (JSPatterns c !! "jQuery")
    /\ GoStrings.ToLower "jQuery" <> "jQuery".
Proof.
  eexists. split; [vm_compute; reflexivity|].
  split; [vm_compute; eauto|]. discriminate.
Qed.

Lemma compiled_channel_keys_witness :
  exists c : CompiledFingerprint,
    CompileFingerprints (RE := RE2.engine) keyedCorpus !! "jQuery" = Some c
    /\ is_Some (HeaderPatterns c !! "x-powered-by")
    /\ GoStrings.ToLower "x-powered-by" = "x-powered-by"
    /\ exists h, is_Some (Headers (App c) !! h) /\ "x-powered-by" = GoStrings.ToLower h.
Proof.
  eexists. split; [vm_compute; reflexivity|].
  assert (is_Some (HeaderPatterns
                     (compileApp (RE := RE2.engine)
                        (default emptyFingerprint (keyedCorpus !! "jQuery")))
                     !! "x-powered-by")) as Hk by (vm_compute; eauto).
  split; [exact Hk|].
  destruct (compiled_channel_keys (RE := RE2.engine) keyedCorpus "jQuery" _
              "x-powered-by" ltac:(vm_compute; reflexivity))
    as (_ & Hh & _).
  exact (Hh Hk).
Defined.

(** ** Cookies *)

Section CookieClaims.
Context `{RE : Regexp}.
Import GoStrings.

(** C10.  Cookie synthesis reads the headers only under the exact keys
    [Cookie] and [Set-Cookie]: when the mapping has no entry under these
    two keys, whatever it holds under keys that differ from them in case,
    the synthesized cookie mapping is empty and the cookie matcher adds
    nothing to the accumulator. *)
Theorem cookie_headers_read_under_exact_keys
    (headers : gmap string (list string)) :
  headers !! "Cookie" = None ->
  headers !! "Set-Cookie" = None ->
  ExtractCookiesFromHeaders headers = ∅
  /\ forall (cookiePatterns : gmap string (gmap string ParsedPattern))
            (technologies : gset string),
       MatchCookies cookiePatterns (ExtractCookiesFromHeaders headers) technologies
       = technologies.
Proof.
  intros Hc Hs.
  assert (ExtractCookiesFromHeaders headers = ∅) as ->.
  { unfold ExtractCookiesFromHeaders. rewrite Hc, Hs. reflexivity. }
  split; [reflexivity|]. intros cookiePatterns technologies.
  unfold MatchCookies. rewrite normalize_keys_empty.
  apply range_add_none. intros tech pats _.
  apply range_any_false. intros k v _. rewrite lookup_empty. reflexivity.
Qed.

(** C8.  From headers that hold [Set-Cookie: session=abc123; Path=/] (and
    no [Cookie] header) cookie synthesis produces exactly the mapping
    [session -> abc123]; a technology whose compiled cookie patterns hold
    the parsed pattern [.+] under the key [session] is added to the
    accumulator by the cookie matcher, given that the regex engine
    compiles [(?i).+] to an expression that matches [abc123]. *)
Theorem set_cookie_scenario
    (headers : gmap string (list string))
    (cookiePatterns : gmap string (gmap string ParsedPattern))
    (tech : string) (techCookiePatterns : gmap string ParsedPattern)
    (pp : ParsedPattern) (technologies : gset string) :
  headers !! "Set-Cookie" = Some ["session=abc123; Path=/"] ->
  headers !! "Cookie" = None ->
  ParsePattern ".+" = Some pp ->
  (forall r, Compile "(?i).+" = Some r -> MatchString r "abc123" = true) ->
  cookiePatterns !! tech = Some techCookiePatterns ->
  techCookiePatterns !! "session" = Some pp ->
  ExtractCookiesFromHeaders headers = {[ "session" := "abc123" ]}
  /\ tech ∈ MatchCookies cookiePatterns (ExtractCookiesFromHeaders headers)
              technologies.
Proof.
  intros Hs Hc Hpp Hm Ht Hk.
  assert (ExtractCookiesFromHeaders headers = {[ "session" := "abc123" ]}) as ->.
  { unfold ExtractCookiesFromHeaders. rewrite Hc, Hs. vm_compute. reflexivity. }
  split; [reflexivity|].
  unfold MatchCookies. apply elem_of_range_add. right.
  exists techCookiePatterns. split; [exact Ht|].
  apply range_any_true. exists "session", pp. split; [exact Hk|].
  assert (normalize_keys ({[ "session" := "abc123" ]} : gmap string string)
            !! ToLower "session" = Some "abc123") as -> by (vm_compute; reflexivity).
  apply ParsePattern_Some in Hpp as (Hl & _ & Hp & Hcomp & _).
  change (isRegexPattern ".+") with true in *.
  change (cleanPatternString ".+") with ".+" in *.
  simpl in Hl, Hp. destruct (Hcomp eq_refl) as [r Hr].
  unfold matched, EvaluatePattern. rewrite Hl, Hp, Hr.
  unfold CompileRegex in Hr. change (normalizePattern ".+") with "(?i).+" in Hr.
  rewrite (Hm r Hr). reflexivity.
Qed.

End CookieClaims.

Lemma cookie_headers_read_under_exact_keys_witness :
  let headers : gmap string (list string) :=
    {[ "set-cookie" := ["session=abc123; Path=/"];
       "SET-COOKIE" := ["id=7"]; "cookie" := ["a=b"] ]} in
  headers !! "Cookie" = None
  /\ headers !! "Set-Cookie" = None
  /\ ExtractCookiesFromHeaders headers = ∅
  /\ forall (cookiePatterns : gmap string (gmap string ParsedPattern))
            (technologies : gset string),
       MatchCookies (RE := RE2.engine) cookiePatterns
         (ExtractCookiesFromHeaders headers) technologies = technologies.
Proof.
  intros headers.
  split; [reflexivity|]. split; [reflexivity|].
  apply (cookie_headers_read_under_exact_keys (RE := RE2.engine) headers);
    reflexivity.
Defined.

Lemma set_cookie_scenario_witness :
  let headers : gmap string (list string) :=
    {[ "Set-Cookie" := ["session=abc123; Path=/"]; "Server" := ["nginx"] ]} in
  let w := New (RE := RE2.engine) defaultConfig sessionCorpus in
  ExtractCookiesFromHeaders headers = {[ "session" := "abc123" ]}
  /\ "Sess" ∈ MatchCookies (RE := RE2.engine) (cookiePatterns w)
                (ExtractCookiesFromHeaders headers) ∅.
Proof.
  intros headers w.
  refine (set_cookie_scenario (RE := RE2.engine) headers (cookiePatterns w) "Sess"
            (default ∅ (cookiePatterns w !! "Sess"))
            (default {| Pattern := ""; IsLiteral := true; IsCaseSensitive := false;
                        Version := ""; Confidence := 0; SkipRegex := false |}
                     (ParsePattern (RE := RE2.engine) ".+"))
            ∅ _ _ _ _ _ _).
  - vm_compute. reflexivity.
  - vm_compute. reflexivity.
  - vm_compute. reflexivity.
  - intros r Hr. vm_compute in Hr. injection Hr as <-. vm_compute. reflexivity.
  - vm_compute. reflexivity.
  - vm_compute. reflexivity.
Defined.

(** ** Lookup by group *)

(** C9.  For a group ID that does not occur in the group-to-categories
    index, [GetTechByGroup] returns the empty list; the function has no
    error result. *)
Theorem GetTechByGroup_unknown_group (t : Tables) (w : Wappalyze) (groupID : Z) :
  groupCategories t !! groupID = None ->
  GetTechByGroup t w groupID = [].
Proof.
  intros H. unfold GetTechByGroup, GetGroupCategories. rewrite H. reflexivity.
Qed.

Lemma GetTechByGroup_unknown_group_witness :
  groupCategories sampleTables !! 99 = None
  /\ GetTechByGroup sampleTables
       (New (RE := RE2.engine) defaultConfig sessionCorpus) 99 = [].
Proof.
  split; [reflexivity|].
  apply GetTechByGroup_unknown_group. reflexivity.
Defined.

(** ** Detection and the configuration flags *)

Section DetectionLemmas.
Context `{RE : Regexp}.

(** What [detectTechnologies] computes: the accumulator, the header and
    cookie matches, and the matches of each of the other channels whose
    flag is not set.  [DisableHeaderDetection] and
    [DisableCookieDetection] do not occur. *)
Lemma detectTechnologies_channels (w : Wappalyze)
    (headers : gmap string (list string)) (body : string)
    (technologies : gset string) :
  detectTechnologies w headers body technologies
  = technologies
    ∪ MatchHeaders (headerPatterns w) headers ∅
    ∪ MatchCookies (cookiePatterns w) (ExtractCookiesFromHeaders headers) ∅
    ∪ (if DisableHTMLDetection (config w) then ∅
       else MatchHTML (htmlPatterns w) body ∅)
    ∪ (if DisableScriptDetection (config w) then ∅
       else MatchScripts (scriptPatterns w) body ∅
            ∪ MatchScriptSrc (scriptSrcPatterns w) (ExtractScripts body) ∅)
    ∪ (if DisableMetaDetection (config w) then ∅
       else MatchMetaTags (metaPatterns w) (ExtractMetaTags body) ∅)
    ∪ (if DisableJSDetection (config w) then ∅
       else MatchJS (jsPatterns w) (ExtractJS body) ∅).
Proof.
  unfold detectTechnologies, MatchHeaders, MatchCookies, MatchHTML,
    MatchScripts, MatchScriptSrc, MatchMetaTags, MatchJS.
  destruct (DisableHTMLDetection (config w)),
    (DisableScriptDetection (config w)),
    (DisableMetaDetection (config w)),
    (DisableJSDetection (config w)); simpl;
    repeat match goal with
      | |- context [range_add ?h ?p ?t] =>
          lazymatch t with
          | ∅ => fail
          | _ => rewrite (range_add_union h p t)
          end
      end;
    rewrite ?(right_id_L ∅ (∪)), ?(assoc_L (∪)); reflexivity.
Qed.

(** The two flags that are never read: setting them changes nothing. *)
Lemma detectTechnologies_header_cookie_flags (w : Wappalyze) (b1 b2 : bool)
    (headers : gmap string (list string)) (body : string)
    (technologies : gset string) :
  detectTechnologies
    {| config :=
         {| JSON := JSON (config w);
            DisableJSDetection := DisableJSDetection (config w);
            DisableHTMLDetection := DisableHTMLDetection (config w);
            DisableCookieDetection := b1;
            DisableHeaderDetection := b2;
            DisableMetaDetection := DisableMetaDetection (config w);
            DisableScriptDetection := DisableScriptDetection (config w);
            MaxBodySize := MaxBodySize (config w) |};
       fingerprints := fingerprints w;
       headerPatterns := headerPatterns w; cookiePatterns := cookiePatterns w;
       htmlPatterns := htmlPatterns w; scriptPatterns := scriptPatterns w;
       scriptSrcPatterns := scriptSrcPatterns w; metaPatterns := metaPatterns w;
       jsPatterns := jsPatterns w; impliesMapping := impliesMapping w;
       categoryMapping := categoryMapping w |}
    headers body technologies
  = detectTechnologies w headers body technologies.
Proof. reflexivity. Qed.

End DetectionLemmas.

(** C1 (the code at the failing input).  On an engine built with
    [WithoutHeaderDetection] and [WithoutCookieDetection], the technology
    [Foo], whose only pattern is a header pattern, is reported from the
    header [X-Powered-By], and [Sess], whose only pattern is a cookie
    pattern, is reported from [Set-Cookie]; without these headers nothing
    is reported. *)
Theorem header_and_cookie_flags_not_consulted :
  let w := New (RE := RE2.engine)
             (WithoutCookieDetection (WithoutHeaderDetection defaultConfig))
             sessionCorpus in
  DisableHeaderDetection (config w) = true
  /\ DisableCookieDetection (config w) = true
  /\ detectTechnologies (RE := RE2.engine) w
       {[ "X-Powered-By" := ["Foo/2.1"] ]} "" ∅ = {[ "Foo" ]}
  /\ detectTechnologies (RE := RE2.engine) w
       {[ "Set-Cookie" := ["session=abc123; Path=/"] ]} "" ∅ = {[ "Sess" ]}
  /\ detectTechnologies (RE := RE2.engine) w ∅ "" ∅ = ∅.
Proof. repeat split; vm_compute; reflexivity. Qed.

(** ** Implication closure *)

Section Closure.
Variable implies : gmap string (list string).

Lemma enqueue_implied_present (technologies : gset string) (queue : list string)
    (implied : list string) :
  (forall name, name ∈ implied -> name ∈ technologies) ->
  foldl enqueue_implied (technologies, queue) implied = (technologies, queue).
Proof.
  induction implied as [|a l IH]; simpl; intros H; [reflexivity|].
  destruct (decide (a ∈ technologies)) as [Hin|Hout].
  - apply IH. intros name Hn. apply H. apply elem_of_cons. auto.
  - exfalso. apply Hout, H. apply elem_of_cons. auto.
Qed.

(** What the inner loop leaves: every implied name is in the set, and the
    names that were new are at the back of the queue. *)
Lemma enqueue_implied_spec (implied : list string) :
  forall (technologies : gset string) (queue : list string),
    let st := foldl enqueue_implied (technologies, queue) implied in
    st.1 = technologies ∪ list_to_set implied
    /\ (forall x, x ∈ st.2 <-> x ∈ queue \/ (x ∈ implied /\ x ∉ technologies)).
Proof.
  induction implied as [|a l IH]; intros technologies queue; simpl.
  - split; [symmetry; apply (right_id_L ∅ (∪))|].
    intros x. split; [auto|]. intros [H|[H _]]; [exact H|inversion H].
  - destruct (decide (a ∈ technologies)) as [Hin|Hout].
    + destruct (IH technologies queue) as [HT Hq]. split.
      * rewrite HT. apply set_eq. intros x.
        rewrite !elem_of_union, elem_of_singleton, !elem_of_list_to_set.
        split; [tauto|]. intros [H|[->|H]]; auto.
      * intros x. rewrite Hq, elem_of_cons. split; [tauto|].
        intros [H|[[->|H] Hn]]; auto. contradiction.
    + destruct (IH ({[a]} ∪ technologies) (queue ++ [a])%list) as [HT Hq]. split.
      * rewrite HT. apply set_eq. intros x.
        rewrite !elem_of_union, elem_of_singleton, !elem_of_list_to_set. tauto.
      * intros x. rewrite Hq, elem_of_app, !elem_of_cons, elem_of_union,
          elem_of_singleton, elem_of_nil.
        destruct (decide (x = a)) as [->|Hne]; [tauto|]. tauto.
Qed.

(** The inner loop moves each new name from the names still to come to
    the queue: the sum of the two counts does not change. *)
Lemma enqueue_implied_measure (names : gset string) (implied : list string) :
  (forall name, name ∈ implied -> name ∈ names) ->
  forall (technologies : gset string) (queue : list string),
    let st := foldl enqueue_implied (technologies, queue) implied in
    (size (names ∖ st.1) + length st.2 = size (names ∖ technologies) + length queue)%nat.
Proof.
  induction implied as [|a l IH]; intros Hn technologies queue; simpl;
    [reflexivity|].
  assert (forall name, name ∈ l -> name ∈ names) as Hl
      by (intros name H; apply Hn, elem_of_cons; auto).
  destruct (decide (a ∈ technologies)) as [Hin|Hout]; [apply IH, Hl|].
  specialize (IH Hl ({[a]} ∪ technologies) (queue ++ [a])%list). cbv zeta in IH.
  rewrite IH, length_app. change (length [a]) with 1%nat.
  assert (names ∖ technologies = {[a]} ∪ names ∖ ({[a]} ∪ technologies)) as ->.
  { apply set_eq. intros x.
    rewrite elem_of_union, !elem_of_difference, elem_of_union, elem_of_singleton.
    assert (a ∈ names) by (apply Hn, elem_of_cons; auto).
    destruct (decide (x = a)) as [->|Hne]; tauto. }
  rewrite (size_union {[a]} (names ∖ ({[a]} ∪ technologies))), size_singleton;
    [lia|].
  intros x. rewrite elem_of_singleton, elem_of_difference, elem_of_union,
    elem_of_singleton. tauto.
Qed.

Lemma elem_of_implied_names (tech : string) (implied : list string)
    (name : string) :
  implies !! tech = Some implied -> name ∈ implied ->
  name ∈ implied_names implies.
Proof.
  unfold implied_names. revert tech implied.
  apply (map_fold_weak_ind
           (fun acc m => forall tech implied,
              m !! tech = Some implied -> name ∈ implied -> name ∈ acc)).
  - intros tech implied H. rewrite lookup_empty in H. discriminate.
  - intros i l m acc Hi IH tech implied Ht Hn.
    apply elem_of_union. destruct (decide (i = tech)) as [->|Hne].
    + rewrite lookup_insert_eq in Ht. injection Ht as ->.
      left. apply elem_of_list_to_set. exact Hn.
    + rewrite lookup_insert_ne in Ht by exact Hne. right. eauto.
Qed.

Lemma expand_nil (fuel : nat) (technologies : gset string) :
  expand fuel implies [] technologies = Some technologies.
Proof. destruct fuel; reflexivity. Qed.

(** The loop ends: as many iterations as there are names still to come
    and names in the queue are enough. *)
Lemma expand_total (fuel : nat) :
  forall (queue : list string) (technologies : gset string),
    (size (implied_names implies ∖ technologies) + length queue <= fuel)%nat ->
    is_Some (expand fuel implies queue technologies).
Proof.
  induction fuel as [|fuel IH]; intros queue technologies Hf;
    destruct queue as [|current queue]; simpl in *; eauto; [lia|].
  destruct (implies !! current) as [implied|] eqn:Hc.
  - pose proof (enqueue_implied_measure (implied_names implies) implied
                  (fun name => elem_of_implied_names _ _ name Hc)
                  technologies queue) as Hm. simpl in Hm.
    destruct (foldl enqueue_implied (technologies, queue) implied) as [t' q'].
    apply IH. simpl in Hm. lia.
  - apply IH. lia.
Qed.

(** On a closed set whose queue holds names of the set only, the loop
    changes nothing. *)
Lemma expand_closed (technologies : gset string) :
  closed_under implies technologies ->
  forall (queue : list string) (fuel : nat),
    (forall x, x ∈ queue -> x ∈ technologies) ->
    (length queue <= fuel)%nat ->
    expand fuel implies queue technologies = Some technologies.
Proof.
  intros Hcl. induction queue as [|current queue IH]; intros fuel Hq Hlen;
    destruct fuel as [|fuel]; simpl in *; try reflexivity; [lia|].
  assert (current ∈ technologies) as Hcur by (apply Hq, elem_of_cons; auto).
  assert (forall x, x ∈ queue -> x ∈ technologies) as Hq'
      by (intros x Hx; apply Hq, elem_of_cons; auto).
  destruct (implies !! current) as [implied|] eqn:Hc.
  - rewrite enqueue_implied_present by (intros name; apply (Hcl _ _ _ Hcur Hc)).
    apply IH; [exact Hq'|lia].
  - apply IH; [exact Hq'|lia].
Qed.

(** The result of the loop.  When every name of the set that is not in the
    queue already has its implied names in the set, the result contains
    the set, is closed, and is contained in every closed set that
    contains the set. *)
Lemma expand_closure (fuel : nat) :
  forall (queue : list string) (technologies result : gset string),
    expand fuel implies queue technologies = Some result ->
    (forall x, x ∈ queue -> x ∈ technologies) ->
    (forall tech, tech ∈ technologies ->
       tech ∈ queue \/
       forall implied name, implies !! tech = Some implied -> name ∈ implied ->
                            name ∈ technologies) ->
    technologies ⊆ result
    /\ closed_under implies result
    /\ forall closed : gset string,
         technologies ⊆ closed -> closed_under implies closed -> result ⊆ closed.
Proof.
  induction fuel as [|fuel IH]; intros queue technologies result;
    destruct queue as [|current queue]; simpl; try discriminate.
  - intros [= <-] _ Hdone. split; [reflexivity|]. split; [|auto].
    intros tech implied name Ht Hi Hn.
    destruct (Hdone tech Ht) as [H|H]; [inversion H|eauto].
  - intros [= <-] _ Hdone. split; [reflexivity|]. split; [|auto].
    intros tech implied name Ht Hi Hn.
    destruct (Hdone tech Ht) as [H|H]; [inversion H|eauto].
  - intros Hex Hq Hdone.
    assert (current ∈ technologies) as Hcur by (apply Hq, elem_of_cons; auto).
    destruct (implies !! current) as [implied|] eqn:Hc.
    + destruct (enqueue_implied_spec implied technologies queue) as [HT Hq1].
      destruct (foldl enqueue_implied (technologies, queue) implied)
        as [t1 q1] eqn:Hf. simpl in HT, Hq1.
      destruct (IH q1 t1 result Hex) as (Hsub & Hclosed & Hleast).
      * intros x Hx. apply Hq1 in Hx as [Hx|[Hx _]]; rewrite HT, elem_of_union.
        -- left. apply Hq, elem_of_cons. auto.
        -- right. apply elem_of_list_to_set. exact Hx.
      * intros tech Ht. rewrite HT, elem_of_union, elem_of_list_to_set in Ht.
        destruct (decide (tech ∈ technologies)) as [Hin|Hout].
        -- destruct (Hdone tech Hin) as [Hin'|Himp].
           ++ apply elem_of_cons in Hin' as [->|Hin'].
              ** right. intros implied' name. rewrite Hc. intros [= <-] Hn.
                 rewrite HT, elem_of_union, elem_of_list_to_set. auto.
              ** left. apply Hq1. auto.
           ++ right. intros implied' name Hi Hn.
              rewrite HT, elem_of_union. left. eauto.
        -- left. apply Hq1. right. tauto.
      * split; [|split; [exact Hclosed|]].
        -- intros x Hx. apply Hsub. rewrite HT, elem_of_union. auto.
        -- intros closed Hs Hcl. apply Hleast; [|exact Hcl].
           intros x. rewrite HT, elem_of_union, elem_of_list_to_set.
           intros [Hx|Hx]; [apply Hs, Hx|].
           exact (Hcl _ _ _ (Hs _ Hcur) Hc Hx).
    + destruct (IH queue technologies result Hex) as (Hsub & Hclosed & Hleast).
      * intros x Hx. apply Hq, elem_of_cons. auto.
      * intros tech Ht. destruct (Hdone tech Ht) as [Hin|Himp]; [|auto].
        apply elem_of_cons in Hin as [->|Hin]; [|auto].
        right. intros implied name. rewrite Hc. discriminate.
      * auto.
Qed.

End Closure.

(** [addImpliedTechnologies] always returns. *)
Lemma addImpliedTechnologies_total (w : Wappalyze) (order : list string)
    (technologies : gset string) :
  is_Some (addImpliedTechnologies w order technologies).
Proof. unfold addImpliedTechnologies. apply expand_total. lia. Qed.

(** Its result, when the queue starts with the names of the set in any
    order, is the least closed set that contains the set. *)
Lemma addImpliedTechnologies_closure (w : Wappalyze) (order : list string)
    (technologies result : gset string) :
  (forall x, x ∈ order <-> x ∈ technologies) ->
  addImpliedTechnologies w order technologies = Some result ->
  technologies ⊆ result
  /\ closed_under (impliesMapping w) result
  /\ forall closed : gset string,
       technologies ⊆ closed -> closed_under (impliesMapping w) closed ->
       result ⊆ closed.
Proof.
  intros Ho H. unfold addImpliedTechnologies in H.
  apply (expand_closure _ _ _ _ _ H).
  - intros x. apply Ho.
  - intros tech Ht. left. apply Ho, Ht.
Qed.

(** C4.  Expansion is a fixed point and is robust to cycles: on a set that
    is closed under the implies relation, with the queue filled from that
    set in any order, [addImpliedTechnologies] returns the same set; and
    when [A] implies [B] and [B] implies [A], expanding the set [{A}]
    returns, and returns exactly [{A, B}]. *)
Theorem implication_closure_fixed_point_and_cycle (w : Wappalyze) :
  (forall (technologies : gset string) (order : list string),
     closed_under (impliesMapping w) technologies ->
     (forall x, x ∈ order -> x ∈ technologies) ->
     addImpliedTechnologies w order technologies = Some technologies)
  /\ (forall A B : string,
        impliesMapping w !! A = Some [B] ->
        impliesMapping w !! B = Some [A] ->
        addImpliedTechnologies w [A] {[A]} = Some {[A; B]}).
Proof.
  split.
  - intros technologies order Hcl Ho. unfold addImpliedTechnologies.
    apply expand_closed; [exact Hcl|exact Ho|lia].
  - intros A B HA HB. unfold addImpliedTechnologies.
    destruct (decide (A = B)) as [<-|Hne].
    + rewrite expand_closed.
      * f_equal. apply set_eq. intros x. rewrite elem_of_union. tauto.
      * intros tech implied name Ht Hi Hn. apply elem_of_singleton in Ht as ->.
        rewrite HA in Hi. injection Hi as <-.
        apply list_elem_of_singleton in Hn as ->. apply elem_of_singleton. reflexivity.
      * intros x Hx. apply list_elem_of_singleton in Hx as ->.
        apply elem_of_singleton. reflexivity.
      * simpl. lia.
    + assert (B ∈ implied_names (impliesMapping w) ∖ ({[A]} : gset string)) as HBn.
      { apply elem_of_difference. split.
        - apply (elem_of_implied_names _ A [B] B HA). apply list_elem_of_singleton.
          reflexivity.
        - rewrite elem_of_singleton. congruence. }
      destruct (size (implied_names (impliesMapping w) ∖ ({[A]} : gset string)))
        as [|n] eqn:Hsize.
      { apply size_empty_inv in Hsize. exfalso.
        apply (not_elem_of_empty (C := gset string) B). rewrite <- Hsize.
        exact HBn. }
      replace (S n + length [A])%nat with (S (S n)) by (simpl; lia).
      simpl. rewrite HA. simpl.
      destruct (decide (B ∈ ({[A]} : gset string))) as [Hin|_].
      { apply elem_of_singleton in Hin. congruence. }
      simpl. rewrite HB. simpl.
      destruct (decide (A ∈ ({[B]} ∪ {[A]} : gset string))) as [_|Hout].
      * rewrite expand_nil. f_equal. apply (comm_L (∪)).
      * exfalso. apply Hout. apply elem_of_union. right.
        apply elem_of_singleton. reflexivity.
Qed.

Lemma implication_closure_witness :
  let w := New (RE := RE2.engine) defaultConfig cycleCorpus in
  (closed_under (impliesMapping w) {[ "A"; "B" ]}
   /\ (forall x, x ∈ ["B"; "A"] -> x ∈ ({[ "A"; "B" ]} : gset string))
   /\ addImpliedTechnologies w ["B"; "A"] {[ "A"; "B" ]} = Some {[ "A"; "B" ]})
  /\ (impliesMapping w !! "A" = Some ["B"]
      /\ impliesMapping w !! "B" = Some ["A"]
      /\ addImpliedTechnologies w ["A"] {[ "A" ]} = Some {[ "A"; "B" ]}).
Proof.
  intros w.
  destruct (implication_closure_fixed_point_and_cycle w) as [Hfix Hcycle].
  assert (forall x, x ∈ ["B"; "A"] -> x ∈ ({[ "A"; "B" ]} : gset string)) as Ho.
  { intros x Hx. apply elem_of_union. rewrite !elem_of_singleton.
    apply elem_of_cons in Hx as [->|Hx]; [auto|].
    apply list_elem_of_singleton in Hx as ->. auto. }
  assert (closed_under (impliesMapping w) {[ "A"; "B" ]}) as Hcl.
  { intros tech implied name Ht Hi Hn.
    apply elem_of_union in Ht. rewrite !elem_of_singleton in Ht.
    apply elem_of_union. rewrite !elem_of_singleton.
    destruct Ht as [-> | ->]; vm_compute in Hi; injection Hi as <-;
      apply list_elem_of_singleton in Hn as ->; auto. }
  split.
  - split; [exact Hcl|]. split; [exact Ho|]. exact (Hfix _ _ Hcl Ho).
  - split; [reflexivity|]. split; [reflexivity|].
    apply Hcycle; reflexivity.
Defined.

(** ** The reference regex engine

    Its matcher never stops for lack of fuel: a negative answer of the
    instance is a search that found no match. *)

Section ReferenceEngine.
Import RE2.
Local Open Scope nat_scope.

Lemma run_has_fuel (n : nat) (fuel : nat) :
  forall (r : re) (s : mstate) (k : mstate -> result),
    state_within n s ->
    height r + length (rest s) < fuel ->
    (forall s', state_within n s' -> length (rest s') <= length (rest s) ->
                k s' <> OutOfFuel) ->
    run fuel r s k <> OutOfFuel.
Proof.
  induction fuel as [|fuel IH]; intros r s k Hw Hf Hk; [lia|].
  destruct r; simpl in *.
  - apply Hk; [exact Hw|lia].
  - destruct (rest s) as [|c tl] eqn:Hr; [discriminate|].
    destruct (cs c); [|discriminate].
    apply Hk; unfold state_within in *; simpl; rewrite ?Hr in *; simpl in *; lia.
  - apply IH; [exact Hw|lia|]. intros s' Hw' Hl.
    apply IH; [exact Hw'|lia|]. intros s'' Hw'' Hl'. apply Hk; [exact Hw''|lia].
  - unfold orelse.
    destruct (run fuel r1 s k) eqn:E1; [|apply IH; [exact Hw|lia|exact Hk]|discriminate].
    exfalso. revert E1. apply IH; [exact Hw|lia|exact Hk].
  - assert (run fuel r s
              (fun s' => if Nat.eqb (pos s') (pos s) then NoMatch
                         else run fuel (Star greedy r) s' k) <> OutOfFuel) as Hmore.
    { apply IH; [exact Hw|lia|]. intros s' Hw' Hl.
      destruct (Nat.eqb (pos s') (pos s)) eqn:Hp; [discriminate|].
      apply Nat.eqb_neq in Hp. unfold state_within in *.
      apply IH; [exact Hw'|simpl; lia|].
      intros s'' Hw'' Hl'. apply Hk; [exact Hw''|lia]. }
    assert (k s <> OutOfFuel) as Hks by (apply Hk; [exact Hw|lia]).
    unfold orelse. destruct greedy.
    + destruct (run fuel r s _); [contradiction|exact Hks|discriminate].
    + destruct (k s); [contradiction|exact Hmore|discriminate].
  - apply IH; [exact Hw|lia|]. intros s' Hw' Hl. apply Hk; [exact Hw'|exact Hl].
  - destruct (Nat.eqb (pos s) 0); [|discriminate]. apply Hk; [exact Hw|lia].
  - destruct (rest s) eqn:Hr; [|discriminate].
    apply Hk; [exact Hw|rewrite Hr; simpl; lia].
  - destruct (xorb neg (at_word_boundary s)); [|discriminate].
    apply Hk; [exact Hw|lia].
Qed.

Lemma search_has_fuel (r : re) (fuel : nat) (text : list ascii) :
  forall (p : nat) (pr : option ascii),
    height r + length text < fuel ->
    search fuel r p pr text <> SearchOutOfFuel.
Proof.
  induction text as [|c tl IH]; intros p pr Hf; simpl in *.
  - destruct (run fuel r _ Matched) eqn:E; try discriminate.
    exfalso. revert E. apply (run_has_fuel (p + 0)); simpl;
      [reflexivity|lia|discriminate].
  - destruct (run fuel r _ Matched) eqn:E; try discriminate.
    + exfalso. revert E. apply (run_has_fuel (p + S (length tl))); simpl;
        [reflexivity|lia|discriminate].
    + apply IH. lia.
Qed.

Lemma exec_has_fuel (p : program) (text : list ascii) (from : nat) :
  exec p text from <> SearchOutOfFuel.
Proof.
  unfold exec, fuel_for. apply search_has_fuel.
  rewrite length_skipn. lia.
Qed.

(** The parser is not cut short either: one unit of fuel for each byte of
    the pattern and one for its end are enough, more changes nothing. *)
Lemma parse_class_shorter (s : list ascii) :
  forall (first : bool) (acc cs : ascii -> bool) (tl : list ascii),
    parse_class first acc s = Some (cs, tl) -> length tl < length s.
Proof.
  induction s as [s IH] using (induction_ltof1 _ (@length ascii)).
  unfold ltof in IH. intros first acc cs tl.
  destruct s as [|c s1]; [discriminate|]. cbn [parse_class].
  repeat match goal with
         | |- Some _ = Some _ -> _ => intros [= <- <-]; simpl; lia
         | |- None = Some _ -> _ => discriminate
         | |- parse_class _ _ ?l = Some _ -> _ =>
             let H := fresh in intros H; apply IH in H; simpl in *; lia
         | |- context [if ?b then _ else _] => destruct b
         | |- context [match ?x with _ => _ end] => destruct x eqn:?
         end.
Qed.

Lemma parse_fuel_irrelevant (f1 : nat) :
  forall (f2 : nat) (p : pstate) (s : list ascii),
    length s < f1 -> length s < f2 -> parse f1 p s = parse f2 p s.
Proof.
  induction f1 as [|f1 IH]; intros f2 p s H1 H2; [lia|].
  destruct f2 as [|f2]; [lia|].
  destruct s as [|c s1]; [reflexivity|]. simpl in H1, H2.
  cbn [parse].
  repeat match goal with
         | H : parse_class _ _ _ = Some _ |- _ =>
             apply parse_class_shorter in H
         | H : match ?l with _ => _ end = (_, _) |- _ =>
             destruct l as [|[[] [] [] [] [] [] [] []] ?]; simpl in H;
             injection H as <- <-
         | |- parse _ _ _ = parse _ _ _ => apply IH; simpl in *; lia
         | |- ?x = ?x => reflexivity
         | |- context [if ?b then _ else _] => destruct b
         | |- context [match ?x with _ => _ end] => destruct x eqn:?
         end.
Qed.

(** The patterns and targets met in the scenarios of the specification,
    on the reference engine. *)
Example engine_case_insensitive_prefix :
  (fun p => FindStringSubmatch (Regexp := engine) p "xxFOOyy") <$> compile "(?i)foo"
  = Some ["FOO"%string].
Proof. vm_compute. reflexivity. Qed.

Example engine_version_heuristic :
  List.map (fun vp => FindStringSubmatch (Regexp := engine) vp "WordPress 6.1")
           (versionPatterns (RE := engine))
  = [[]; [" 6.1"; "6.1"]; ["6.1"; "6.1"]; []]%string.
Proof. vm_compute. reflexivity. Qed.

Example engine_rejects_ill_formed :
  List.map compile ["a(b"; "a)b"; "*a"; "a**"; "[a"]%string
  = [None; None; None; None; None].
Proof. vm_compute. reflexivity. Qed.

End ReferenceEngine.

(** ** The end-to-end scenario of the specification

    [Foo] has a header pattern and implies [Bar]; from the header
    [X-Powered-By: Foo/2.1] and an empty body the engine reports both. *)
Example end_to_end_scenario :
  Fingerprint_ (RE := RE2.engine) (New (RE := RE2.engine) defaultConfig sessionCorpus)
    {[ "X-Powered-By" := ["Foo/2.1"] ]} ""
  = Some {[ "Foo"; "Bar" ]}.
Proof. vm_compute. reflexivity. Qed.

(** * Further properties of the code *)

(** ** Detection *)

Section DetectionProperties.
Context `{RE : Regexp}.

Lemma range_add_bounds {A} (hit : A -> bool) (patterns : gmap string A)
    (technologies : gset string) :
  technologies ⊆ range_add hit patterns technologies
  /\ range_add hit patterns technologies ⊆ technologies ∪ dom patterns.
Proof.
  split; intros tech; rewrite elem_of_range_add; [auto|].
  intros [H|(v & Hv & _)]; apply elem_of_union; [auto|].
  right. apply elem_of_dom. eauto.
Qed.

Lemma dom_nonempty_maps {A B} (field : A -> gmap string B) (apps : gmap string A) :
  dom (nonempty_maps field apps) ⊆ dom apps.
Proof.
  intros k. rewrite !elem_of_dom. unfold nonempty_maps. intros [v Hv].
  apply lookup_omap_Some in Hv as (a & _ & Ha). eauto.
Qed.

Lemma dom_nonempty_lists {A B} (field : A -> list B) (apps : gmap string A) :
  dom (nonempty_lists field apps) ⊆ dom apps.
Proof.
  intros k. rewrite !elem_of_dom. unfold nonempty_lists. intros [v Hv].
  apply lookup_omap_Some in Hv as (a & _ & Ha). eauto.
Qed.

(** X1.  The result of [detectTechnologies] is the accumulator together
    with the matches of the header and cookie channels and of each of the
    HTML, script (inline and source), meta and JS channels whose disable
    flag is not set: a set flag removes the contribution of its channel and
    nothing else. *)
Theorem disabled_channel_contributes_nothing (w : Wappalyze)
    (headers : gmap string (list string)) (body : string)
    (technologies : gset string) :
  detectTechnologies w headers body technologies
  = technologies
    ∪ MatchHeaders (headerPatterns w) headers ∅
    ∪ MatchCookies (cookiePatterns w) (ExtractCookiesFromHeaders headers) ∅
    ∪ (if DisableHTMLDetection (config w) then ∅
       else MatchHTML (htmlPatterns w) body ∅)
    ∪ (if DisableScriptDetection (config w) then ∅
       else MatchScripts (scriptPatterns w) body ∅
            ∪ MatchScriptSrc (scriptSrcPatterns w) (ExtractScripts body) ∅)
    ∪ (if DisableMetaDetection (config w) then ∅
       else MatchMetaTags (metaPatterns w) (ExtractMetaTags body) ∅)
    ∪ (if DisableJSDetection (config w) then ∅
       else MatchJS (jsPatterns w) (ExtractJS body) ∅).
Proof. apply detectTechnologies_channels. Qed.

Lemma detectTechnologies_bounds (c : Config) (apps : gmap string Fingerprint)
    (headers : gmap string (list string)) (body : string)
    (technologies : gset string) :
  technologies ⊆ detectTechnologies (New c apps) headers body technologies
  /\ detectTechnologies (New c apps) headers body technologies
     ⊆ technologies ∪ dom apps.
Proof.
  assert (dom (CompileFingerprints apps) = dom apps) as Hdom
      by apply dom_fmap_L.
  rewrite detectTechnologies_channels. split.
  - intros x Hx. rewrite !elem_of_union. tauto.
  - intros x. rewrite !elem_of_union.
    assert (forall {A} (hit : A -> bool) (p : gmap string A),
              dom p ⊆ dom apps -> x ∈ range_add hit p ∅ -> x ∈ dom apps) as Hin.
    { intros A hit p Hp Hx. apply Hp.
      apply (proj2 (range_add_bounds hit p ∅)) in Hx.
      apply elem_of_union in Hx as [Hx|Hx]; [|exact Hx].
      exfalso. exact (not_elem_of_empty (C := gset string) _ Hx). }
    pose proof (@dom_nonempty_maps CompiledFingerprint) as Hm.
    pose proof (@dom_nonempty_lists CompiledFingerprint) as Hl.
    unfold MatchHeaders, MatchCookies, MatchHTML, MatchScripts, MatchScriptSrc,
      MatchMetaTags, MatchJS. simpl.
    destruct (DisableHTMLDetection c), (DisableScriptDetection c),
      (DisableMetaDetection c), (DisableJSDetection c);
      rewrite ?elem_of_union;
      intros H;
      repeat match type of H with
        | _ \/ _ => destruct H as [H|H]
        end;
      try (left; exact H);
      try (exfalso; exact (not_elem_of_empty (C := gset string) _ H));
      right; revert H; apply Hin; rewrite <- Hdom;
      first [apply Hm | apply Hl].
Qed.

(** X2.  Detection only adds to the accumulator, and on an engine built by
    [New] every name it adds is the name of a technology of the corpus. *)
Theorem detected_names_are_corpus_names (c : Config) (apps : gmap string Fingerprint)
    (headers : gmap string (list string)) (body : string)
    (technologies : gset string) :
  technologies ⊆ detectTechnologies (New c apps) headers body technologies
  /\ detectTechnologies (New c apps) headers body technologies
     ⊆ technologies ∪ dom apps.
Proof. apply detectTechnologies_bounds. Qed.

End DetectionProperties.

(** ** Implication closure *)

Lemma expand_more_fuel (implies : gmap string (list string)) (fuel : nat) :
  forall (queue : list string) (technologies result : gset string) (extra : nat),
    expand fuel implies queue technologies = Some result ->
    expand (fuel + extra) implies queue technologies = Some result.
Proof.
  induction fuel as [|fuel IH]; intros queue technologies result extra;
    destruct queue as [|current queue]; simpl.
  - intros [= <-]. apply expand_nil.
  - discriminate.
  - intros [= <-]. reflexivity.
  - destruct (match implies !! current with
              | Some implied => foldl enqueue_implied (technologies, queue) implied
              | None => (technologies, queue)
              end) as [t' q']. apply IH.
Qed.

(** X3.  The queue loop of [addImpliedTechnologies] ends: it needs at most
    as many iterations as there are names in the queue and implied names
    not yet in the set, and with more it gives the same set. *)
Theorem expansion_stops_within_bound (implies : gmap string (list string))
    (queue : list string) (technologies : gset string) (extra : nat) :
  let bound := (size (implied_names implies ∖ technologies) + length queue)%nat in
  is_Some (expand bound implies queue technologies)
  /\ expand (bound + extra) implies queue technologies
     = expand bound implies queue technologies.
Proof.
  intros bound.
  destruct (expand_total implies bound queue technologies (le_n _)) as [r Hr].
  split; [eauto|]. rewrite Hr. apply expand_more_fuel, Hr.
Qed.

(** X4.  [Fingerprint] always returns, and what it returns is the least
    set that contains the directly detected technologies and is closed
    under the implies relation; an implied name is added whether or not a
    technology of that name is in the corpus. *)
Theorem Fingerprint_least_closed_superset `{RE : Regexp} (w : Wappalyze)
    (headers : gmap string (list string)) (body : string) :
  exists result : gset string,
    Fingerprint_ w headers body = Some result
    /\ detectTechnologies w headers body ∅ ⊆ result
    /\ closed_under (impliesMapping w) result
    /\ forall closed : gset string,
         detectTechnologies w headers body ∅ ⊆ closed ->
         closed_under (impliesMapping w) closed -> result ⊆ closed.
Proof.
  unfold Fingerprint_.
  destruct (addImpliedTechnologies_total w
              (elements (detectTechnologies w headers body ∅))
              (detectTechnologies w headers body ∅)) as [result Hr].
  exists result. split; [exact Hr|].
  apply (addImpliedTechnologies_closure w _ _ _ (fun x => elem_of_elements _ x) Hr).
Qed.

Lemma implied_names_spec (implies : gmap string (list string)) (name : string) :
  name ∈ implied_names implies <->
  exists tech implied, implies !! tech = Some implied /\ name ∈ implied.
Proof.
  split; [|intros (tech & implied & Ht & Hn); exact (elem_of_implied_names _ _ _ _ Ht Hn)].
  unfold implied_names.
  apply (map_fold_weak_ind
           (fun acc m => name ∈ acc ->
              exists tech implied, m !! tech = Some implied /\ name ∈ implied)).
  - intros H. exfalso. exact (not_elem_of_empty (C := gset string) _ H).
  - intros i l m acc Hi IH Hn. apply elem_of_union in Hn as [Hn|Hn].
    + exists i, l. rewrite lookup_insert_eq. split; [reflexivity|].
      apply elem_of_list_to_set in Hn. exact Hn.
    + destruct (IH Hn) as (tech & implied & Ht & Hin). exists tech, implied.
      split; [|exact Hin]. rewrite lookup_insert_ne; [exact Ht|].
      intros ->. congruence.
Qed.

(** X5.  On an engine built by [New], every name [Fingerprint] reports is
    the name of a technology of the corpus or a name listed in the implies
    field of a technology. *)
Theorem reported_names_are_known_or_implied `{RE : Regexp} (c : Config)
    (apps : gmap string Fingerprint) (headers : gmap string (list string))
    (body : string) :
  exists result : gset string,
    Fingerprint_ (New c apps) headers body = Some result
    /\ forall name, name ∈ result ->
         name ∈ dom apps
         \/ exists tech implied,
              impliesMapping (New c apps) !! tech = Some implied /\ name ∈ implied.
Proof.
  destruct (addImpliedTechnologies_total (New c apps)
              (elements (detectTechnologies (New c apps) headers body ∅))
              (detectTechnologies (New c apps) headers body ∅)) as [result Hr].
  exists result. split; [exact Hr|].
  destruct (addImpliedTechnologies_closure _ _ _ _ (fun x => elem_of_elements _ x) Hr)
    as (_ & _ & Hleast).
  intros name Hn.
  assert (name ∈ dom apps ∪ implied_names (impliesMapping (New c apps))) as Hin.
  { revert name Hn. apply Hleast.
    - intros x Hx. apply (proj2 (detectTechnologies_bounds c apps headers body ∅)) in Hx.
      rewrite !elem_of_union in *. destruct Hx as [Hx|Hx]; [|auto].
      exfalso. exact (not_elem_of_empty (C := gset string) _ Hx).
    - intros tech implied name _ Ht Hn. apply elem_of_union. right.
      exact (elem_of_implied_names _ _ _ _ Ht Hn). }
  apply elem_of_union in Hin as [Hin|Hin]; [auto|].
  right. apply implied_names_spec. exact Hin.
Qed.

(** ** The pattern interpreter *)

Section ParserProperties.
Context `{RE : Regexp}.
Import GoStrings.

(** X6.  The confidence of an accepted pattern is 100 when it carries no
    static version, and 80 or 70 when it carries one; no other value
    occurs. *)
Theorem parsed_confidence_values (p : string) (pp : ParsedPattern) :
  ParsePattern p = Some pp ->
  (Version pp = "" /\ Confidence pp = 100)
  \/ (Version pp <> "" /\ (Confidence pp = 80 \/ Confidence pp = 70)).
Proof. apply ParsePattern_Confidence. Qed.

(** X7.  [ParsePattern] fails exactly on the patterns that are classified
    as regex and whose cleaned text does not compile; a pattern classified
    as literal is always accepted, and is stored as it was written. *)
Theorem ParsePattern_fails_only_on_bad_regex (p : string) :
  (ParsePattern p = None <->
   isRegexPattern p = true /\ CompileRegex (cleanPatternString p) = None)
  /\ (isRegexPattern p = false ->
      exists pp, ParsePattern p = Some pp /\ Pattern pp = p /\ IsLiteral pp = true).
Proof.
  split.
  - unfold ParsePattern. destruct (extractVersionInfo p) as [v c].
    destruct (bool_decide (v <> "")); simpl;
      destruct (isRegexPattern p); simpl;
      try destruct (CompileRegex (cleanPatternString p));
      split; try discriminate; try tauto; intros [? ?]; discriminate.
  - intros H. destruct (ParsePattern_literal p H) as [pp Hpp]. exists pp.
    apply ParsePattern_Some in Hpp as Hf. destruct Hf as (Hl & _ & Hp & _).
    rewrite H in Hl, Hp. auto.
Qed.

(** X8.  A pattern that [ParsePattern] accepted as a regex never takes the
    compile-error exit of [EvaluatePattern]: its stored text compiles, the
    verdict is the verdict of the compiled expression, and a negative
    verdict comes with the empty version. *)
Theorem parsed_regex_evaluates_by_matching (p : string) (pp : ParsedPattern) :
  ParsePattern p = Some pp ->
  IsLiteral pp = false ->
  exists r, CompileRegex (Pattern pp) = Some r
            /\ forall target,
                 fst (EvaluatePattern pp target) = MatchString r target
                 /\ (MatchString r target = false ->
                     EvaluatePattern pp target = (false, "")).
Proof.
  intros H Hl. apply ParsePattern_Some in H as (Hl' & _ & Hp & Hc & _).
  rewrite Hl in Hl'. symmetry in Hl'. apply negb_false_iff in Hl'.
  rewrite Hl' in Hp. destruct (Hc Hl') as [r Hr]. exists r.
  rewrite Hp. split; [exact Hr|]. intros target.
  unfold EvaluatePattern. rewrite Hl, Hp, Hr.
  destruct (MatchString r target); simpl; auto. split; [reflexivity|discriminate].
Qed.

(** X9.  A static version is never replaced by a version read from the
    target: whenever a pattern with a non-empty version matches, literal
    or regex, the version returned is the version of the pattern. *)
Theorem static_version_wins_on_match (pp : ParsedPattern) (target : string) :
  Version pp <> "" ->
  fst (EvaluatePattern pp target) = true ->
  snd (EvaluatePattern pp target) = Version pp.
Proof.
  intros Hv. unfold EvaluatePattern.
  destruct (IsLiteral pp); [destruct (IsCaseSensitive pp); reflexivity|].
  destruct (CompileRegex (Pattern pp)); [|discriminate].
  destruct (MatchString _ _); [|discriminate]. intros _. simpl.
  destruct (bool_decide (Version pp = "")) eqn:E; [|reflexivity].
  apply bool_decide_eq_true in E. contradiction.
Qed.

(** X10.  The cache of [CompileRegex] is transparent: with a cache that
    holds only answers of earlier calls, a call answers what compiling the
    normalized pattern answers, a failed compilation is not stored, and the
    cache it leaves is again of this kind. *)
Theorem regex_cache_is_transparent (cache : gmap string regex) (p : string) :
  cache_coherent cache ->
  fst (CompileRegex_cached cache p) = Compile (normalizePattern p)
  /\ (Compile (normalizePattern p) = None -> snd (CompileRegex_cached cache p) = cache)
  /\ cache_coherent (snd (CompileRegex_cached cache p)).
Proof.
  intros Hc. destruct (CompileRegex_cached_coherent cache p Hc) as [H1 H2].
  split; [exact H1|]. split; [|exact H2].
  intros Hn. unfold CompileRegex_cached.
  destruct (cache !! p) as [r|] eqn:Hp; [reflexivity|]. rewrite Hn. reflexivity.
Qed.

(** X11.  The empty pattern, which the corpus uses for "the key is
    present", is accepted and matches every target. *)
Theorem empty_pattern_matches_everything :
  exists pp, ParsePattern "" = Some pp
             /\ forall target, fst (EvaluatePattern pp target) = true.
Proof.
  destruct (ParsePattern_literal "" eq_refl) as [pp Hpp]. exists pp.
  split; [exact Hpp|]. intros target.
  apply ParsePattern_Some in Hpp as (Hl & Hcs & Hp & _).
  unfold EvaluatePattern. rewrite Hl, Hcs, Hp. simpl.
  destruct (ToLower target); reflexivity.
Qed.

End ParserProperties.

Lemma parsed_confidence_values_witness :
  exists pp, ParsePattern (RE := RE2.engine) "foo\;version:1.2\;confidence:50" = Some pp
             /\ ((Version pp = "" /\ Confidence pp = 100)
                 \/ (Version pp <> "" /\ (Confidence pp = 80 \/ Confidence pp = 70))).
Proof.
  eexists. split; [vm_compute; reflexivity|].
  apply (parsed_confidence_values (RE := RE2.engine)
           "foo\;version:1.2\;confidence:50").
  vm_compute. reflexivity.
Defined.

Lemma ParsePattern_fails_only_on_bad_regex_witness :
  isRegexPattern "nginx" = false
  /\ exists pp, ParsePattern (RE := RE2.engine) "nginx" = Some pp
                /\ Pattern pp = "nginx" /\ IsLiteral pp = true.
Proof.
  split; [reflexivity|].
  apply (ParsePattern_fails_only_on_bad_regex (RE := RE2.engine) "nginx").
  reflexivity.
Defined.

Lemma parsed_regex_evaluates_by_matching_witness :
  exists pp r,
    ParsePattern (RE := RE2.engine) "^nginx(?:/([\d.]+))?" = Some pp
    /\ IsLiteral pp = false
    /\ CompileRegex (RE := RE2.engine) (Pattern pp) = Some r
    /\ forall target,
         fst (EvaluatePattern (RE := RE2.engine) pp target)
         = MatchString (Regexp := RE2.engine) r target
         /\ (MatchString (Regexp := RE2.engine) r target = false ->
             EvaluatePattern (RE := RE2.engine) pp target = (false, "")).
Proof.
  eexists.
  destruct (parsed_regex_evaluates_by_matching (RE := RE2.engine)
              "^nginx(?:/([\d.]+))?" _ ltac:(vm_compute; reflexivity) eq_refl)
    as (r & Hr & H).
  exists r. split; [reflexivity|]. split; [reflexivity|]. split; [exact Hr|exact H].
Defined.

Lemma static_version_wins_on_match_witness :
  let pp := {| Pattern := "foo"; IsLiteral := false; IsCaseSensitive := false;
               Version := "1.2"; Confidence := 80; SkipRegex := false |} in
  Version pp <> ""
  /\ fst (EvaluatePattern (RE := RE2.engine) pp "Foo 9.9") = true
  /\ snd (EvaluatePattern (RE := RE2.engine) pp "Foo 9.9") = "1.2".
Proof.
  intros pp. split; [discriminate|]. split; [vm_compute; reflexivity|].
  apply (static_version_wins_on_match (RE := RE2.engine) pp "Foo 9.9");
    [discriminate|vm_compute; reflexivity].
Defined.

Lemma regex_cache_is_transparent_witness :
  cache_coherent (RE := RE2.engine) ∅
  /\ fst (CompileRegex_cached (RE := RE2.engine) ∅ "a.b")
     = Compile (Regexp := RE2.engine) (normalizePattern "a.b")
  /\ (Compile (Regexp := RE2.engine) (normalizePattern "a.b") = None ->
      snd (CompileRegex_cached (RE := RE2.engine) ∅ "a.b") = ∅)
  /\ cache_coherent (RE := RE2.engine) (snd (CompileRegex_cached (RE := RE2.engine) ∅ "a.b")).
Proof.
  assert (cache_coherent (RE := RE2.engine) ∅) as H.
  { intros p r Hp. rewrite lookup_empty in Hp. discriminate. }
  split; [exact H|].
  apply (regex_cache_is_transparent (RE := RE2.engine) ∅ "a.b" H).
Defined.

(** ** Headers and cookies *)

Section HeaderProperties.
Context `{RE : Regexp}.
Import GoStrings.

(** The copy under lower-cased keys holds only values of the original, and
    holds the value of every key whose lower-casing no other key shares. *)
Lemma normalize_keys_lookup {A} (m : gmap string A) :
  (forall k v, normalize_keys m !! k = Some v ->
     exists name, m !! name = Some v /\ ToLower name = k)
  /\ (forall name v,
        m !! name = Some v ->
        (forall name', is_Some (m !! name') -> ToLower name' = ToLower name ->
                       name' = name) ->
        normalize_keys m !! ToLower name = Some v).
Proof.
  unfold normalize_keys.
  apply (map_fold_weak_ind
           (fun acc m =>
              (forall k v, acc !! k = Some v ->
                 exists name, m !! name = Some v /\ ToLower name = k)
              /\ (forall name v,
                    m !! name = Some v ->
                    (forall name', is_Some (m !! name') ->
                                   ToLower name' = ToLower name -> name' = name) ->
                    acc !! ToLower name = Some v))).
  - split; intros ? ? H; rewrite lookup_empty in H; discriminate.
  - intros i x m' acc Hi [IH1 IH2]. split.
    + intros k v. destruct (decide (ToLower i = k)) as [<-|Hne].
      * rewrite lookup_insert_eq. intros [= <-]. exists i.
        rewrite lookup_insert_eq. auto.
      * rewrite lookup_insert_ne by exact Hne. intros H.
        destruct (IH1 _ _ H) as (name & Hn & Hk). exists name.
        split; [|exact Hk]. rewrite lookup_insert_ne; [exact Hn|].
        intros ->. congruence.
    + intros name v Hn Huniq. destruct (decide (i = name)) as [->|Hne].
      * rewrite lookup_insert_eq in Hn. injection Hn as ->.
        apply lookup_insert_eq.
      * rewrite lookup_insert_ne in Hn by exact Hne.
        rewrite lookup_insert_ne.
        -- apply IH2; [exact Hn|]. intros name' Hs He. apply Huniq; [|exact He].
           destruct (decide (i = name')) as [->|Hne'];
             [rewrite lookup_insert_eq; eauto|
              rewrite lookup_insert_ne by exact Hne'; exact Hs].
        -- intros He. apply Hne. apply Huniq; [|exact He].
           rewrite lookup_insert_eq. eauto.
Qed.

(** On a map whose keys are lower-cased already the copy is the map. *)
Lemma normalize_keys_lower {A} (m : gmap string A) :
  (forall k, is_Some (m !! k) -> ToLower k = k) -> normalize_keys m = m.
Proof.
  unfold normalize_keys.
  apply (map_fold_weak_ind
           (fun acc m => (forall k, is_Some (m !! k) -> ToLower k = k) -> acc = m)).
  - intros _. reflexivity.
  - intros i x m' acc Hi IH Hl.
    rewrite (Hl i) by (rewrite lookup_insert_eq; eauto).
    rewrite IH; [reflexivity|]. intros k Hk. apply Hl.
    rewrite lookup_insert_ne; [exact Hk|]. intros ->.
    rewrite Hi in Hk. destruct Hk. discriminate.
Qed.

Lemma existsb_elem_of {A} (f : A -> bool) (l : list A) :
  existsb f l = true <-> exists x, x ∈ l /\ f x = true.
Proof.
  rewrite existsb_exists. split; intros (x & Hx & Hf); exists x;
    (split; [apply list_elem_of_In; exact Hx|exact Hf]).
Qed.

(** X12.  Header names are compared without regard to case on both sides.
    A technology added by the header matcher has a pattern under a key and
    the response a header under a name with the same lower-casing, one of
    whose values the pattern matches; conversely such a header, when no
    other header of the response has the same lower-cased name, gets the
    technology added. *)
Theorem header_names_match_case_insensitively
    (headerPatterns : gmap string (gmap string ParsedPattern))
    (headers : gmap string (list string)) (technologies : gset string)
    (tech : string) :
  (tech ∈ MatchHeaders headerPatterns headers technologies ->
   tech ∈ technologies
   \/ exists patterns key pattern name values value,
        headerPatterns !! tech = Some patterns /\ patterns !! key = Some pattern
        /\ headers !! name = Some values /\ ToLower name = ToLower key
        /\ value ∈ values /\ matched pattern value = true)
  /\ (forall patterns key pattern name values value,
        headerPatterns !! tech = Some patterns -> patterns !! key = Some pattern ->
        headers !! name = Some values -> ToLower name = ToLower key ->
        (forall name', is_Some (headers !! name') ->
                       ToLower name' = ToLower name -> name' = name) ->
        value ∈ values -> matched pattern value = true ->
        tech ∈ MatchHeaders headerPatterns headers technologies).
Proof.
  unfold MatchHeaders. destruct (normalize_keys_lookup headers) as [Hn1 Hn2]. split.
  - intros H. apply elem_of_range_add in H as [H|(patterns & Hp & Hh)]; [auto|].
    right. apply range_any_true in Hh as (key & pattern & Hk & Ht).
    destruct (normalize_keys headers !! ToLower key) as [values|] eqn:Hv;
      [|discriminate].
    apply existsb_elem_of in Ht as (value & Hin & Hm).
    destruct (Hn1 _ _ Hv) as (name & Hname & Hl).
    exists patterns, key, pattern, name, values, value. repeat split; assumption.
  - intros patterns key pattern name values value Hp Hk Hh Hl Hu Hin Hm.
    apply elem_of_range_add. right. exists patterns. split; [exact Hp|].
    apply range_any_true. exists key, pattern. split; [exact Hk|].
    rewrite <- Hl, (Hn2 _ _ Hh Hu). apply existsb_elem_of. eauto.
Qed.

Lemma foldl_preserves {A B} (P : A -> Prop) (f : A -> B -> A) (l : list B) :
  forall a, P a -> (forall a b, P a -> P (f a b)) -> P (foldl f a l).
Proof.
  induction l as [|b l IH]; simpl; intros a Ha Hf; [exact Ha|].
  apply IH; [apply Hf, Ha|exact Hf].
Qed.

Lemma insert_lower_keys {A} (m : gmap string A) (name : string) (v : A) :
  (forall k, is_Some (m !! k) -> ToLower k = k) ->
  forall k, is_Some (<[ToLower name := v]> m !! k) -> ToLower k = k.
Proof.
  intros H k. destruct (decide (ToLower name = k)) as [<-|Hne].
  - intros _. apply ToLower_idempotent.
  - rewrite lookup_insert_ne by exact Hne. apply H.
Qed.

Lemma ExtractCookiesFromHeaders_lower (headers : gmap string (list string)) :
  forall k, is_Some (ExtractCookiesFromHeaders headers !! k) -> ToLower k = k.
Proof.
  unfold ExtractCookiesFromHeaders.
  assert (forall m : gmap string string,
            (forall k, is_Some (m !! k) -> ToLower k = k) ->
            forall l k, is_Some (foldl add_set_cookie m l !! k) -> ToLower k = k) as Hset.
  { intros m Hm l.
    apply (foldl_preserves (fun m => forall k, is_Some (m !! k) -> ToLower k = k));
      [exact Hm|].
    intros a b Ha. unfold add_set_cookie.
    destruct (SplitN2 b ";") as [|first rest]; [exact Ha|].
    destruct (SplitN2 first "=") as [|name [|value rest']]; try exact Ha.
    apply insert_lower_keys, Ha. }
  assert (forall m : gmap string string,
            (forall k, is_Some (m !! k) -> ToLower k = k) ->
            forall l k, is_Some (foldl add_cookie_pair m l !! k) -> ToLower k = k) as Hpair.
  { intros m Hm l.
    apply (foldl_preserves (fun m => forall k, is_Some (m !! k) -> ToLower k = k));
      [exact Hm|].
    intros a b Ha. unfold add_cookie_pair.
    destruct (bool_decide (TrimSpace b = "")); [exact Ha|].
    destruct (SplitN2 (TrimSpace b) "=") as [|name [|value rest']]; try exact Ha.
    apply insert_lower_keys, Ha. }
  assert (forall k, is_Some ((∅ : gmap string string) !! k) -> ToLower k = k) as Hempty.
  { intros k [v Hv]. rewrite lookup_empty in Hv. discriminate. }
  destruct (headers !! "Cookie") as [cookieHeaders|];
    destruct (headers !! "Set-Cookie") as [setCookieHeaders|];
    try apply Hset; try exact Hempty;
    apply (foldl_preserves (fun m => forall k, is_Some (m !! k) -> ToLower k = k));
    try exact Hempty; intros a b Ha; apply Hpair, Ha.
Qed.

Lemma synthesized_cookie_names_are_lower_case_aux
    (headers : gmap string (list string)) :
  (forall name, is_Some (ExtractCookiesFromHeaders headers !! name) ->
                ToLower name = name)
  /\ normalize_keys (ExtractCookiesFromHeaders headers)
     = ExtractCookiesFromHeaders headers.
Proof.
  split; [apply ExtractCookiesFromHeaders_lower|].
  apply normalize_keys_lower, ExtractCookiesFromHeaders_lower.
Qed.

(** X13.  Every name in the cookie mapping synthesized from the headers is
    lower-cased, so the normalization at the start of the cookie matcher
    leaves that mapping as it is. *)
Theorem synthesized_cookie_names_are_lower_case
    (headers : gmap string (list string)) :
  (forall name, is_Some (ExtractCookiesFromHeaders headers !! name) ->
                ToLower name = name)
  /\ normalize_keys (ExtractCookiesFromHeaders headers)
     = ExtractCookiesFromHeaders headers.
Proof.
  split; [apply ExtractCookiesFromHeaders_lower|].
  apply normalize_keys_lower, ExtractCookiesFromHeaders_lower.
Qed.

End HeaderProperties.

Section Splitting.
Import GoStrings.

Lemma list_ascii_of_string_append (a b : string) :
  list_ascii_of_string (a +:+ b) = (list_ascii_of_string a ++ list_ascii_of_string b)%list.
Proof. induction a as [|x a IH]; simpl; [reflexivity|]. rewrite IH. reflexivity. Qed.

Lemma append_empty_r (s : string) : s +:+ "" = s.
Proof.
  induction s as [|x s IH]; [reflexivity|].
  change (String x (s +:+ "") = String x s). f_equal. exact IH.
Qed.

Lemma append_assoc_str (a b c : string) : (a +:+ b) +:+ c = a +:+ (b +:+ c).
Proof.
  induction a as [|x a IH]; [reflexivity|].
  change (String x ((a +:+ b) +:+ c) = String x (a +:+ (b +:+ c))).
  f_equal. exact IH.
Qed.

Lemma Index_char_cut (a b : string) (c : ascii) :
  c ∉ list_ascii_of_string a ->
  Index (a +:+ String c b) (String c "") = Z.of_nat (String.length a).
Proof.
  induction a as [|x a IH]; simpl; intros Hc.
  - destruct (ascii_dec c c) as [_|Hne]; [|contradiction].
    rewrite prefix_empty. reflexivity.
  - rewrite not_elem_of_cons in Hc. destruct Hc as [Hne Hc].
    destruct (ascii_dec c x) as [->|_]; [contradiction|].
    rewrite (IH Hc). destruct (Z.ltb_spec (Z.of_nat (String.length a)) 0); lia.
Qed.

Lemma Index_char_absent (s : string) (c : ascii) :
  c ∉ list_ascii_of_string s -> Index s (String c "") = -1.
Proof.
  induction s as [|x s IH]; simpl; intros Hc; [reflexivity|].
  rewrite not_elem_of_cons in Hc. destruct Hc as [Hne Hc].
  destruct (ascii_dec c x) as [->|_]; [contradiction|].
  rewrite (IH Hc). reflexivity.
Qed.

Lemma take_str_append (a b : string) : take_str (String.length a) (a +:+ b) = a.
Proof. induction a as [|x a IH]; simpl; [destruct b; reflexivity|]. rewrite IH. reflexivity. Qed.

Lemma drop_str_append (a b : string) (n : nat) :
  drop_str (String.length a + n) (a +:+ b) = drop_str n b.
Proof. induction a as [|x a IH]; simpl; [reflexivity|exact IH]. Qed.

(** [strings.SplitN(s, sep, 2)] cuts at the first separator only, and
    returns the text whole when it has no separator. *)
Lemma SplitN2_cut (a b : string) (c : ascii) :
  c ∉ list_ascii_of_string a ->
  SplitN2 (a +:+ String c b) (String c "") = [a; b].
Proof.
  intros Hc. unfold SplitN2. rewrite (Index_char_cut a b c Hc).
  destruct (Z.ltb_spec (Z.of_nat (String.length a)) 0); [lia|].
  rewrite Nat2Z.id, take_str_append, drop_str_append. reflexivity.
Qed.

Lemma SplitN2_absent (s : string) (c : ascii) :
  c ∉ list_ascii_of_string s -> SplitN2 s (String c "") = [s].
Proof. intros Hc. unfold SplitN2. rewrite (Index_char_absent s c Hc). reflexivity. Qed.

(** X14.  The last [Set-Cookie] header that names a cookie decides its
    value, whatever the [Cookie] header and the earlier [Set-Cookie]
    headers hold: the name is the text before the first [=] of the first
    [;]-segment, the value the rest of that segment, both trimmed, the name
    lower-cased. *)
Theorem last_set_cookie_wins (headers : gmap string (list string))
    (earlier : list string) (name value tail : string) :
  "="%char ∉ list_ascii_of_string name ->
  ";"%char ∉ list_ascii_of_string name ->
  ";"%char ∉ list_ascii_of_string value ->
  tail = "" \/ (exists attributes, tail = ";" +:+ attributes) ->
  headers !! "Set-Cookie" = Some (earlier ++ [name +:+ "=" +:+ value +:+ tail])%list ->
  ExtractCookiesFromHeaders headers !! ToLower (TrimSpace name)
  = Some (TrimSpace value).
Proof.
  intros He Hs1 Hs2 Htail Hh. unfold ExtractCookiesFromHeaders. rewrite Hh.
  generalize (match headers !! "Cookie" with
              | Some cookieHeaders =>
                  foldl (fun cookies cookieHeader =>
                           foldl add_cookie_pair cookies (Split cookieHeader ";"))
                        ∅ cookieHeaders
              | None => ∅
              end).
  intros m0. rewrite foldl_app. simpl. unfold add_set_cookie at 1.
  assert (SplitN2 (name +:+ "=" +:+ value +:+ tail) ";" = [name +:+ "=" +:+ value]
          \/ exists rest, SplitN2 (name +:+ "=" +:+ value +:+ tail) ";"
                          = [name +:+ "=" +:+ value; rest]) as Hsplit.
  { assert (";"%char ∉ list_ascii_of_string (name +:+ "=" +:+ value)) as Hfirst.
    { rewrite list_ascii_of_string_append. simpl.
      rewrite elem_of_app, elem_of_cons. intros [H|[H|H]]; try contradiction.
      discriminate. }
    destruct Htail as [->|[attributes ->]].
    - left. rewrite append_empty_r. apply SplitN2_absent, Hfirst.
    - right. exists attributes.
      replace (name +:+ "=" +:+ value +:+ ";" +:+ attributes)
        with ((name +:+ "=" +:+ value) +:+ String ";" attributes)
        by (rewrite !append_assoc_str; reflexivity).
      apply SplitN2_cut, Hfirst. }
  assert (SplitN2 (name +:+ "=" +:+ value) "=" = [name; value]) as Hpair
      by (apply (SplitN2_cut name value "="), He).
  destruct Hsplit as [-> | [rest ->]]; rewrite Hpair; apply lookup_insert_eq.
Qed.

(** X15.  [parseHeaders] splits a header flag at its first colon only, so a
    value may contain colons; the name and the value are trimmed; a later
    flag replaces an earlier one of the same name; a flag without a colon
    is ignored. *)
Theorem parseHeaders_first_colon (headerFlags : list string) :
  (forall name value,
     ":"%char ∉ list_ascii_of_string name ->
     parseHeaders (headerFlags ++ [name +:+ ":" +:+ value])%list !! TrimSpace name
     = Some (TrimSpace value))
  /\ (forall h, ":"%char ∉ list_ascii_of_string h ->
                parseHeaders (headerFlags ++ [h])%list = parseHeaders headerFlags).
Proof.
  split.
  - intros name value Hc. unfold parseHeaders. rewrite foldl_app. cbn [foldl].
    change (name +:+ ":" +:+ value) with (name +:+ String ":" value).
    rewrite (SplitN2_cut name value ":" Hc). apply lookup_insert_eq.
  - intros h Hc. unfold parseHeaders. rewrite foldl_app. cbn [foldl].
    rewrite (SplitN2_absent h ":" Hc). reflexivity.
Qed.

End Splitting.

Lemma header_names_match_case_insensitively_witness :
  let w := New (RE := RE2.engine) defaultConfig sessionCorpus in
  let headers : gmap string (list string) := {[ "x-POWERED-by" := ["Foo/2.1"] ]} in
  "Foo" ∈ MatchHeaders (RE := RE2.engine) (headerPatterns w) headers ∅.
Proof.
  intros w headers.
  refine (proj2 (header_names_match_case_insensitively (RE := RE2.engine)
                   (headerPatterns w) headers ∅ "Foo")
            (default ∅ (headerPatterns w !! "Foo")) "x-powered-by"
            {| Pattern := "Foo"; IsLiteral := true; IsCaseSensitive := false;
               Version := ""; Confidence := 100; SkipRegex := false |}
            "x-POWERED-by" ["Foo/2.1"] "Foo/2.1" _ _ _ _ _ _ _).
  - vm_compute. reflexivity.
  - vm_compute. reflexivity.
  - vm_compute. reflexivity.
  - vm_compute. reflexivity.
  - intros name' [v Hv] _. unfold headers in Hv.
    apply lookup_singleton_Some in Hv as [<- _]. reflexivity.
  - apply list_elem_of_singleton. reflexivity.
  - vm_compute. reflexivity.
Defined.

Lemma synthesized_cookie_names_are_lower_case_witness :
  let headers : gmap string (list string) :=
    {[ "Cookie" := ["SID=1; Theme=dark"]; "Set-Cookie" := ["PHPSESSID=abc; Path=/"] ]} in
  is_Some (ExtractCookiesFromHeaders headers !! "phpsessid")
  /\ GoStrings.ToLower "phpsessid" = "phpsessid"
  /\ normalize_keys (ExtractCookiesFromHeaders headers)
     = ExtractCookiesFromHeaders headers.
Proof.
  intros headers.
  assert (is_Some (ExtractCookiesFromHeaders headers !! "phpsessid")) as H
      by (vm_compute; eauto).
  destruct (synthesized_cookie_names_are_lower_case headers) as [Hl Hn].
  split; [exact H|]. split; [exact (Hl _ H)|exact Hn].
Defined.

Lemma last_set_cookie_wins_witness :
  let headers : gmap string (list string) :=
    {[ "Cookie" := ["session=old"];
       "Set-Cookie" := ["session=first; Path=/"; " Session = a=b ; HttpOnly"] ]} in
  ExtractCookiesFromHeaders headers !! "session" = Some "a=b".
Proof.
  intros headers.
  apply (last_set_cookie_wins headers ["session=first; Path=/"]
           " Session " " a=b " "; HttpOnly").
  - vm_compute. intros H. repeat (apply elem_of_cons in H as [H|H]; [discriminate|]).
    inversion H.
  - vm_compute. intros H. repeat (apply elem_of_cons in H as [H|H]; [discriminate|]).
    inversion H.
  - vm_compute. intros H. repeat (apply elem_of_cons in H as [H|H]; [discriminate|]).
    inversion H.
  - right. exists " HttpOnly". reflexivity.
  - reflexivity.
Defined.

Lemma parseHeaders_first_colon_witness :
  parseHeaders (["Accept: */*"] ++ ["Referer: http://example.com:8080/"])%list
    !! "Referer" = Some "http://example.com:8080/"
  /\ parseHeaders (["Accept: */*"] ++ ["no colon here"])%list
     = parseHeaders ["Accept: */*"].
Proof.
  destruct (parseHeaders_first_colon ["Accept: */*"]) as [H1 H2]. split.
  - apply (H1 "Referer" " http://example.com:8080/").
    vm_compute. intros H. repeat (apply elem_of_cons in H as [H|H]; [discriminate|]).
    inversion H.
  - apply H2.
    vm_compute. intros H. repeat (apply elem_of_cons in H as [H|H]; [discriminate|]).
    inversion H.
Defined.

(** ** The signature compiler and the extractors *)

Section CompilerProperties.
Context `{RE : Regexp}.
Import GoStrings.

(** The compiled keyed channel, entry by entry, when [key] sends no two
    authored names to the same key: the entry under [key name] is the
    parsed pattern of [name], and is absent when that pattern is
    rejected. *)
Lemma compileKeyed_exact (key : string -> string) (raw : gmap string string) :
  (forall n1 n2, is_Some (raw !! n1) -> is_Some (raw !! n2) ->
                 key n1 = key n2 -> n1 = n2) ->
  forall name pattern,
    raw !! name = Some pattern ->
    compileKeyed key raw !! key name = ParsePattern pattern.
Proof.
  unfold compileKeyed.
  apply (map_fold_weak_ind
           (fun acc m =>
              (forall n1 n2, is_Some (m !! n1) -> is_Some (m !! n2) ->
                             key n1 = key n2 -> n1 = n2) ->
              (forall k, is_Some (acc !! k) -> exists name, is_Some (m !! name) /\ k = key name)
              /\ forall name pattern,
                   m !! name = Some pattern -> acc !! key name = ParsePattern pattern)).
  - intros _. split.
    + intros k [v Hv]. rewrite lookup_empty in Hv. discriminate.
    + intros name pattern H. rewrite lookup_empty in H. discriminate.
  - intros i x m acc Hi IH Hinj.
    assert (forall n1 n2, is_Some (m !! n1) -> is_Some (m !! n2) ->
                          key n1 = key n2 -> n1 = n2) as Hinj'.
    { intros n1 n2 H1 H2. apply Hinj.
      - rewrite lookup_insert_ne; [exact H1|]. intros ->. rewrite Hi in H1.
        destruct H1. discriminate.
      - rewrite lookup_insert_ne; [exact H2|]. intros ->. rewrite Hi in H2.
        destruct H2. discriminate. }
    destruct (IH Hinj') as [Hdom Hex].
    assert (acc !! key i = None) as Hfresh.
    { destruct (acc !! key i) eqn:E; [|reflexivity]. exfalso.
      destruct (Hdom (key i) ltac:(eauto)) as (name & Hn & Hk).
      assert (i = name) as <-.
      { apply Hinj; [rewrite lookup_insert_eq; eauto| |exact Hk].
        rewrite lookup_insert_ne; [exact Hn|]. intros ->. rewrite Hi in Hn.
        destruct Hn. discriminate. }
      rewrite Hi in Hn. destruct Hn. discriminate. }
    assert (forall name, is_Some (m !! name) -> key i <> key name) as Hother.
    { intros name Hn He.
      assert (i = name) as <-.
      { apply Hinj; [rewrite lookup_insert_eq; eauto| |exact He].
        rewrite lookup_insert_ne; [exact Hn|]. intros ->. rewrite Hi in Hn.
        destruct Hn. discriminate. }
      rewrite Hi in Hn. destruct Hn. discriminate. }
    split.
    + intros k Hk. destruct (ParsePattern x) as [pp|].
      * destruct (decide (key i = k)) as [<-|Hne].
        -- exists i. rewrite lookup_insert_eq. eauto.
        -- rewrite lookup_insert_ne in Hk by exact Hne.
           destruct (Hdom k Hk) as (name & Hn & Hkn). exists name.
           split; [|exact Hkn]. rewrite lookup_insert_ne; [exact Hn|].
           intros ->. rewrite Hi in Hn. destruct Hn. discriminate.
      * destruct (Hdom k Hk) as (name & Hn & Hkn). exists name.
        split; [|exact Hkn]. rewrite lookup_insert_ne; [exact Hn|].
        intros ->. rewrite Hi in Hn. destruct Hn. discriminate.
    + intros name pattern. destruct (decide (i = name)) as [<-|Hne].
      * rewrite lookup_insert_eq. intros [= <-].
        destruct (ParsePattern x) as [pp|]; [apply lookup_insert_eq|exact Hfresh].
      * rewrite lookup_insert_ne by exact Hne. intros Hn.
        destruct (ParsePattern x) as [pp|]; [|apply Hex, Hn].
        rewrite lookup_insert_ne; [apply Hex, Hn|]. apply Hother. eauto.
Qed.

(** X16.  Patterns are compiled independently of each other.  The compiled
    JS pattern of a variable is the parsed pattern authored for that
    variable, and is absent exactly when the variable has no pattern or its
    pattern is rejected; the same holds for a header and for a cookie under
    the lower-cased name, when no other authored name of that channel has
    the same lower-casing. *)
Theorem keyed_patterns_compile_independently (app : Fingerprint) :
  (forall jsName,
     JSPatterns (compileApp app) !! jsName = JS app !! jsName ≫= ParsePattern)
  /\ (forall name pattern,
        Headers app !! name = Some pattern ->
        (forall name', is_Some (Headers app !! name') ->
                       ToLower name' = ToLower name -> name' = name) ->
        HeaderPatterns (compileApp app) !! ToLower name = ParsePattern pattern)
  /\ (forall name pattern,
        Cookies app !! name = Some pattern ->
        (forall name', is_Some (Cookies app !! name') ->
                       ToLower name' = ToLower name -> name' = name) ->
        CookiePatterns (compileApp app) !! ToLower name = ParsePattern pattern).
Proof.
  assert (forall (raw : gmap string string) name pattern,
            raw !! name = Some pattern ->
            (forall name', is_Some (raw !! name') ->
                           ToLower name' = ToLower name -> name' = name) ->
            compileKeyed ToLower raw !! ToLower name = ParsePattern pattern) as Hlower.
  { intros raw name pattern Hn Hu.
    destruct (compileKeyed ToLower raw !! ToLower name) as [pp|] eqn:E.
    - apply compileKeyed_lookup in E as (name' & pattern' & Hn' & Hk & Hp).
      assert (name' = name) as -> by (apply Hu; eauto).
      congruence.
    - destruct (ParsePattern pattern) as [pp|] eqn:Hp; [|reflexivity].
      exfalso. revert E.
      unfold compileKeyed.
      apply (map_fold_weak_ind
               (fun acc m => m !! name = Some pattern -> acc !! ToLower name <> None));
        [intros H; rewrite lookup_empty in H; discriminate| |exact Hn].
      intros i x m acc Hi IH. destruct (decide (i = name)) as [->|Hne].
      + rewrite lookup_insert_eq. intros [= ->]. rewrite Hp, lookup_insert_eq.
        discriminate.
      + rewrite lookup_insert_ne by exact Hne. intros Hm.
        destruct (ParsePattern x); [|exact (IH Hm)].
        destruct (decide (ToLower i = ToLower name)) as [->|Hk];
          [rewrite lookup_insert_eq; discriminate|].
        rewrite lookup_insert_ne by exact Hk. exact (IH Hm). }
  split; [|split; intros name pattern; apply Hlower].
  intros jsName. simpl.
  destruct (JS app !! jsName) as [pattern|] eqn:Hj; simpl.
  - apply (compileKeyed_exact (fun jsName => jsName)); [auto|exact Hj].
  - destruct (compileKeyed _ (JS app) !! jsName) as [pp|] eqn:E; [|reflexivity].
    apply compileKeyed_lookup in E as (name & pattern & Hn & -> & _). congruence.
Qed.

(** X17.  The names of the extracted meta tags are lower-cased, so the
    normalization at the start of the meta matcher leaves the mapping as it
    is; and every extracted script record has a source or a content. *)
Theorem extracted_artifacts_are_normalized (body : string) :
  (forall name, is_Some (ExtractMetaTags body !! name) -> ToLower name = name)
  /\ normalize_keys (ExtractMetaTags body) = ExtractMetaTags body
  /\ (forall script, script ∈ ExtractScripts body ->
                     Source script <> "" \/ Content script <> "").
Proof.
  assert (forall name, is_Some (ExtractMetaTags body !! name) -> ToLower name = name)
    as Hl.
  { unfold ExtractMetaTags.
    apply (foldl_preserves (fun m : gmap string string =>
                              forall k, is_Some (m !! k) -> ToLower k = k)).
    - intros k [v Hv]. rewrite lookup_empty in Hv. discriminate.
    - intros a m Ha.
      destruct (bool_decide (group m 1 <> "") && bool_decide (group m 2 <> ""));
        [apply insert_lower_keys, Ha|].
      destruct (bool_decide (group m 3 <> "") && bool_decide (group m 4 <> ""));
        [apply insert_lower_keys, Ha|exact Ha]. }
  split; [exact Hl|]. split; [apply normalize_keys_lower, Hl|].
  intros script Hs. unfold ExtractScripts in Hs.
  apply list_elem_of_omap in Hs as (m & _ & Hm). simpl in Hm.
  destruct (bool_decide (group m 1 <> "")) eqn:E1; simpl in Hm.
  - injection Hm as <-. left. apply bool_decide_eq_true in E1. exact E1.
  - destruct (bool_decide (group m 2 <> "")) eqn:E2; simpl in Hm; [|discriminate].
    injection Hm as <-. right. apply bool_decide_eq_true in E2. exact E2.
Qed.

End CompilerProperties.

Lemma keyed_patterns_compile_independently_witness :
  let app := default emptyFingerprint (keyedCorpus !! "jQuery") in
  Headers app !! "X-Powered-By" = Some "jq"
  /\ HeaderPatterns (compileApp (RE := RE2.engine) app) !! "x-powered-by"
     = ParsePattern (RE := RE2.engine) "jq".
Proof.
  intros app. split; [reflexivity|].
  apply (proj1 (proj2 (keyed_patterns_compile_independently (RE := RE2.engine) app))
           "X-Powered-By" "jq"); [reflexivity|].
  intros name' [v Hv] _.
  change (({[ "X-Powered-By" := "jq" ]} : gmap string string) !! name' = Some v) in Hv.
  apply lookup_singleton_Some in Hv as [<- _]. reflexivity.
Defined.

Lemma extracted_artifacts_are_normalized_witness :
  let body := "<meta name='Generator' content='WordPress 6.1'><script src='a.js'></script>" in
  is_Some (ExtractMetaTags (RE := RE2.engine) body !! "generator")
  /\ GoStrings.ToLower "generator" = "generator"
  /\ {| Source := "a.js"; Content := "" |} ∈ ExtractScripts (RE := RE2.engine) body
  /\ (Source {| Source := "a.js"; Content := "" |} <> ""
      \/ Content {| Source := "a.js"; Content := "" |} <> "").
Proof.
  intros body.
  destruct (extracted_artifacts_are_normalized (RE := RE2.engine) body)
    as (Hl & _ & Hs).
  assert (is_Some (ExtractMetaTags (RE := RE2.engine) body !! "generator")) as Hm
      by (vm_compute; eauto).
  assert ({| Source := "a.js"; Content := "" |} ∈ ExtractScripts (RE := RE2.engine) body)
    as Hin by (vm_compute; apply list_elem_of_singleton; reflexivity).
  split; [exact Hm|]. split; [exact (Hl _ Hm)|]. split; [exact Hin|exact (Hs _ Hin)].
Defined.

(** ** Categories, groups and the result views *)

Section TableProperties.
Import GoStrconv.

(** X18.  [GetTechByGroup] lists a technology exactly when one of its
    categories is indexed under the group, and lists it once, however many
    of its categories are. *)
Theorem GetTechByGroup_lists_each_once (t : Tables) (w : Wappalyze) (groupID : Z) :
  NoDup (GetTechByGroup t w groupID)
  /\ forall tech,
       tech ∈ GetTechByGroup t w groupID <->
       exists catIDs catID,
         categoryMapping w !! tech = Some catIDs
         /\ catID ∈ catIDs /\ catID ∈ GetGroupCategories t groupID.
Proof.
  unfold GetTechByGroup.
  destruct (GetGroupCategories t groupID) as [|c cs] eqn:Hg.
  - simpl. split; [constructor|]. intros tech. split; [intros H; inversion H|].
    intros (catIDs & catID & _ & _ & H). inversion H.
  - change (Z.of_nat (length (c :: cs)) =? 0) with false. cbv iota.
    set (categories := c :: cs).
    set (hit := fun catIDs : list Z =>
                  existsb (fun catID => bool_decide
                             (catID ∈ (list_to_set categories : gset Z))) catIDs).
    assert (forall catIDs, hit catIDs = true <->
              exists catID, catID ∈ catIDs /\ catID ∈ categories) as Hhit.
    { intros catIDs. unfold hit. rewrite existsb_elem_of.
      split; intros (catID & Hin & Hc); exists catID; (split; [exact Hin|]).
      - apply bool_decide_eq_true in Hc. apply elem_of_list_to_set in Hc. exact Hc.
      - apply bool_decide_eq_true. apply elem_of_list_to_set. exact Hc. }
    apply (map_fold_weak_ind
             (fun r m =>
                NoDup r
                /\ forall tech, tech ∈ r <->
                     exists catIDs catID, m !! tech = Some catIDs
                       /\ catID ∈ catIDs /\ catID ∈ categories)).
    + split; [constructor|]. intros tech. split; [intros H; inversion H|].
      intros (catIDs & catID & H & _). rewrite lookup_empty in H. discriminate.
    + intros i x m r Hi [Hnd Hiff].
      assert (i ∉ r) as Hfresh.
      { intros Hin. apply Hiff in Hin as (catIDs & _ & H & _). congruence. }
      assert (forall tech,
                (exists catIDs catID, <[i := x]> m !! tech = Some catIDs
                   /\ catID ∈ catIDs /\ catID ∈ categories)
                <-> (tech = i /\ hit x = true) \/ tech ∈ r) as Hstep.
      { intros tech. rewrite Hiff, Hhit. destruct (decide (i = tech)) as [->|Hne].
        - rewrite lookup_insert_eq. split.
          + intros (catIDs & catID & [= <-] & H). left. eauto.
          + intros [[_ (catID & H)]|(catIDs & _ & H & _)]; [eauto|congruence].
        - rewrite lookup_insert_ne by exact Hne. split; [auto|].
          intros [[-> _]|H]; [contradiction|exact H]. }
      fold (hit x). destruct (hit x) eqn:Hx.
      * split.
        -- apply NoDup_app. split; [exact Hnd|]. split; [|apply NoDup_singleton].
           intros y Hy Hy'. apply list_elem_of_singleton in Hy' as ->. contradiction.
        -- intros tech. rewrite Hstep, elem_of_app, list_elem_of_singleton. tauto.
      * split; [exact Hnd|]. intros tech. rewrite Hstep. split; [auto|].
        intros [[_ H]|H]; [discriminate|exact H].
Qed.

Lemma add_group_keeps_categories (groupsData : gmap string string) (t : Tables) :
  categoriesMapping (map_fold add_group t groupsData) = categoriesMapping t
  /\ categoryToGroups (map_fold add_group t groupsData) = categoryToGroups t
  /\ groupCategories (map_fold add_group t groupsData) = groupCategories t.
Proof.
  apply (map_fold_weak_ind
           (fun r _ => categoriesMapping r = categoriesMapping t
                       /\ categoryToGroups r = categoryToGroups t
                       /\ groupCategories r = groupCategories t)); [auto|].
  intros i x m r _ IH. unfold add_group. destruct (Atoi i); [|exact IH]. exact IH.
Qed.

Lemma append_category_spec (categoryID : Z) (groups : list Z) :
  forall (index : gmap Z (list Z)) (groupID id : Z),
    id ∈ default [] (foldl (append_category categoryID) index groups !! groupID) <->
    id ∈ default [] (index !! groupID) \/ (id = categoryID /\ groupID ∈ groups).
Proof.
  induction groups as [|g gs IH]; intros index groupID id; cbn [foldl].
  - split; [auto|]. intros [H|[_ H]]; [exact H|inversion H].
  - rewrite IH. unfold append_category.
    destruct (decide (g = groupID)) as [->|Hne].
    + rewrite lookup_insert_eq. simpl. rewrite elem_of_app, list_elem_of_singleton,
        elem_of_cons. tauto.
    + rewrite lookup_insert_ne by exact Hne. rewrite elem_of_cons.
      split; [tauto|]. intros [H|[H [H'|H']]]; try tauto. congruence.
Qed.

(** X19.  The group-to-categories index built by [loadDataOnce] is the
    inverse of the group lists of the categories: a category ID is indexed
    under a group exactly when some entry of the category file whose key
    reads as that ID lists the group; the group file does not change it. *)
Theorem group_index_inverts_category_groups
    (categoriesData : gmap string CategoryItem) (groupsData : gmap string string)
    (groupID categoryID : Z) :
  categoryID ∈ GetGroupCategories (loadData categoriesData groupsData) groupID <->
  exists key category,
    categoriesData !! key = Some category
    /\ Atoi key = Some categoryID /\ groupID ∈ Groups category.
Proof.
  unfold GetGroupCategories, loadData.
  destruct (add_group_keeps_categories groupsData
              (map_fold add_category emptyTables categoriesData)) as (_ & _ & ->).
  revert groupID categoryID.
  apply (map_fold_weak_ind
           (fun t m => forall groupID categoryID,
              categoryID ∈ default [] (groupCategories t !! groupID) <->
              exists key category,
                m !! key = Some category
                /\ Atoi key = Some categoryID /\ groupID ∈ Groups category)).
  - intros groupID categoryID. simpl. rewrite lookup_empty. simpl.
    split; [intros H; inversion H|].
    intros (key & category & H & _). rewrite lookup_empty in H. discriminate.
  - intros key category m t Hkey IH groupID categoryID.
    assert ((exists key' category',
               <[key := category]> m !! key' = Some category'
               /\ Atoi key' = Some categoryID /\ groupID ∈ Groups category')
            <-> (Atoi key = Some categoryID /\ groupID ∈ Groups category)
                \/ categoryID ∈ default [] (groupCategories t !! groupID)) as ->.
    { rewrite IH. split.
      - intros (key' & category' & Hl & Ha & Hg).
        destruct (decide (key = key')) as [<-|Hne].
        + rewrite lookup_insert_eq in Hl. injection Hl as <-. auto.
        + rewrite lookup_insert_ne in Hl by exact Hne. right. eauto.
      - intros [[Ha Hg]|(key' & category' & Hl & Ha & Hg)].
        + exists key, category. rewrite lookup_insert_eq. auto.
        + exists key', category'. rewrite lookup_insert_ne; [auto|].
          intros ->. congruence. }
    unfold add_category. destruct (Atoi key) as [cid|]; simpl.
    + destruct (0 <? Z.of_nat (length (Groups category))) eqn:Hlen.
      * rewrite append_category_spec. split.
        -- intros [H|[-> H]]; auto.
        -- intros [[[= <-] H]|H]; auto.
      * destruct (Groups category); [|discriminate]. split; [auto|].
        intros [[_ H]|H]; [inversion H|exact H].
    + split; [auto|]. intros [[H _]|H]; [discriminate|exact H].
Qed.

(** Every category that has a group list in the tables of [loadDataOnce]
    is in the table of categories. *)
Lemma loadData_indexed_categories_known
    (categoriesData : gmap string CategoryItem) (groupsData : gmap string string)
    (categoryID : Z) :
  is_Some (categoryToGroups (loadData categoriesData groupsData) !! categoryID) ->
  is_Some (categoriesMapping (loadData categoriesData groupsData) !! categoryID).
Proof.
  unfold loadData.
  destruct (add_group_keeps_categories groupsData
              (map_fold add_category emptyTables categoriesData)) as (-> & -> & _).
  apply (map_fold_weak_ind
           (fun t _ => is_Some (categoryToGroups t !! categoryID) ->
                       is_Some (categoriesMapping t !! categoryID))).
  - simpl. rewrite lookup_empty. intros [v Hv]. discriminate.
  - intros key category m t _ IH. unfold add_category.
    destruct (Atoi key) as [cid|]; [|exact IH]. simpl.
    destruct (decide (cid = categoryID)) as [->|Hne].
    + intros _. rewrite lookup_insert_eq. eauto.
    + rewrite (lookup_insert_ne (categoriesMapping t)) by exact Hne.
      destruct (0 <? Z.of_nat (length (Groups category)));
        [rewrite lookup_insert_ne by exact Hne|]; exact IH.
Qed.

End TableProperties.

Section ViewProperties.
Context `{RE : Regexp}.

Lemma Fingerprint_returns (w : Wappalyze) (headers : gmap string (list string))
    (body : string) :
  is_Some (Fingerprint_ w headers body).
Proof. unfold Fingerprint_. apply addImpliedTechnologies_total. Qed.

Lemma range_set_lookup_cases {B} (entry : string -> B) (technologies : gset string)
    (name : string) :
  (name ∈ technologies -> range_set entry technologies !! name = Some (entry name))
  /\ (name ∉ technologies -> range_set entry technologies !! name = None).
Proof.
  unfold range_set.
  apply (set_fold_ind_L
           (fun (r : gmap string B) (X : gset string) =>
              (name ∈ X -> r !! name = Some (entry name))
              /\ (name ∉ X -> r !! name = None))).
  - split; [|intros _; apply lookup_empty].
    intros H. exfalso. exact (not_elem_of_empty (C := gset string) _ H).
  - intros x X r Hx [IH1 IH2]. destruct (decide (x = name)) as [->|Hne].
    + rewrite lookup_insert_eq. split; [reflexivity|].
      intros Hout. exfalso. apply Hout, elem_of_union. left.
      apply elem_of_singleton. reflexivity.
    + rewrite lookup_insert_ne by exact Hne. split.
      * intros Hin. apply IH1. apply elem_of_union in Hin as [Hs|Hs]; [|exact Hs].
        apply elem_of_singleton in Hs. congruence.
      * intros Hout. apply IH2. intros Hin. apply Hout, elem_of_union. auto.
Qed.

Lemma range_set_lookup {B} (entry : string -> B) (technologies : gset string)
    (name : string) :
  range_set entry technologies !! name
  = if decide (name ∈ technologies) then Some (entry name) else None.
Proof.
  destruct (range_set_lookup_cases entry technologies name) as [H1 H2].
  destruct (decide (name ∈ technologies)); auto.
Qed.

Lemma dom_range_set {B} (entry : string -> B) (technologies : gset string) :
  dom (range_set entry technologies) = technologies.
Proof.
  apply set_eq. intros name. rewrite elem_of_dom, range_set_lookup.
  destruct (decide (name ∈ technologies)) as [Hin|Hout].
  - split; [auto|eauto].
  - split; [intros [v Hv]; discriminate|contradiction].
Qed.

(** X20.  The info view and the comprehensive view have exactly one entry
    for each technology [Fingerprint] reports, the entry of the
    comprehensive view carries its own name, and a reported name that is
    not a technology of the corpus (an implied name that resolves to
    nothing) gets the empty description and website instead of a
    failure. *)
Theorem views_have_one_entry_per_reported_name (t : Tables) (w : Wappalyze)
    (headers : gmap string (list string)) (body : string) :
  exists (result : gset string) (infos : gmap string AppInfo.t)
         (techs : gmap string TechInfo.t),
    Fingerprint_ w headers body = Some result
    /\ FingerprintWithInfo w headers body = Some infos
    /\ FingerprintWithTechInfo t w headers body = Some techs
    /\ dom infos = result /\ dom techs = result
    /\ (forall name info, techs !! name = Some info -> TechInfo.Name info = name)
    /\ (forall name, name ∈ result -> fingerprints w !! name = None ->
          infos !! name = Some {| AppInfo.Description := ""; AppInfo.Website := "" |}).
Proof.
  destruct (Fingerprint_returns w headers body) as [result Hr].
  unfold FingerprintWithInfo, FingerprintWithTechInfo. rewrite Hr. simpl.
  eexists result, _, _. split; [reflexivity|]. split; [reflexivity|].
  split; [reflexivity|]. split; [apply dom_range_set|]. split; [apply dom_range_set|].
  split.
  - intros name info. rewrite range_set_lookup.
    destruct (decide (name ∈ result)); [|discriminate]. intros [= <-].
    destruct (fingerprints w !! name), (categoryMapping w !! name); reflexivity.
  - intros name Hin Hnone. rewrite range_set_lookup.
    destruct (decide (name ∈ result)); [|contradiction]. rewrite Hnone. reflexivity.
Qed.

Lemma known_group_ids_eq (t : Tables) (catIDs : list Z) :
  (forall catID, is_Some (categoryToGroups t !! catID) ->
                 is_Some (categoriesMapping t !! catID)) ->
  known_group_ids t catIDs = group_ids t catIDs.
Proof.
  intros Hinv. unfold known_group_ids, group_ids. generalize (∅ : gset Z).
  induction catIDs as [|catID l IH]; intros acc; simpl; [reflexivity|].
  destruct (categoriesMapping t !! catID) eqn:Hc; [apply IH|].
  destruct (categoryToGroups t !! catID) eqn:Hg; [|apply IH].
  destruct (Hinv catID ltac:(eauto)) as [c Hc']. congruence.
Qed.

(** X21.  On the tables built by [loadDataOnce], the comprehensive view
    agrees with the separate views: for every reported technology its
    category names are the entry of the category-name view, and its group
    names are the entry of the group-name view, up to the order in which
    the groups are visited. *)
Theorem tech_info_agrees_with_separate_views
    (categoriesData : gmap string CategoryItem) (groupsData : gmap string string)
    (w : Wappalyze) (headers : gmap string (list string)) (body : string) :
  let t := loadData categoriesData groupsData in
  exists (techs : gmap string TechInfo.t) (categories groups : gmap string (list string)),
    FingerprintWithTechInfo t w headers body = Some techs
    /\ FingerprintWithCategories t w headers body = Some categories
    /\ FingerprintWithGroups t w headers body = Some groups
    /\ forall name info,
         techs !! name = Some info ->
         categories !! name = Some (TechInfo.Categories info)
         /\ exists names, groups !! name = Some names
                          /\ names ≡ₚ TechInfo.Groups info.
Proof.
  intros t.
  destruct (Fingerprint_returns w headers body) as [result Hr].
  unfold FingerprintWithTechInfo, FingerprintWithCategories, FingerprintWithGroups.
  rewrite Hr. simpl. eexists _, _, _. split; [reflexivity|]. split; [reflexivity|].
  split; [reflexivity|]. intros name info. rewrite !range_set_lookup.
  destruct (decide (name ∈ result)); [|discriminate]. intros [= <-].
  destruct (fingerprints w !! name); destruct (categoryMapping w !! name) as [catIDs|];
    simpl; (split; [reflexivity|]); eexists; (split; [reflexivity|]);
    try reflexivity;
    rewrite (known_group_ids_eq t catIDs
               (loadData_indexed_categories_known categoriesData groupsData));
    reflexivity.
Qed.

End ViewProperties.

(** ** The array form of the corpus and the command-line helpers *)

Section ConvertProperties.
Variable Sprint_number : Z -> string.

Lemma convertJSMap_lookup (jsMap : gmap string JValue) (key : string) :
  convertJSMap Sprint_number (Some jsMap) !! key
  = (fun value => match value with
                  | JString v => v
                  | JBool v => if v then "true" else "false"
                  | JNumber v => Sprint_number v
                  | _ => ""
                  end) <$> jsMap !! key.
Proof.
  unfold convertJSMap.
  apply (map_fold_weak_ind
           (fun (r : gmap string string) (m : gmap string JValue) =>
              r !! key = (fun value => match value with
                                       | JString v => v
                                       | JBool v => if v then "true" else "false"
                                       | JNumber v => Sprint_number v
                                       | _ => ""
                                       end) <$> m !! key)).
  - rewrite !lookup_empty. reflexivity.
  - intros i x m r _ IH. destruct (decide (i = key)) as [->|Hne].
    + rewrite !lookup_insert_eq. reflexivity.
    + rewrite !lookup_insert_ne by exact Hne. exact IH.
Qed.

(** X22.  [ConvertToFingerprints] keys the corpus by technology name: every
    entry is stored under its own [Name] and comes from a technology of the
    array with that name, every technology of the array has an entry, and of
    two technologies with the same name the later one is kept. *)
Theorem converted_corpus_is_keyed_by_name (techs : list Technology.t) :
  (forall key app,
     ConvertToFingerprints Sprint_number techs !! key = Some app ->
     Name app = key
     /\ exists tech, tech ∈ techs /\ Technology.Name tech = key
                     /\ Cats app = Technology.Cats tech
                     /\ Implies app = Technology.Implies tech)
  /\ (forall tech, tech ∈ techs ->
        is_Some (ConvertToFingerprints Sprint_number techs !! Technology.Name tech))
  /\ (forall tech app,
        ConvertToFingerprints Sprint_number (techs ++ [tech])%list
          !! Technology.Name tech = Some app ->
        Cats app = Technology.Cats tech /\ Headers app = Technology.Headers tech).
Proof.
  split; [|split].
  - induction techs as [|tech l IH] using rev_ind; intros key app.
    + unfold ConvertToFingerprints. cbn [foldl]. rewrite lookup_empty. discriminate.
    + unfold ConvertToFingerprints. rewrite foldl_app. cbn [foldl].
      fold (ConvertToFingerprints Sprint_number l).
      destruct (decide (Technology.Name tech = key)) as [<-|Hne].
      * rewrite lookup_insert_eq. intros [= <-]. simpl. split; [reflexivity|].
        exists tech. rewrite elem_of_app, list_elem_of_singleton. auto.
      * rewrite lookup_insert_ne by exact Hne. intros H.
        destruct (IH _ _ H) as (Hn & t' & Hin & Ht). split; [exact Hn|].
        exists t'. rewrite elem_of_app. auto.
  - induction techs as [|tech l IH] using rev_ind; intros t' Hin.
    + inversion Hin.
    + unfold ConvertToFingerprints. rewrite foldl_app. cbn [foldl].
      fold (ConvertToFingerprints Sprint_number l).
      destruct (decide (Technology.Name tech = Technology.Name t')) as [<-|Hne].
      * rewrite lookup_insert_eq. eauto.
      * rewrite lookup_insert_ne by exact Hne. apply IH.
        apply elem_of_app in Hin as [Hin|Hin]; [exact Hin|].
        apply list_elem_of_singleton in Hin. congruence.
  - intros tech app. unfold ConvertToFingerprints. rewrite foldl_app. cbn [foldl].
    rewrite lookup_insert_eq. intros [= <-]. simpl. auto.
Qed.

(** X23.  [convertJSMap] keeps every JS variable of a technology: a string
    value is kept as the pattern, and a value that is neither a string, a
    boolean nor a number becomes the empty pattern. *)
Theorem convertJSMap_keeps_every_variable (jsMap : gmap string JValue) :
  dom (convertJSMap Sprint_number (Some jsMap)) = dom jsMap
  /\ (forall key v, jsMap !! key = Some (JString v) ->
        convertJSMap Sprint_number (Some jsMap) !! key = Some v)
  /\ (forall key value,
        jsMap !! key = Some value ->
        (forall v, value <> JString v) -> (forall v, value <> JBool v) ->
        (forall v, value <> JNumber v) ->
        convertJSMap Sprint_number (Some jsMap) !! key = Some "").
Proof.
  split; [|split].
  - apply set_eq. intros key. rewrite !elem_of_dom, convertJSMap_lookup.
    destruct (jsMap !! key); simpl; split; intros [v Hv]; eauto; discriminate.
  - intros key v H. rewrite convertJSMap_lookup, H. reflexivity.
  - intros key value H Hs Hb Hn. rewrite convertJSMap_lookup, H. simpl.
    destruct value; try reflexivity; exfalso; [eapply Hb|eapply Hn|eapply Hs];
      reflexivity.
Qed.

End ConvertProperties.

(** X24.  [findGroupIDByName] compares group names without regard to case:
    the ID it returns is the ID of a group whose name agrees with the given
    name up to case, and it reports failure exactly when there is no such
    group. *)
Theorem findGroupIDByName_ignores_case (t : Tables) (name : string) :
  (forall id, findGroupIDByName t name = Some id ->
     exists group, groupsMapping t !! id = Some group
                   /\ GoStrings.ToLower group = GoStrings.ToLower name)
  /\ (findGroupIDByName t name = None <->
      forall id group, groupsMapping t !! id = Some group ->
                       GoStrings.ToLower group <> GoStrings.ToLower name).
Proof.
  unfold findGroupIDByName.
  apply (map_fold_weak_ind
           (fun (r : option Z) (m : gmap Z string) =>
              (forall id, r = Some id ->
                 exists group, m !! id = Some group
                               /\ GoStrings.ToLower group = GoStrings.ToLower name)
              /\ (r = None <->
                  forall id group, m !! id = Some group ->
                                   GoStrings.ToLower group <> GoStrings.ToLower name))).
  - split; [discriminate|]. split; [|reflexivity].
    intros _ id group H. rewrite lookup_empty in H. discriminate.
  - intros i x m r Hi [IH1 IH2]. destruct r as [found|].
    + split.
      * intros id [= <-]. destruct (IH1 found eq_refl) as (group & Hg & Hl).
        exists group. split; [|exact Hl]. rewrite lookup_insert_ne; [exact Hg|].
        intros ->. congruence.
      * split; [discriminate|]. intros H. exfalso.
        destruct (IH1 found eq_refl) as (group & Hg & Hl).
        apply (H found group); [|exact Hl]. rewrite lookup_insert_ne; [exact Hg|].
        intros ->. congruence.
    + destruct (bool_decide (GoStrings.ToLower x = GoStrings.ToLower name)) eqn:E.
      * apply bool_decide_eq_true in E. split.
        -- intros id [= <-]. exists x. rewrite lookup_insert_eq. auto.
        -- split; [discriminate|]. intros H. exfalso.
           apply (H i x); [apply lookup_insert_eq|exact E].
      * apply bool_decide_eq_false in E. split; [discriminate|].
        split; [|reflexivity]. intros _ id group.
        destruct (decide (i = id)) as [->|Hne].
        -- rewrite lookup_insert_eq. intros [= <-]. exact E.
        -- rewrite lookup_insert_ne by exact Hne. apply IH2. reflexivity.
Qed.

Lemma GetTechByGroup_lists_each_once_witness :
  let w := New (RE := RE2.engine) defaultConfig sessionCorpus in
  ("Bar" ∈ GetTechByGroup sampleTables w 2)
  /\ ("Foo" ∉ GetTechByGroup sampleTables w 2)
  /\ NoDup (GetTechByGroup sampleTables w 1).
Proof.
  intros w.
  destruct (GetTechByGroup_lists_each_once sampleTables w 2) as [_ H2].
  destruct (GetTechByGroup_lists_each_once sampleTables w 1) as [H1 _].
  split; [|split; [|exact H1]].
  - apply H2. exists [20], 20. split; [reflexivity|].
    split; apply list_elem_of_singleton; reflexivity.
  - intros H. apply H2 in H as (catIDs & catID & Hc & Hin & Hg).
    vm_compute in Hc. injection Hc as <-.
    apply list_elem_of_singleton in Hin as ->.
    apply list_elem_of_singleton in Hg. discriminate.
Defined.

Lemma group_index_inverts_category_groups_witness :
  let categoriesData : gmap string CategoryItem :=
    {[ "10" := {| CategoryName := "Group10Cat"; Priority := 1; Groups := [1] |};
       "20" := {| CategoryName := "Group20Cat"; Priority := 1; Groups := [1; 2] |};
       "x" := {| CategoryName := "ignored"; Priority := 1; Groups := [2] |} ]} in
  20 ∈ GetGroupCategories (loadData categoriesData {[ "2" := "Add-ons" ]}) 2.
Proof.
  intros categoriesData.
  apply (group_index_inverts_category_groups categoriesData {[ "2" := "Add-ons" ]} 2 20).
  exists "20", {| CategoryName := "Group20Cat"; Priority := 1; Groups := [1; 2] |}.
  split; [reflexivity|]. split; [reflexivity|].
  apply elem_of_cons. right. apply list_elem_of_singleton. reflexivity.
Defined.

Lemma findGroupIDByName_ignores_case_witness :
  findGroupIDByName sampleTables "SERVERS" = Some 1
  /\ exists group, groupsMapping sampleTables !! 1 = Some group
                   /\ GoStrings.ToLower group = GoStrings.ToLower "SERVERS".
Proof.
  split; [reflexivity|].
  apply (proj1 (findGroupIDByName_ignores_case sampleTables "SERVERS") 1).
  reflexivity.
Defined.

Lemma converted_corpus_is_keyed_by_name_witness :
  let tech (name : string) (cats : list Z) : Technology.t :=
    {| Technology.Name := name; Technology.Cats := cats;
       Technology.Description := ""; Technology.Website := ""; Technology.CPE := "";
       Technology.Icon := ""; Technology.Cookies := ∅; Technology.JS := None;
       Technology.Headers := ∅; Technology.HTML := JNull; Technology.Scripts := JNull;
       Technology.ScriptSrc := JNull; Technology.Meta := ∅;
       Technology.Implies := JNull |} in
  exists app,
    ConvertToFingerprints (fun _ => "") ([tech "Foo" [1]; tech "Bar" [2]] ++ [tech "Foo" [3]])%list
      !! "Foo" = Some app
    /\ Cats app = [3] /\ Name app = "Foo".
Proof.
  intros tech. eexists. split; [vm_compute; reflexivity|].
  destruct (converted_corpus_is_keyed_by_name (fun _ => "") [tech "Foo" [1]; tech "Bar" [2]])
    as (_ & _ & Hlast).
  destruct (converted_corpus_is_keyed_by_name (fun _ => "")
              ([tech "Foo" [1]; tech "Bar" [2]] ++ [tech "Foo" [3]])%list)
    as (Hkey & _ & _).
  split.
  - exact (proj1 (Hlast (tech "Foo" [3]) _ ltac:(vm_compute; reflexivity))).
  - exact (proj1 (Hkey "Foo" _ ltac:(vm_compute; reflexivity))).
Defined.

Lemma convertJSMap_keeps_every_variable_witness :
  let jsMap : gmap string JValue :=
    {[ "jQuery.fn.jquery" := JString "([\d.]+)"; "React" := JObject [] ]} in
  jsMap !! "React" = Some (JObject [])
  /\ convertJSMap (fun _ => "") (Some jsMap) !! "React" = Some ""
  /\ convertJSMap (fun _ => "") (Some jsMap) !! "jQuery.fn.jquery" = Some "([\d.]+)".
Proof.
  intros jsMap.
  destruct (convertJSMap_keeps_every_variable (fun _ => "") jsMap) as (_ & Hs & Ho).
  split; [reflexivity|]. split.
  - apply (Ho "React" (JObject [])); [reflexivity|discriminate..].
  - apply Hs. reflexivity.
Defined.

(** ** Cookie and JS matching, end to end *)

Section MatchingProperties.
Context `{RE : Regexp}.
Import GoStrings.

(** X25.  On the cookies synthesized from the headers, the cookie matcher
    adds a technology exactly when one of its cookie patterns, looked up
    under the lower-casing of its key, matches the value of the cookie of
    that name. *)
Theorem cookie_patterns_match_synthesized_cookies
    (cookiePatterns : gmap string (gmap string ParsedPattern))
    (headers : gmap string (list string)) (technologies : gset string)
    (tech : string) :
  tech ∈ MatchCookies cookiePatterns (ExtractCookiesFromHeaders headers) technologies
  <-> tech ∈ technologies
      \/ exists patterns key pattern value,
           cookiePatterns !! tech = Some patterns /\ patterns !! key = Some pattern
           /\ ExtractCookiesFromHeaders headers !! ToLower key = Some value
           /\ matched pattern value = true.
Proof.
  unfold MatchCookies.
  rewrite (proj2 (synthesized_cookie_names_are_lower_case_aux headers)).
  rewrite elem_of_range_add. apply or_iff_compat_l. split.
  - intros (patterns & Hp & Hh). apply range_any_true in Hh as (key & pattern & Hk & Ht).
    destruct (ExtractCookiesFromHeaders headers !! ToLower key) as [value|] eqn:Hv;
      [|discriminate].
    exists patterns, key, pattern, value. auto.
  - intros (patterns & key & pattern & value & Hp & Hk & Hv & Hm).
    exists patterns. split; [exact Hp|]. apply range_any_true.
    exists key, pattern. split; [exact Hk|]. rewrite Hv. exact Hm.
Qed.

(** X26.  JS variable names are compared exactly: the JS matcher adds a technology exactly when one of its JS
    patterns matches the value of the variable whose name is the key of the
    pattern, letter case included. *)
Theorem js_names_match_exactly
    (jsPatterns : gmap string (gmap string ParsedPattern))
    (jsVars : gmap string string) (technologies : gset string) (tech : string) :
  tech ∈ MatchJS jsPatterns jsVars technologies
  <-> tech ∈ technologies
      \/ exists patterns jsName pattern jsValue,
           jsPatterns !! tech = Some patterns /\ patterns !! jsName = Some pattern
           /\ jsVars !! jsName = Some jsValue /\ matched pattern jsValue = true.
Proof.
  unfold MatchJS. rewrite elem_of_range_add. apply or_iff_compat_l. split.
  - intros (patterns & Hp & Hh).
    apply range_any_true in Hh as (jsName & pattern & Hk & Ht).
    destruct (jsVars !! jsName) as [jsValue|] eqn:Hv; [|discriminate].
    exists patterns, jsName, pattern, jsValue. auto.
  - intros (patterns & jsName & pattern & jsValue & Hp & Hk & Hv & Hm).
    exists patterns. split; [exact Hp|]. apply range_any_true.
    exists jsName, pattern. split; [exact Hk|]. rewrite Hv. exact Hm.
Qed.

End MatchingProperties.

Lemma cookie_patterns_match_synthesized_cookies_witness :
  let w := New (RE := RE2.engine) defaultConfig sessionCorpus in
  let headers : gmap string (list string) := {[ "Set-Cookie" := ["SESSION=abc123"] ]} in
  "Sess" ∈ MatchCookies (RE := RE2.engine) (cookiePatterns w)
             (ExtractCookiesFromHeaders headers) ∅.
Proof.
  intros w headers.
  apply (cookie_patterns_match_synthesized_cookies (RE := RE2.engine)).
  right.
  exists (default ∅ (cookiePatterns w !! "Sess")), "session",
    {| Pattern := ".+"; IsLiteral := false; IsCaseSensitive := false;
       Version := ""; Confidence := 100; SkipRegex := false |}, "abc123".
  repeat split; vm_compute; reflexivity.
Defined.

Lemma js_names_match_exactly_witness :
  let w := New (RE := RE2.engine) defaultConfig keyedCorpus in
  ("jQuery" ∈ MatchJS (RE := RE2.engine) (jsPatterns w) {[ "jQuery" := "xyz" ]} ∅)
  /\ ("jQuery" ∉ MatchJS (RE := RE2.engine) (jsPatterns w) {[ "jquery" := "xyz" ]} ∅).
Proof.
  intros w. split.
  - apply (js_names_match_exactly (RE := RE2.engine)). right.
    exists (default ∅ (jsPatterns w !! "jQuery")), "jQuery",
      {| Pattern := "x"; IsLiteral := true; IsCaseSensitive := false;
         Version := ""; Confidence := 100; SkipRegex := false |}, "xyz".
    repeat split; vm_compute; reflexivity.
  - intros H. apply (js_names_match_exactly (RE := RE2.engine)) in H.
    destruct H as [H|(patterns & jsName & pattern & jsValue & Hp & Hk & Hv & _)].
    + exact (not_elem_of_empty (C := gset string) _ H).
    + vm_compute in Hp. injection Hp as <-.
      apply lookup_singleton_Some in Hv as [<- _].
      vm_compute in Hk. discriminate.
Defined.
